(** * file.d: configuration loading, the clickhouse output and the daemon's
      signal handling, embedded and checked against their description.

    The Go sources are embedded shallowly:
    - package [cfg] ([NewConfigFromFile] from the decoded file on,
      [applyEnvs], [parseConfig], [applyVault], [tryGetSecret],
      [ParseField], [ParseFieldSelector], [CompileRegex], [UnescapeMap],
      [ListToMap]);
    - package [clickhouse] ([Plugin.out], [processEvent], [addFieldToValues]);
    - package [main] ([listenSignals]);
    - the mask action, whose body is not part of the sources and is modelled
      from its description and its test table.

    What the sources take from elsewhere is a parameter ([regexp.Compile],
    [time.ParseDuration], the formatting of a time, the vault client, the
    answers of the database) or is written out after the library
    (go-simplejson, [strings], [strconv]).

    Go strings are byte sequences: they are lists of [ascii] here.  The
    functions of Go's [strings] and [strconv] packages are written out on
    bytes; where the Go function is Unicode aware ([ToLower], [TrimSpace])
    the embedding is the ASCII restriction of it. *)

From Stdlib Require Import ZArith Ascii Lia.
From stdpp Require Import gmap strings list.
From Equations Require Import Equations.

Local Open Scope Z_scope.

(** ** Go strings *)

Abbreviation str := (list ascii).

(** A literal ["abc"] is read as the byte sequence it denotes. *)
Definition lit (s : string) : str := String.list_ascii_of_string s.
Coercion lit : string >-> list.
Definition lits (l : list string) : list str := lit <$> l.

Module GoStrings.

(** [s[lo:hi]]; every use below is in range, where Go does not panic. *)
Definition slice (s : str) (lo hi : nat) : str := take (hi - lo) (drop lo s).

(** [strings.IndexByte]: [None] is Go's [-1]. *)
Fixpoint IndexByte (s : str) (c : ascii) : option nat :=
  match s with
  | [] => None
  | x :: s' => if decide (x = c) then Some 0%nat else S <$> IndexByte s' c
  end.

(** [strings.IndexAny] for a set of ASCII bytes. *)
Fixpoint IndexAny (s : str) (chars : str) : option nat :=
  match s with
  | [] => None
  | x :: s' => if decide (x ∈ chars) then Some 0%nat else S <$> IndexAny s' chars
  end.

Fixpoint HasPrefix (s p : str) {struct p} : bool :=
  match p, s with
  | [], _ => true
  | c :: p', x :: s' => if decide (x = c) then HasPrefix s' p' else false
  | _ :: _, [] => false
  end.

Definition HasSuffix (s p : str) : bool := HasPrefix (reverse s) (reverse p).

Definition TrimPrefix (s p : str) : str :=
  if HasPrefix s p then drop (length p) s else s.

Definition TrimSuffix (s p : str) : str :=
  if HasSuffix s p then take (length s - length p) s else s.

(** [strings.Split(s, sep)] for a one-byte separator: never empty. *)
Fixpoint Split (s : str) (sep : ascii) : list str :=
  match s with
  | [] => [[]]
  | x :: s' =>
      if decide (x = sep) then [] :: Split s' sep
      else match Split s' sep with
           | w :: ws => (x :: w) :: ws
           | [] => [[x]]
           end
  end.

(** [strings.SplitN(s, sep, 2)] for a one-byte separator. *)
Definition SplitN2 (s : str) (sep : ascii) : list str :=
  match IndexByte s sep with
  | None => [s]
  | Some i => [take i s; drop (S i) s]
  end.

(** [strings.ReplaceAll(s, old, new)] for a non-empty [old]: matches are
    found left to right and do not overlap; [skip] counts the bytes of
    the current match still to be stepped over. *)
Fixpoint ReplaceAll_go (old new : str) (skip : nat) (s : str) : str :=
  match s with
  | [] => []
  | x :: s' =>
      match skip with
      | S k => ReplaceAll_go old new k s'
      | O =>
          if HasPrefix s old
          then new ++ ReplaceAll_go old new (length old - 1) s'
          else x :: ReplaceAll_go old new 0 s'
      end
  end.
Definition ReplaceAll (s old new : str) : str := ReplaceAll_go old new 0 s.

Definition is_upper (c : ascii) : bool :=
  (65 <=? nat_of_ascii c)%nat && (nat_of_ascii c <=? 90)%nat.

(** [strings.ToLower] on ASCII: the letters [A] to [Z] are lowered and every
    other byte is kept, where Go also lowers the letters beyond ASCII and
    rewrites invalid UTF-8. *)
Definition ToLower (s : str) : str :=
  (fun c => if is_upper c then ascii_of_nat (nat_of_ascii c + 32) else c) <$> s.

(** [strings.TrimSpace] on ASCII white space: the six white-space bytes are
    trimmed, where Go also trims the white space beyond ASCII (U+0085,
    U+00A0, ...). *)
Fixpoint drop_space (s : str) : str :=
  match s with
  | [] => []
  | x :: s' => if Ascii.is_space x then drop_space s' else s
  end.
Definition TrimSpace (s : str) : str := reverse (drop_space (reverse (drop_space s))).

(** [strings.Fields] on ASCII white space. *)
Fixpoint Fields_go (cur : option str) (s : str) : list str :=
  match s with
  | [] => option_list (reverse <$> cur)
  | x :: s' =>
      if Ascii.is_space x
      then option_list (reverse <$> cur) ++ Fields_go None s'
      else Fields_go (Some (x :: default [] cur)) s'
  end.
Definition Fields (s : str) : list str := Fields_go None s.

End GoStrings.


(** ** Go's [strconv] and [int] *)

Module GoInt.

(** Go's [int] on the 64-bit targets the daemon is released for:
    arithmetic wraps around modulo [2^64]. *)
Definition min_int : Z := - 2 ^ 63.
Definition max_int : Z := 2 ^ 63 - 1.
Definition wrap (z : Z) : Z := (z + 2 ^ 63) `mod` 2 ^ 64 - 2 ^ 63.

Definition digit (c : ascii) : option Z :=
  let n := Z.of_nat (nat_of_ascii c) in
  if bool_decide (48 ≤ n ≤ 57) then Some (n - 48) else None.

(** The digit loop of [strconv.ParseUint]. *)
Fixpoint digits (base acc : Z) (s : str) : option Z :=
  match s with
  | [] => Some acc
  | c :: s' =>
      d ← digit c;
      if bool_decide (d < base) then digits base (acc * base + d) s' else None
  end.

(** [strconv.ParseInt(s, base, bitSize)] for an explicit base: an optional
    sign, then at least one digit; [None] is a syntax or range error. *)
Definition ParseInt (s : str) (base : Z) (bitSize : Z) : option Z :=
  let '(neg, body) :=
    match s with
    | c :: s' =>
        if decide (c = "+"%char) then (false, s')
        else if decide (c = "-"%char) then (true, s')
        else (false, s)
    | [] => (false, [])
    end in
  match body with
  | [] => None
  | _ :: _ =>
      un ← digits base 0 body;
      let cutoff := 2 ^ (bitSize - 1) in
      if neg then (if bool_decide (un ≤ cutoff) then Some (- un) else None)
      else (if bool_decide (un < cutoff) then Some un else None)
  end.

Definition Atoi (s : str) : option Z := ParseInt s 10 64.

End GoInt.

(** ** Outcomes of a call *)

(** A Go call returns a value, returns an error, panics at run time, or
    ends the process through [logger.Fatal]. *)
Inductive result (E A : Type) : Type :=
| Ok (a : A)
| Err (e : E)
| Panic
| Fatal.
Arguments Ok {E A} a.
Arguments Err {E A} e.
Arguments Panic {E A}.
Arguments Fatal {E A}.

(** Modelled from the spec: the [logger] package is not part of the sources;
    a fatal log line ends the process, and a fatal configuration or start-up
    error gives a non-zero exit code. *)
Definition fatal_exit_code : Z := 1.

Definition exit_code {E A} (r : result E A) : option Z :=
  match r with
  | Fatal => Some fatal_exit_code
  | _ => None
  end.

#[export] Instance result_bind {E} : MBind (result E) := λ A B k r,
  match r with
  | Ok a => k a
  | Err e => Err e
  | Panic => Panic
  | Fatal => Fatal
  end.

#[export] Instance result_fmap {E} : FMap (result E) := λ A B f r,
  match r with
  | Ok a => Ok (f a)
  | Err e => Err e
  | Panic => Panic
  | Fatal => Fatal
  end.

(** The outcomes of a loop over a slice, in order: the first one that is
    not a value ends the loop. *)
Fixpoint collect_list {E A} (l : list (result E A)) : result E (list A) :=
  match l with
  | [] => Ok []
  | r :: l => a ← r; (a ::.) <$> collect_list l
  end.

(** The outcomes of a loop over a Go map.  Go visits the keys in no fixed
    order; when several keys end the loop the one met first here is the one
    of the traversal of the map. *)
Definition collect_map {E A} (m : gmap str (result E A)) : result E (gmap str A) :=
  map_fold (λ k r acc, acc ← acc; a ← r; Ok (<[k := a]> acc)) (Ok ∅) m.

(** ** go-simplejson *)

#[warnings="-register-all"]
Inductive Json : Type :=
| JNull
| JBool (b : bool)
| JNum (n : str)
| JStr (s : str)
| JArr (l : list Json)
| JMap (m : gmap str Json).

Module SimpleJson.

(** [j.Map()]: the map, or an error. *)
Definition Map (j : Json) : option (gmap str Json) :=
  match j with JMap m => Some m | _ => None end.

(** [j.MustMap()] without a default: an empty map on error. *)
Definition MustMap (j : Json) : gmap str Json := default ∅ (Map j).

(** [j.String()]. *)
Definition String (j : Json) : option str :=
  match j with JStr s => Some s | _ => None end.

(** [j.Get(key)]: the null value when [j] is no map or lacks [key]. *)
Definition Get (j : Json) (key : str) : Json :=
  match Map j with
  | Some m => default JNull (m !! key)
  | None => JNull
  end.

(** [j.SetPath(branch, val)]: every key of [branch] but the last is
    descended into; a missing or non-map value on the way, the root
    included, is replaced by a fresh map. *)
Fixpoint SetPath (j : Json) (branch : list str) (val : Json) : Json :=
  match branch with
  | [] => val
  | b :: rest =>
      let m := MustMap j in
      JMap (<[b := SetPath (default JNull (m !! b)) rest val]> m)
  end.

(** [j.GetPath(branch...)]. *)
Fixpoint GetPath (j : Json) (branch : list str) : Json :=
  match branch with
  | [] => j
  | b :: rest => GetPath (Get j b) rest
  end.

End SimpleJson.

(** ** Package cfg *)

Module Cfg.
Import GoStrings GoInt SimpleJson.

Record VaultConfig := {
  Token : str;
  Address : str;
  ShouldUse : bool;
}.

Record PipelineConfig := { Raw : Json }.

Record Config := {
  Vault : VaultConfig;
  Pipelines : gmap str PipelineConfig;
}.

Definition NewConfig : Config :=
  {| Vault := {| Token := ""; Address := ""; ShouldUse := false |};
     Pipelines := ∅ |}.

Inductive error :=
| ErrCantParseEnv (env : str)
| ErrDefaultNotInt (tag : str)
| ErrOptionsNotString
| ErrNotOneOf (tag got : str)
| ErrParseNotString
| ErrRegexpEmpty
| ErrRegexpNotSurrounded (s : str)
| ErrRegexpCompile (s : str)
| ErrDuration (s : str)
| ErrCantConvert (s : str)
| ErrCantFindValue (name : str)
| ErrUnknownOperation (op : ascii)
| ErrBase8 (s : str)
| ErrUnsupportedParse (tag : str)
| ErrRequired.

(** *** [applyEnvs] *)

(** [environ] is [os.Environ()].  The JSON tree is updated in place, one
    variable after the other; an entry without [=] ends the call with an
    error. *)
Fixpoint applyEnvs (environ : list str) (json : Json) : result error Json :=
  match environ with
  | [] => Ok json
  | env :: environ =>
      match SplitN2 env "=" with
      | [k; v] =>
          if HasPrefix k "FILED_" then
            let lower := ToLower k in
            let path := drop 1 (Split lower "_") in
            applyEnvs environ (SetPath json path (JStr v))
          else applyEnvs environ json
      | _ => Err (ErrCantParseEnv env)
      end
  end.

(** *** [parseConfig] *)

(** An address or a token that is no string reads as the empty string (and
    a warning is logged).  The loop over [pipelines] fills the map of
    [NewConfig] key by key. *)
Definition parseConfig (json : Json) : result error Config :=
  let config := NewConfig in
  let vault := Get json "vault" in
  let addr := default [] (String (Get vault "address")) in
  let token := default [] (String (Get vault "token")) in
  let shouldUse := bool_decide (addr ≠ []) && bool_decide (token ≠ []) in
  let pipelinesJson := Get json "pipelines" in
  let pipelines := MustMap pipelinesJson in
  if bool_decide (size pipelines = 0%nat) then Fatal
  else
    Ok {| Vault := {| Token := token; Address := addr; ShouldUse := shouldUse |};
          Pipelines :=
            map_fold (fun i _ acc => <[i := {| Raw := Get pipelinesJson i |}]> acc)
              (Pipelines config) pipelines |}.

(** *** [tryGetSecret] *)

(** The [secreter] interface: [None] is an error of the vault client. *)
Class secreter (V : Type) := GetSecret : V → str → str → option str.

Definition tryGetSecret `{secreter V} (vault : V) (field : Json)
  : result error (str * bool) :=
  match String field with
  | None => Ok ([], false)
  | Some s =>
      if HasPrefix s "\vault(" then Ok (ReplaceAll s "\vault(" "vault(", true)
      else if negb (HasPrefix s "vault(") || negb (HasSuffix s ")")
      then Ok ([], false)
      else
        let args := TrimPrefix s "vault(" in
        let args := TrimSuffix args ")" in
        let noSpaces := ReplaceAll args " " "" in
        let pathAndKey := Split noSpaces "," in
        match pathAndKey !! 0%nat, pathAndKey !! 1%nat with
        | Some path, Some key =>
            match GetSecret vault path key with
            | None => Fatal
            | Some secret => Ok (secret, true)
            end
        | _, _ => Panic
        end
  end.

(** *** [applyVault] *)

(** Every element of an array and every value of a map is either replaced by
    its secret or visited in turn; the tree is updated in place. *)
Fixpoint applyVault `{secreter V} (vault : V) (json : Json) : result error Json :=
  match json with
  | JArr a =>
      JArr <$> collect_list
        ((λ field,
            '(value, ok) ← tryGetSecret vault field;
            if ok : bool then Ok (JStr value) else applyVault vault field) <$> a)
  | JMap m =>
      JMap <$> collect_map
        ((λ field,
            '(value, ok) ← tryGetSecret vault field;
            if ok : bool then Ok (JStr value) else applyVault vault field) <$> m)
  | _ => Ok json
  end.

(** *** [NewConfigFromFile] *)

(** [NewConfigFromFile] once the file is read and decoded to [json]:
    [environ] is [os.Environ()] and [newVault] the constructor of the vault
    client ([None] is its error).  Every error is fatal here. *)
Definition NewConfigFromFile `{secreter V} (newVault : str → str → option V)
    (environ : list str) (json : Json) : result error Config :=
  match applyEnvs environ json with
  | Err _ => Fatal
  | Panic => Panic
  | Fatal => Fatal
  | Ok json =>
      config ← parseConfig json;
      if negb (ShouldUse (Vault config)) then Ok config
      else
        match newVault (Address (Vault config)) (Token (Vault config)) with
        | None => Fatal
        | Some vault =>
            pipelines ← collect_map
              ((λ p, (λ raw, {| Raw := raw |}) <$> applyVault vault (Raw p))
                 <$> Pipelines config);
            Ok {| Vault := Vault config; Pipelines := pipelines |}
        end
  end.

(** *** [ParseFieldSelector] *)

(** The [for] loop of [ParseFieldSelector]: the state is [result], [tail]
    (written [tail_]) and [selector]; the value is the state at [break].
    Every iteration cuts [selector] after its first dot. *)
Equations? ParseFieldSelector_loop (result : list str) (tail_ selector : str)
  : list str * str * str by wf (length selector) lt :=
ParseFieldSelector_loop result tail_ selector
  with Logic.inspect (IndexByte selector ".") := {
  | exist _ None _ => (result, tail_, selector)
  | exist _ (Some pos) Hpos =>
      if bool_decide (0 < pos)%nat
         && bool_decide (selector !! (pos - 1)%nat = Some "\"%char)
      then ParseFieldSelector_loop result
             (tail_ ++ slice selector 0 (pos - 1) ++ ".")
             (drop (pos + 1) selector)
      else if bool_decide (pos + 1 < length selector)%nat
              && bool_decide (selector !! (pos + 1)%nat = Some "."%char)
      then ParseFieldSelector_loop result
             (slice selector 0 (pos + 1))
             (drop (pos + 2) selector)
      else ParseFieldSelector_loop (result ++ [tail_ ++ slice selector 0 pos]) []
             (drop (pos + 1) selector) }.
Proof.
  all: destruct selector; [discriminate|]; rewrite length_drop; simpl; lia.
Qed.

(** After the loop: what is left of the selector, if anything, is the
    last component. *)
Definition ParseFieldSelector_finish (st : list str * str * str) : list str :=
  let '(result, tail_, selector) := st in
  if bool_decide (length selector + length tail_ ≠ 0)%nat
  then result ++ [tail_ ++ selector]
  else result.

Definition ParseFieldSelector (selector : str) : list str :=
  ParseFieldSelector_finish (ParseFieldSelector_loop [] [] selector).

(** *** [ParseField] *)

(** The reflected field: its kind and its value.  A nil slice is [None]. *)
Inductive value :=
| VString (s : str)
| VInt (i : Z)
| VSlice (l : option (list str))
| VOther (zero : bool).

Definition IsZero (v : value) : bool :=
  match v with
  | VString s => bool_decide (s = [])
  | VInt i => bool_decide (i = 0)
  | VSlice l => bool_decide (l = None)
  | VOther zero => zero
  end.

(** The struct tag of the field; an absent key reads as the empty string. *)
Record StructTag := {
  tag_required : str;
  tag_default : str;
  tag_options : str;
  tag_parse : str;
}.

(** What [ParseField] stores in the companion field (the field named with
    a trailing underscore). *)
Inductive final (R : Type) :=
| FRegexp (re : R)
| FSelector (fields : list str)
| FInt (i : Z)
| FListMap (m : gmap str bool)
| FList (l : list str).
Arguments FRegexp {R} re.
Arguments FSelector {R} fields.
Arguments FInt {R} i.
Arguments FListMap {R} m.
Arguments FList {R} l.

(** One operand of an expression: [strconv.Atoi], and on its error the
    lookup in [values]. *)
Definition operand (values : gmap str Z) (op : str) : result error Z :=
  match Atoi op with
  | Some i => Ok i
  | None =>
      match values !! op with
      | Some i => Ok i
      | None => Err (ErrCantFindValue op)
      end
  end.

(** The [case "expression"] of [ParseField]: the integer handed to
    [finalField.SetInt].  Go's integer division panics on a zero divisor
    and truncates towards zero. *)
Definition ParseField_expression (values : gmap str Z) (s : str) : result error Z :=
  match IndexAny s "*/+-" with
  | None =>
      match Atoi s with
      | None => Err (ErrCantConvert s)
      | Some i => Ok i
      end
  | Some pos =>
      let op1 := TrimSpace (slice s 0 pos) in
      let op := s !! pos in
      let op2 := TrimSpace (drop (pos + 1) s) in
      op1_ ← operand values op1;
      op2_ ← operand values op2;
      if decide (op = Some "+"%char) then Ok (wrap (op1_ + op2_))
      else if decide (op = Some "-"%char) then Ok (wrap (op1_ - op2_))
      else if decide (op = Some "*"%char) then Ok (wrap (op1_ * op2_))
      else if decide (op = Some "/"%char) then
        if decide (op2_ = 0) then Panic else Ok (wrap (op1_ ÷ op2_))
      else Err (ErrUnknownOperation (default "000"%char op))
  end.

Section ParseField.
(** Go's [regexp.Compile] and [time.ParseDuration] (in nanoseconds);
    [None] is their error. *)
Context {Regexp : Type}.
Variable regexp_Compile : str → option Regexp.
Variable time_ParseDuration : str → option Z.

Definition CompileRegex (s : str) : result error Regexp :=
  if decide (s = []) then Err ErrRegexpEmpty
  else if bool_decide (head s ≠ Some "/"%char) || bool_decide (last s ≠ Some "/"%char)
  then Err (ErrRegexpNotSurrounded s)
  else if bool_decide (length s - 1 < 1)%nat then Panic
  else match regexp_Compile (slice s 1 (length s - 1)) with
       | None => Err (ErrRegexpCompile s)
       | Some re => Ok re
       end.

Definition apply_default (tag : str) (vField : value) : result error value :=
  if decide (tag = []) then Ok vField
  else match vField with
       | VString s => Ok (if decide (s = []) then VString tag else vField)
       | VInt _ =>
           match Atoi tag with
           | None => Err (ErrDefaultNotInt tag)
           | Some val => Ok (VInt val)
           end
       | VSlice l =>
           if decide (length (default [] l) = 0%nat)
           then Ok (VSlice (Some (Fields tag)))
           else Ok vField
       | VOther _ => Ok vField
       end.

Definition check_options (tag : str) (vField : value) : result error () :=
  if decide (tag = []) then Ok ()
  else match vField with
       | VString s =>
           if decide (s ∈ Split tag "|") then Ok () else Err (ErrNotOneOf tag s)
       | _ => Err ErrOptionsNotString
       end.

Definition check_required (required : bool) (vField : value) : result error () :=
  if required && IsZero vField then Err ErrRequired else Ok ().

(** [ParseField]: the new value of the field and what was stored in its
    companion, if anything; the struct is taken to have the companion field
    that the [parse] tag asks for.  A literal expression returns before the
    [required] check, as the source does. *)
Definition ParseField (tags : StructTag) (vField : value) (values : gmap str Z)
  : result error (value * option (final Regexp)) :=
  let required := bool_decide (tag_required tags = "true") in
  vField ← apply_default (tag_default tags) vField;
  _ ← check_options (tag_options tags) vField;
  let tag := tag_parse tags in
  if decide (tag = []) then
    _ ← check_required required vField; Ok (vField, None)
  else
    match vField with
    | VString s =>
        if decide (tag = "regexp") then
          re ← CompileRegex s;
          _ ← check_required required vField; Ok (vField, Some (FRegexp re))
        else if decide (tag = "selector") then
          let fields := ParseFieldSelector s in
          _ ← check_required required vField; Ok (vField, Some (FSelector fields))
        else if decide (tag = "duration") then
          match time_ParseDuration s with
          | None => Err (ErrDuration s)
          | Some d =>
              _ ← check_required required vField; Ok (vField, Some (FInt d))
          end
        else if decide (tag = "list-map") then
          let parts := Split s "," in
          let listMap := foldl (fun m part => <[TrimSpace part := true]> m) ∅ parts in
          _ ← check_required required vField; Ok (vField, Some (FListMap listMap))
        else if decide (tag = "list") then
          let parts := Split s "," in
          _ ← check_required required vField;
          Ok (vField, Some (FList (TrimSpace <$> parts)))
        else if decide (tag = "expression") then
          i ← ParseField_expression values s;
          if decide (IndexAny s "*/+-" = None) then Ok (vField, Some (FInt i))
          else _ ← check_required required vField; Ok (vField, Some (FInt i))
        else if decide (tag = "base8") then
          match ParseInt s 8 64 with
          | None => Err (ErrBase8 s)
          | Some v => _ ← check_required required vField; Ok (vField, Some (FInt v))
          end
        else Err (ErrUnsupportedParse tag)
    | _ => Err ErrParseNotString
    end.

End ParseField.

(** *** [UnescapeMap] *)

(** [key[1:]] when the key starts with an underscore. *)
Definition unescape_key (key : str) : str :=
  match key with
  | c :: key' => if decide (c = "_"%char) then key' else key
  | [] => []
  end.

(** The values are [interface{}]; [val.(string)] panics on a value that is
    no string.  Go visits the keys in no fixed order: when two keys unescape
    to the same one, the value kept is the one of the key visited last. *)
Definition UnescapeMap_step (key : str) (val : Json)
    (acc : result error (gmap str str)) : result error (gmap str str) :=
  result ← acc;
  if decide (length key = 0%nat) then Ok result
  else match String val with
       | Some s => Ok (<[unescape_key key := s]> result)
       | None => Panic
       end.

Definition UnescapeMap (fields : gmap str Json) : result error (gmap str str) :=
  map_fold UnescapeMap_step (Ok ∅) fields.

(** *** [ListToMap] *)

Definition ListToMap (a : list str) : gmap str bool :=
  foldl (λ result key, <[key := true]> result) ∅ a.

End Cfg.

(** ** Package clickhouse: the output plugin *)

Module Clickhouse.
Import GoStrings GoInt.

(** The three sentinel errors; [errors.Is] tells them apart. *)
Inductive error :=
| ErrEventDoesntHaveField
| ErrEventFieldHasWrongType
| ErrTimestampFromDistantPastOrFuture.

Definition nineThousandYear : Z := 221842627200.

Inductive chType :=
| unknownType
| chString
| chInt
| chTimestamp
| chTimestring
| chMilliseconds.

Record column := { Name : str; ColType : chType }.

(** A node of the event (insane-json): a number with an integer value, a
    string, or anything else. *)
Inductive Node :=
| NNumber (i : Z)
| NString (s : str)
| NOther.

Definition AsInt (n : Node) : option Z :=
  match n with NNumber i => Some i | _ => None end.
Definition AsString (n : Node) : option str :=
  match n with NString s => Some s | _ => None end.

(** The event: the fields of its root object. *)
Abbreviation Event := (gmap str Node).

(** [event.Root.DigStrict(name)]. *)
Definition DigStrict (event : Event) (name : str) : option Node := event !! name.

(** A value handed to the insert builder. *)
Inductive any :=
| AString (s : str)
| AInt (i : Z)
| AInt16 (i : Z).

(** Durations are [time.Duration]: nanoseconds. *)
Definition millisecond : Z := 1000000.

Record Config := {
  Strict : bool;
  Table : str;
  Columns : list column;
  Retry : Z;
  Retention_ : Z;
  DBRequestTimeout_ : Z;
}.

(** The [default] tags of [Retry] and [Retention] in [Config]. *)
Definition Retry_default_tag : string := "3".
Definition Retention_default_tag : string := "50ms".

(** The checks of [Start] on the configuration: each failure is fatal. *)
Definition Start_checks (config : Config) : result error () :=
  if decide (length (Columns config) = 0%nat) then Fatal
  else if decide (Retry config < 1) then Fatal
  else if decide (Retention_ config < 1) then Fatal
  else if decide (DBRequestTimeout_ config < 1) then Fatal
  else Ok ().

(** What [out] does to the world, in order. *)
Inductive effect :=
| DiscardedInc
| LogError
| WrittenAdd (n : nat)
| ExecContext (rows : list (list any)) (timeout : Z)
| Sleep (d : Z)
| PoolClose
| LogFatal.

Section out.
(** Go's [time.Unix(t, 0).Format(time.RFC3339)] and [len([]rune(s))]. *)
Variable time_Format_RFC3339 : Z → str.
Variable runeCount : str → nat.
(** Whether the [n]-th [ExecContext] of this call of [out] returns an
    error ([n] counts from 0). *)
Variable exec_fails : nat → bool.

Definition addFieldToValues (field : column) (sNode : Node) : error + any :=
  match ColType field with
  | chString =>
      match AsString sNode with
      | None => inl ErrEventFieldHasWrongType
      | Some lVal => inr (AString lVal)
      end
  | chInt =>
      match AsInt sNode with
      | None => inl ErrEventFieldHasWrongType
      | Some lVal => inr (AInt lVal)
      end
  | chTimestamp =>
      match AsInt sNode with
      | None => inl ErrEventFieldHasWrongType
      | Some tint =>
          if bool_decide (tint < 0) || bool_decide (tint > nineThousandYear)
          then inl ErrTimestampFromDistantPastOrFuture
          else inr (AString (time_Format_RFC3339 tint))
      end
  | chTimestring =>
      let nLen := 19%nat in
      match AsString sNode with
      | None => inl ErrEventFieldHasWrongType
      | Some lVal =>
          if bool_decide (runeCount lVal < nLen)%nat
          then inl ErrEventFieldHasWrongType
          else inr (AString (slice lVal 0 nLen))
      end
  | chMilliseconds =>
      let nLen := 23%nat in
      match AsString sNode with
      | None => inl ErrEventFieldHasWrongType
      | Some lVal =>
          if bool_decide (runeCount lVal < nLen)%nat
          then inl ErrEventFieldHasWrongType
          else match ParseInt (slice lVal 20 23) 10 16 with
               | None => inl ErrEventFieldHasWrongType
               | Some nVal => inr (AInt16 nVal)
               end
      end
  | unknownType => inl ErrEventFieldHasWrongType
  end.

(** The loop of [processEvent], with [fieldValues] as accumulator. *)
Fixpoint processEvent_loop (event : Event) (chFields : list column)
    (fieldValues : list any) : error + list any :=
  match chFields with
  | [] => inr fieldValues
  | field :: chFields =>
      match DigStrict event (Name field) with
      | None => inl ErrEventDoesntHaveField
      | Some fieldNode =>
          match addFieldToValues field fieldNode with
          | inl err => inl err
          | inr lVal => processEvent_loop event chFields (fieldValues ++ [lVal])
          end
      end
  end.

Definition processEvent (event : Event) (chFields : list column) : error + list any :=
  processEvent_loop event chFields [].

(** The first loop of [out]: the rows of the valid events of the batch.
    [None] is the process ended by [logger.Fatal] in strict mode. *)
Fixpoint out_events (config : Config) (events : list Event)
    (rows : list (list any)) : list effect * option (list (list any)) :=
  match events with
  | [] => ([], Some rows)
  | event :: events =>
      match processEvent event (Columns config) with
      | inl err =>
          let handle :=
            if Strict config then ([DiscardedInc; LogFatal], None)
            else
              let '(t, r) := out_events config events rows in
              (DiscardedInc :: LogError :: t, r) in
          match err with
          | ErrEventDoesntHaveField => handle
          | ErrEventFieldHasWrongType => handle
          | ErrTimestampFromDistantPastOrFuture => handle
          end
      | inr fieldValues => out_events config events (rows ++ [fieldValues])
      end
  end.

(** The retry loop of [out]: [i] counts down from [Retry], [n] is the
    number of attempts made, and the Boolean is [err != nil] when the
    loop is left. *)
Fixpoint out_retry (config : Config) (rows : list (list any)) (batch_len : nat)
    (i n : nat) (err : bool) : list effect * bool :=
  match i with
  | O => ([], err)
  | S i =>
      if exec_fails n then
        let '(t, err) := out_retry config rows batch_len i (S n) true in
        (ExecContext rows (DBRequestTimeout_ config) :: LogError
           :: Sleep (Retention_ config) :: t, err)
      else
        ([ExecContext rows (DBRequestTimeout_ config); WrittenAdd batch_len], false)
  end.

(** [Plugin.out] on the events of a batch: the effects, and whether the
    call returned ([true]) or the process was ended by [logger.Fatal]. *)
Definition out (config : Config) (events : list Event) : list effect * bool :=
  match out_events config events [] with
  | (t, None) => (t, false)
  | (t, Some rows) =>
      if decide (length rows = 0%nat) then (t, true)
      else
        let '(t', err) :=
          out_retry config rows (length events) (Z.to_nat (Retry config)) 0 false in
        if err then (t ++ t' ++ [PoolClose; LogFatal], false)
        else (t ++ t', true)
  end.

End out.

End Clickhouse.

(** ** Package main: signals *)

Module Main.

(** The signals [listenSignals] subscribes to. *)
Inductive Signal := SIGHUP | SIGTERM | SIGINT.

Definition second : Z := 1000000000.

Inductive effect :=
| LogInfo (msg : string)
| Stop (deadline : Z)
| Cancel
| Start
| ExitSend
| LogFatal (msg : string).

#[export] Instance effect_eq_dec : EqDecision effect.
Proof. solve_decision. Defined.

Inductive status :=
| Running
| Exited (code : Z).

(** A signal as it arrives, with what the world answers while it is
    handled: whether [fileD.Stop] returns an error before its deadline, and
    whether [start] ends in a fatal configuration or start-up error. *)
Record arrival := {
  sig : Signal;
  stop_fails : bool;
  start_fails : bool;
}.

(** One iteration of the loop of [listenSignals].  After [exit <- true]
    the main goroutine returns from [main]: exit code 0. *)
Definition handle (a : arrival) : list effect * status :=
  match sig a with
  | SIGHUP =>
      if stop_fails a
      then ([LogInfo "SIGHUP received"; Stop (second * 3);
             LogFatal "can't stop file.d with SIGHUP"], Exited fatal_exit_code)
      else if start_fails a
      then ([LogInfo "SIGHUP received"; Stop (second * 3); Cancel; Start],
            Exited fatal_exit_code)
      else ([LogInfo "SIGHUP received"; Stop (second * 3); Cancel; Start], Running)
  | SIGINT | SIGTERM =>
      if stop_fails a
      then ([LogInfo "SIGTERM or SIGINT received"; Stop (second * 3);
             LogFatal "can't stop file.d with SIGTERM or SIGINT"],
            Exited fatal_exit_code)
      else ([LogInfo "SIGTERM or SIGINT received"; Stop (second * 3); Cancel;
             ExitSend; LogInfo "see you soon..."], Exited 0)
  end.

(** [listenSignals] on the signals that arrive, in order. *)
Fixpoint listenSignals (arrivals : list arrival) : list effect * status :=
  match arrivals with
  | [] => ([], Running)
  | a :: arrivals =>
      match handle a with
      | (t, Running) => let '(t', st) := listenSignals arrivals in (t ++ t', st)
      | (t, Exited code) => (t, Exited code)
      end
  end.

End Main.

(** ** Plugin action/mask *)

Module Mask.
Import GoStrings.

(** *** Regular expressions, as Go's [regexp] matches them

    The patterns of the mask tests, on bytes: leftmost match, greedy
    repetition, alternatives tried in order. *)
Inductive regex :=
| Eps
| Class (p : ascii → bool)
| Seq (r1 r2 : regex)
| Alt (r1 r2 : regex)
| Opt (r : regex)
| Star (r : regex)
| Group (n : nat) (r : regex)
| WordBoundary.

(** [r{n}] and [r{0,n}], then [r{min,max}]. *)
Fixpoint exactly (r : regex) (n : nat) : regex :=
  match n with
  | O => Eps
  | S n => Seq r (exactly r n)
  end.
Fixpoint upto (r : regex) (n : nat) : regex :=
  match n with
  | O => Eps
  | S n => Opt (Seq r (upto r n))
  end.
Definition Repeat (r : regex) (min max : nat) : regex :=
  Seq (exactly r min) (upto r (max - min)).

Definition is_digit (c : ascii) : bool :=
  (48 <=? nat_of_ascii c)%nat && (nat_of_ascii c <=? 57)%nat.
Definition is_word (c : ascii) : bool :=
  let n := nat_of_ascii c in
  is_digit c || ((65 <=? n)%nat && (n <=? 90)%nat)
  || ((97 <=? n)%nat && (n <=? 122)%nat) || (n =? 95)%nat.

Definition is_space (c : ascii) : bool :=
  let n := nat_of_ascii c in
  (n =? 9)%nat || (n =? 10)%nat || (n =? 12)%nat || (n =? 13)%nat || (n =? 32)%nat.

(** *** The syntax of the patterns

    The part of Go's pattern syntax that the mask tests use on ASCII text:
    bytes, [.], the classes [\d \D \s \S \w \W], [\b], escaped punctuation,
    groups, [|], and the greedy [? * + {n} {n,m}]. *)
Definition is_meta (c : ascii) : bool :=
  bool_decide (c ∈ lit "\.+*?()|[]{}^$").

Definition escape (c : ascii) : option regex :=
  if decide (c = "b"%char) then Some WordBoundary
  else if decide (c = "d"%char) then Some (Class is_digit)
  else if decide (c = "D"%char) then Some (Class (λ x, negb (is_digit x)))
  else if decide (c = "s"%char) then Some (Class is_space)
  else if decide (c = "S"%char) then Some (Class (λ x, negb (is_space x)))
  else if decide (c = "w"%char) then Some (Class is_word)
  else if decide (c = "W"%char) then Some (Class (λ x, negb (is_word x)))
  else if is_word c then None
  else Some (Class (λ x, bool_decide (x = c))).

(** A decimal number at the head of [s], if any, and what follows it. *)
Fixpoint read_nat_go (acc : option nat) (s : str) : option nat * str :=
  match s with
  | c :: s1 =>
      if is_digit c
      then read_nat_go (Some (10 * default 0 acc + (nat_of_ascii c - 48))%nat) s1
      else (acc, s)
  | [] => (acc, s)
  end.
Definition read_nat (s : str) : option nat * str := read_nat_go None s.

(** The repetition that follows an atom, if any. *)
Definition parse_quantifier (a : regex) (s : str) : option (regex * str) :=
  match s with
  | c :: s1 =>
      if decide (c = "?"%char) then Some (Opt a, s1)
      else if decide (c = "*"%char) then Some (Star a, s1)
      else if decide (c = "+"%char) then Some (Seq a (Star a), s1)
      else if decide (c = "{"%char) then
        match read_nat s1 with
        | (Some min, d :: s2) =>
            if decide (d = "}"%char) then Some (exactly a min, s2)
            else if decide (d = ","%char) then
              match read_nat s2 with
              | (Some max, e :: s3) =>
                  if decide (e = "}"%char) then Some (Repeat a min max, s3) else None
              | _ => None
              end
            else None
        | _ => None
        end
      else Some (a, s)
  | [] => Some (a, s)
  end.

(** Alternatives, sequences and atoms; [n] is the number of the next group;
    fuel runs out on no pattern: see [Compile]. *)
Fixpoint parse_alt (fuel : nat) (s : str) (n : nat) {struct fuel}
  : option (regex * str * nat) :=
  match fuel with
  | O => None
  | S fuel =>
      '(r, s, n) ← parse_seq fuel s n;
      match s with
      | c :: s1 =>
          if decide (c = "|"%char)
          then '(r2, s, n) ← parse_alt fuel s1 n; Some (Alt r r2, s, n)
          else Some (r, s, n)
      | [] => Some (r, s, n)
      end
  end
with parse_seq (fuel : nat) (s : str) (n : nat) {struct fuel}
  : option (regex * str * nat) :=
  match fuel with
  | O => None
  | S fuel =>
      match s with
      | [] => Some (Eps, s, n)
      | c :: _ =>
          if decide (c = ")"%char) then Some (Eps, s, n)
          else if decide (c = "|"%char) then Some (Eps, s, n)
          else
            '(a, s, n) ← parse_atom fuel s n;
            '(r, s, n) ← parse_seq fuel s n;
            Some (Seq a r, s, n)
      end
  end
with parse_atom (fuel : nat) (s : str) (n : nat) {struct fuel}
  : option (regex * str * nat) :=
  match fuel with
  | O => None
  | S fuel =>
      '(a, s, n) ←
        match s with
        | [] => None
        | c :: s1 =>
            if decide (c = "("%char) then
              '(r, s, n2) ← parse_alt fuel s1 (S n);
              match s with
              | d :: s2 => if decide (d = ")"%char) then Some (Group n r, s2, n2) else None
              | [] => None
              end
            else if decide (c = "\"%char) then
              match s1 with
              | e :: s2 => cls ← escape e; Some (cls, s2, n)
              | [] => None
              end
            else if decide (c = "."%char)
            then Some (Class (λ x, negb (bool_decide (x = "010"%char))), s1, n)
            else if is_meta c then None
            else Some (Class (λ x, bool_decide (x = c)), s1, n)
        end;
      '(a, s) ← parse_quantifier a s;
      Some (a, s, n)
  end.

(** [regexp.Compile] on that part of the syntax; [None] otherwise. *)
Definition Compile (pattern : str) : option regex :=
  match parse_alt (4 * length pattern + 4) pattern 1 with
  | Some (r, [], _) => Some r
  | _ => None
  end.

(** A position in the input: the offset, the byte before it and the bytes
    from it on. *)
Record cursor := { pos : nat; prev : option ascii; rest : str }.

Definition cursor_at (s : str) (i : nat) : cursor :=
  {| pos := i; prev := if decide (i = 0%nat) then None else s !! (i - 1)%nat;
     rest := drop i s |}.

Definition at_boundary (c : cursor) : bool :=
  xorb (from_option is_word false (prev c)) (from_option is_word false (head (rest c))).

(** The spans of the groups that took part in the match. *)
Abbreviation captures := (gmap nat (nat * nat)).

(** The backtracking matcher, in continuation-passing style. *)
Fixpoint run (r : regex) (c : cursor) (caps : captures)
    (k : cursor → captures → option (cursor * captures)) : option (cursor * captures) :=
  match r with
  | Eps => k c caps
  | Class p =>
      match rest c with
      | x :: xs =>
          if p x then k {| pos := S (pos c); prev := Some x; rest := xs |} caps
          else None
      | [] => None
      end
  | Seq r1 r2 => run r1 c caps (fun c' caps' => run r2 c' caps' k)
  | Alt r1 r2 =>
      match run r1 c caps k with
      | Some m => Some m
      | None => run r2 c caps k
      end
  | Opt r =>
      match run r c caps k with
      | Some m => Some m
      | None => k c caps
      end
  | Star r =>
      (fix star (fuel : nat) (c : cursor) (caps : captures) :=
         match fuel with
         | O => k c caps
         | S fuel =>
             match run r c caps (fun c' caps' =>
                     if bool_decide (pos c < pos c')%nat then star fuel c' caps'
                     else None) with
             | Some m => Some m
             | None => k c caps
             end
         end) (length (rest c)) c caps
  | Group n r => run r c caps (fun c' caps' => k c' (<[n := (pos c, pos c')]> caps'))
  | WordBoundary => if at_boundary c then k c caps else None
  end.

(** A match that starts at [c]: its end and its groups, group 0 included. *)
Definition match_here (r : regex) (c : cursor) : option (nat * captures) :=
  '(c', caps) ← run r c ∅ (fun c' caps' => Some (c', caps'));
  Some (pos c', <[0%nat := (pos c, pos c')]> caps).

(** The leftmost match that starts at [c] or later. *)
Fixpoint search_go (r : regex) (n : nat) (c : cursor) : option (nat * captures) :=
  match match_here r c with
  | Some m => Some m
  | None =>
      match n, rest c with
      | S n, x :: xs => search_go r n {| pos := S (pos c); prev := Some x; rest := xs |}
      | _, _ => None
      end
  end.
Definition search (r : regex) (s : str) (i : nat) : option (nat * captures) :=
  search_go r (length s - i) (cursor_at s i).

(** [re.FindAllSubmatchIndex(s, -1)]: successive matches that do not
    overlap; an empty match right after a match is skipped.  [i] is where
    the next search starts; it grows at every step. *)
Fixpoint allMatches (r : regex) (s : str) (fuel : nat) (i : nat)
    (prevMatchEnd : option nat) : list captures :=
  match fuel with
  | O => []
  | S fuel =>
      if bool_decide (length s < i)%nat then []
      else match search r s i with
           | None => []
           | Some (e, caps) =>
               let accept :=
                 negb (bool_decide (e = i)
                       && bool_decide (fst <$> caps !! 0%nat = prevMatchEnd)) in
               let i' := if decide (e = i) then S i else e in
               (if accept then [caps] else []) ++ allMatches r s fuel i' (Some e)
           end
  end.
Definition FindAllSubmatchIndex (r : regex) (s : str) : list captures :=
  allMatches r s (S (S (length s))) 0 None.

(** *** The action *)

(** Modelled from the spec: the [Mask] of the configuration, as the tests
    build it: the pattern, the groups to mask and the compiled pattern. *)
Record MaskConfig := { Re : str; Groups : list nat; Re_ : regex }.

(** The number of UTF-8 encoded characters of a byte sequence. *)
Definition runes (s : str) : nat :=
  length (filter (fun c => ¬ (128 ≤ nat_of_ascii c < 192)%nat) s).

(** Modelled from the spec: [mask.go] is not part of the sources.  The
    groups of one match are visited in the order of [Groups]; the bytes
    between the previous group and this one are copied, and the group is
    replaced by one [*] per character. *)
Fixpoint mask_groups (value : str) (caps : captures) (groups : list nat)
    (buf : str) (prevFinish : nat) : str * nat :=
  match groups with
  | [] => (buf, prevFinish)
  | grp :: groups =>
      match caps !! grp with
      | None => mask_groups value caps groups buf prevFinish
      | Some (curStart, curFinish) =>
          mask_groups value caps groups
            (buf ++ slice value prevFinish curStart
                 ++ replicate (runes (slice value curStart curFinish)) "*"%char)
            curFinish
      end
  end.

(** Modelled from the spec: the loop of [maskValue] over the matches; what
    follows the last group is copied. *)
Fixpoint mask_matches (value : str) (indexes : list captures) (groups : list nat)
    (buf : str) (prevFinish : nat) : str :=
  match indexes with
  | [] => buf ++ drop prevFinish value
  | caps :: indexes =>
      let '(buf, prevFinish) := mask_groups value caps groups buf prevFinish in
      mask_matches value indexes groups buf prevFinish
  end.

(** Modelled from the spec: [maskValue] of [mask.go], which is not part of
    the sources: every character of the listed groups of every match is
    replaced by [*]; the Boolean reports that masking occurred. *)
Definition maskValue (mask : MaskConfig) (value : str) : str * bool :=
  match FindAllSubmatchIndex (Re_ mask) value with
  | [] => (value, false)
  | indexes => (mask_matches value indexes (Groups mask) [] 0, true)
  end.

(** Modelled from the spec: the masks of the configuration are applied in
    order to a string value of the event. *)
Definition maskString (masks : list MaskConfig) (value : str) : str :=
  foldl (fun v mask => fst (maskValue mask v)) value masks.

(** Modelled from the spec: [Do] of [mask.go], which is not part of the
    sources, on an event whose root object holds scalar fields: the string
    fields are masked, the event passes on. *)
Definition Do (masks : list MaskConfig) (event : gmap str Json) : gmap str Json :=
  (fun node => match node with
               | JStr s => JStr (maskString masks s)
               | _ => node
               end) <$> event.

(** The patterns of [mask_test.go]. *)
Definition kDefaultCardRegExp : string :=
  "\b(\d{1,4})\D?(\d{1,4})\D?(\d{1,4})\D?(\d{1,4})\b".
Definition kCardWithStarOrSpaceOrNoDelimitersRegExp : string :=
  "\b(\d{4})\s?\-?(\d{4})\s?\-?(\d{4})\s?\-?(\d{4})\b".

End Mask.

(** ** What the description says *)

Module Described.
Import GoStrings GoInt.

(** *** Field selectors

    The selector read from left to right: [\.] and [..] each add a dot to
    the component being read, any other dot ends the component, every
    other byte is added to it.  Empty components are kept, except the
    one after a final dot. *)
Fixpoint components (cur : str) (s : str) : list str :=
  match s with
  | [] => if decide (cur = []) then [] else [cur]
  | c :: s' =>
      if decide (c = "\"%char) then
        match s' with
        | d :: s'' =>
            if decide (d = "."%char) then components (cur ++ ".") s''
            else components (cur ++ [c]) s'
        | [] => components (cur ++ [c]) s'
        end
      else if decide (c = "."%char) then
        match s' with
        | d :: s'' =>
            if decide (d = "."%char) then components (cur ++ ".") s''
            else cur :: components [] s'
        | [] => cur :: components [] s'
        end
      else components (cur ++ [c]) s'
  end.

Definition selector_components (selector : str) : list str := components [] selector.

(** No two dots of [s] are next to each other. *)
Definition no_doubled_dot (s : str) : Prop :=
  ∀ i, ¬ (s !! i = Some "."%char ∧ s !! S i = Some "."%char).

(** *** Expressions *)

Definition operators : str := "*/+-".

(** No byte of [s] is an operator. *)
Definition operator_free (s : str) : Prop := Forall (λ c, c ∉ operators) s.
#[export] Instance operator_free_dec s : Decision (operator_free s).
Proof. unfold operator_free. apply _. Defined.

Definition binop (op : ascii) (x y : Z) : Z :=
  if decide (op = "+"%char) then x + y
  else if decide (op = "-"%char) then x - y
  else if decide (op = "*"%char) then x * y
  else x ÷ y.

(** An operand is an integer literal or a name of the environment. *)
Definition operand_value (values : gmap str Z) (s : str) : option Z :=
  match Atoi s with
  | Some i => Some i
  | None => values !! s
  end.

(** The clause of the description on literals, read with [strconv.Atoi]
    as the judge of what an integer literal is: the literal is evaluated
    to its value. *)
Definition literal_evaluated (values : gmap str Z) (s : str) : Prop :=
  ∀ i, Atoi s = Some i → Cfg.ParseField_expression values s = Ok i.

(** The forms that evaluate, with their value: a literal without any
    operator byte, or two operands around the first operator byte of the
    string, white space around the operands aside.  A division by zero
    has no value. *)
Inductive evaluates (values : gmap str Z) : str → Z → Prop :=
| evaluates_literal s i :
    operator_free s →
    Atoi s = Some i →
    evaluates values s i
| evaluates_binop a op b x y :
    operator_free a →
    op ∈ operators →
    operand_value values (TrimSpace a) = Some x →
    operand_value values (TrimSpace b) = Some y →
    ¬ (op = "/"%char ∧ y = 0) →
    evaluates values (a ++ op :: b) (wrap (binop op x y)).

(** A division, at the first operator byte, whose divisor is zero. *)
Definition divides_by_zero (values : gmap str Z) (s : str) : Prop :=
  ∃ a b x,
    s = a ++ "/"%char :: b ∧
    operator_free a ∧
    operand_value values (TrimSpace a) = Some x ∧
    operand_value values (TrimSpace b) = Some 0.

(** The text of a string field once its [default] tag is applied. *)
Definition field_text (tags : Cfg.StructTag) (s : str) : str :=
  if decide (s = []) then Cfg.tag_default tags else s.

(** *** The retries of the clickhouse output *)

(** What a failed attempt and the successful one leave in the trace. *)
Definition failed_attempt (config : Clickhouse.Config) (rows : list (list Clickhouse.any))
  : list Clickhouse.effect :=
  [Clickhouse.ExecContext rows (Clickhouse.DBRequestTimeout_ config);
   Clickhouse.LogError;
   Clickhouse.Sleep (Clickhouse.Retention_ config)].

Definition successful_attempt (config : Clickhouse.Config)
    (rows : list (list Clickhouse.any)) (batch_len : nat) : list Clickhouse.effect :=
  [Clickhouse.ExecContext rows (Clickhouse.DBRequestTimeout_ config);
   Clickhouse.WrittenAdd batch_len].

(** The tags of [Retry] and of [Retention] in the [Config] of the plugin. *)
Definition Retry_tags : Cfg.StructTag :=
  {| Cfg.tag_required := ""; Cfg.tag_default := Clickhouse.Retry_default_tag;
     Cfg.tag_options := ""; Cfg.tag_parse := "" |}.
Definition Retention_tags : Cfg.StructTag :=
  {| Cfg.tag_required := ""; Cfg.tag_default := Clickhouse.Retention_default_tag;
     Cfg.tag_options := ""; Cfg.tag_parse := "duration" |}.

(** The environment of the pipeline settings. *)
Definition environment (capacity gomaxprocs : Z) : gmap str Z :=
  <[lit "capacity" := capacity]> (<[lit "gomaxprocs" := gomaxprocs]> ∅).

End Described.

(** ** Inputs of the examples *)

Module Examples.
Import SimpleJson.

(** A field tagged [parse:"expression"] and nothing else. *)
Definition expression_tags (default : string) : Cfg.StructTag :=
  {| Cfg.tag_required := ""; Cfg.tag_default := default; Cfg.tag_options := "";
     Cfg.tag_parse := "expression" |}.

(** A vault client that always fails. *)
#[export] Instance no_vault : Cfg.secreter () := λ _ _ _, None.

(** A configuration with one pipeline. *)
Definition one_pipeline : Json :=
  JMap {[ lit "pipelines" := JMap {[ lit "main" := JMap ∅ ]} ]}.

(** A table with one timestamp column, and an event for it. *)
Definition ts_column : Clickhouse.column :=
  {| Clickhouse.Name := "ts"; Clickhouse.ColType := Clickhouse.chTimestamp |}.
Definition ts_config (strict : bool) : Clickhouse.Config :=
  {| Clickhouse.Strict := strict; Clickhouse.Table := "logs";
     Clickhouse.Columns := [ts_column]; Clickhouse.Retry := 3;
     Clickhouse.Retention_ := 50 * Clickhouse.millisecond;
     Clickhouse.DBRequestTimeout_ := 3000 * Clickhouse.millisecond |}.
Definition ts_event (t : Z) : Clickhouse.Event := {[ lit "ts" := Clickhouse.NNumber t ]}.
Definition epoch : str := "1970-01-01T00:00:00Z".
Definition ts_rows : list (list Clickhouse.any) := [[Clickhouse.AString epoch]].

(** A signal whose stop and start succeed. *)
Definition arrives (s : Main.Signal) : Main.arrival :=
  {| Main.sig := s; Main.stop_fails := false; Main.start_fails := false |}.

(** A case of the mask tests: the pattern is compiled ([None] when it is
    not in the part of the syntax that is read), then the value, or the
    event, is masked. *)
Definition test_mask (re : str) (groups : list nat) : option Mask.MaskConfig :=
  re_ ← Mask.Compile re;
  Some {| Mask.Re := re; Mask.Groups := groups; Mask.Re_ := re_ |}.
Definition test_maskValue (re : str) (groups : list nat) (input : str)
  : option (str * bool) :=
  mask ← test_mask re groups; Some (Mask.maskValue mask input).
Definition test_Do (re : str) (groups : list nat) (event : gmap str Json)
  : option (gmap str Json) :=
  mask ← test_mask re groups; Some (Mask.Do [mask] event).

End Examples.

(** ** What the further properties are stated with *)

Module Shapes.
Import GoStrings SimpleJson.

(** A list of components without its last one, when that one is empty. *)
Definition drop_last_empty (l : list str) : list str :=
  match last l with
  | Some [] => take (length l - 1) l
  | _ => l
  end.

(** The fields that [tryGetSecret] answers with [ok]: the strings that start
    with the escaped prefix, or that start with [vault(] and end with [)]. *)
Definition is_reference (field : Json) : bool :=
  match String field with
  | Some s => HasPrefix s "\vault(" || (HasPrefix s "vault(" && HasSuffix s ")")
  | None => false
  end.

(** No element of an array and no value of a map of the tree, at any depth,
    is such a field. *)
Fixpoint reference_free (j : Json) : bool :=
  match j with
  | JArr l => forallb id ((λ f, negb (is_reference f) && reference_free f) <$> l)
  | JMap m =>
      map_fold (λ _ (b acc : bool), b && acc) true
        ((λ f, negb (is_reference f) && reference_free f) <$> m)
  | _ => true
  end.

(** The number of nodes of a tree. *)
Fixpoint jsize (j : Json) : nat :=
  match j with
  | JArr l => S (foldr Nat.add 0%nat (jsize <$> l))
  | JMap m => S (map_fold (λ _ (n acc : nat), (n + acc)%nat) 0%nat (jsize <$> m))
  | _ => 1%nat
  end.

(** Neither the first nor the last byte of [p] is white space. *)
Definition trimmed (p : str) : Prop :=
  (∀ c, head p = Some c → Ascii.is_space c = false)
  ∧ (∀ c, last p = Some c → Ascii.is_space c = false).

(** A struct tag with the four keys that [ParseField] reads. *)
Definition struct_tag (required default options parse : string) : Cfg.StructTag :=
  {| Cfg.tag_required := required; Cfg.tag_default := default;
     Cfg.tag_options := options; Cfg.tag_parse := parse |}.


(** The top-level key that an entry of the environment writes to. *)
Definition top_key (env : str) : option str :=
  match SplitN2 env "=" with
  | [k; _] =>
      if HasPrefix k "FILED_" then head (drop 1 (Split (ToLower k) "_")) else None
  | _ => None
  end.

(** The path that an entry of the environment writes to, and its value. *)
Definition env_path (env : str) : option (list str) :=
  match SplitN2 env "=" with
  | [k; _] => if HasPrefix k "FILED_" then Some (drop 1 (Split (ToLower k) "_")) else None
  | _ => None
  end.

Definition env_value (env : str) : str :=
  match SplitN2 env "=" with
  | [_; v] => v
  | _ => []
  end.

(** The value that a loaded configuration holds at a path: what a pipeline
    holds under its name, the address and the token of the vault. *)
Definition config_value (config : Cfg.Config) (path : list str) : Json :=
  match path with
  | p :: name :: rest =>
      if decide (p = lit "pipelines") then
        match Cfg.Pipelines config !! name with
        | Some pipeline => GetPath (Cfg.Raw pipeline) rest
        | None => JNull
        end
      else if decide (p = lit "vault") then
        match rest with
        | [] =>
            if decide (name = lit "address") then JStr (Cfg.Address (Cfg.Vault config))
            else if decide (name = lit "token") then JStr (Cfg.Token (Cfg.Vault config))
            else JNull
        | _ :: _ => JNull
        end
      else JNull
  | _ => JNull
  end.

(** The paths at which a loaded configuration holds a value. *)
Definition held (path : list str) : Prop :=
  (∃ name rest, path = lit "pipelines" :: name :: rest)
  ∨ path = lits ["vault"; "address"]
  ∨ path = lits ["vault"; "token"].

(** One path is the beginning of the other. *)
Definition overlaps (p q : list str) : Prop := p `prefix_of` q ∨ q `prefix_of` p.

(** The override of the description, as it is worded: in the configuration
    that loading returns, the value at the path of every [FILED_] variable
    of the environment is the value of the variable. *)
Definition env_overrides `{Cfg.secreter V} (newVault : str → str → option V)
    (environ : list str) (json : Json) : Prop :=
  ∀ config,
    Cfg.NewConfigFromFile newVault environ json = Ok config →
    ∀ env path,
      env ∈ environ → env_path env = Some path →
      config_value config path = JStr (env_value env).

(** An environment with a variable for the output of the pipeline [main],
    and the configuration that is loaded with it from [one_pipeline]. *)
Definition output_environ : list str :=
  lits ["HOME=/root"; "FILED_PIPELINES_MAIN_OUTPUT_TYPE=stdout"; "FILED_VAULT_TOKEN=t"].
Definition output_config : Cfg.Config :=
  {| Cfg.Vault := {| Cfg.Token := "t"; Cfg.Address := ""; Cfg.ShouldUse := false |};
     Cfg.Pipelines :=
       {[ lit "main" :=
            {| Cfg.Raw := JMap {[ lit "output" := JMap {[ lit "type" := JStr "stdout" ]} ]} |} ]} |}.




(** [strings.ReplaceAll(s, " ", "")]. *)
Definition no_spaces (s : str) : str := ReplaceAll s " " "".

Section rows.
Variable time_Format_RFC3339 : Z → str.
Variable runeCount : str → nat.

(** What one column makes of an event: the error of a missing field, or
    what [addFieldToValues] makes of the field. *)
Definition column_value (event : Clickhouse.Event) (field : Clickhouse.column)
  : Clickhouse.error + Clickhouse.any :=
  match Clickhouse.DigStrict event (Clickhouse.Name field) with
  | None => inl Clickhouse.ErrEventDoesntHaveField
  | Some fieldNode =>
      Clickhouse.addFieldToValues time_Format_RFC3339 runeCount field fieldNode
  end.

(** The row of an event, when [processEvent] accepts it. *)
Definition row_of (config : Clickhouse.Config) (event : Clickhouse.Event)
  : option (list Clickhouse.any) :=
  match Clickhouse.processEvent time_Format_RFC3339 runeCount event
          (Clickhouse.Columns config) with
  | inr fieldValues => Some fieldValues
  | inl _ => None
  end.

(** The rows of the events of a batch that are accepted, in order, and what
    the rejected ones leave in the trace when the plugin is not strict. *)
Definition rows_of (config : Clickhouse.Config) (events : list Clickhouse.Event)
  : list (list Clickhouse.any) :=
  omap (row_of config) events.

Definition discards (config : Clickhouse.Config) (events : list Clickhouse.Event)
  : list Clickhouse.effect :=
  mjoin ((λ event, match row_of config event with
                   | Some _ => []
                   | None => [Clickhouse.DiscardedInc; Clickhouse.LogError]
                   end) <$> events).

End rows.

(** A pipeline without references to the vault: the string of its note
    lacks the closing parenthesis. *)
Definition plain_pipeline : Json :=
  JMap {[ lit "output" := JMap {[ lit "type" := JStr "stdout" ]};
          lit "actions" := JArr [JMap {[ lit "note" := JStr "vault(open" ]}] ]}.

(** An environment that sets the address and the token of the vault, and
    the configuration that is read with it from a file with the one
    pipeline [main]. *)
Definition vault_environ : list str :=
  lits ["FILED_VAULT_ADDRESS=http://vault"; "FILED_VAULT_TOKEN=t";
        "FILED_PIPELINES_MAIN_OUTPUT_TYPE=stdout"].
Definition vault_config : Cfg.Config :=
  {| Cfg.Vault := {| Cfg.Token := "t"; Cfg.Address := "http://vault";
                     Cfg.ShouldUse := true |};
     Cfg.Pipelines :=
       {[ lit "main" :=
            {| Cfg.Raw := JMap {[ lit "output" := JMap {[ lit "type" := JStr "stdout" ]} ]} |} ]} |}.

(** Fields as [UnescapeMap] gets them. *)
Definition escaped_fields : gmap str Json :=
  {[ lit "_type" := JStr "file"; lit "__path" := JStr "/var/log"; lit "" := JNull ]}.
Definition unescaped_fields : gmap str str :=
  {[ lit "type" := lit "file"; lit "_path" := lit "/var/log" ]}.

(** What [n] successful restarts leave in the trace. *)
Definition restarted (n : nat) : list Main.effect :=
  mjoin (replicate n [Main.LogInfo "SIGHUP received"; Main.Stop 3000000000;
                      Main.Cancel; Main.Start]).

(** A signal after which the daemon runs again, and one after which the
    process ends with code 0. *)
Definition restarts (a : Main.arrival) : bool :=
  match Main.sig a with
  | Main.SIGHUP => negb (Main.stop_fails a) && negb (Main.start_fails a)
  | _ => false
  end.

Definition stops (a : Main.arrival) : bool :=
  match Main.sig a with
  | Main.SIGHUP => false
  | _ => negb (Main.stop_fails a)
  end.

End Shapes.

(** * Properties *)

(** A closed decidable statement, settled by evaluating its decision. *)
Ltac by_compute :=
  lazymatch goal with
  | |- ?P => apply (bool_decide_unpack P); vm_compute; exact I
  end.

(** ** Go strings *)

Module GoStringsFacts.
Import GoStrings.

Lemma IndexByte_None s c : IndexByte s c = None ↔ c ∉ s.
Proof.
  induction s as [|x s IH]; simpl.
  - split; [intros _; apply not_elem_of_nil | done].
  - case_decide as Hx.
    + subst. split; [done | intros H; exfalso; apply H; left].
    + rewrite fmap_None, IH, not_elem_of_cons. split; [by intros ?; split | by intros [_ ?]].
Qed.

Lemma IndexByte_Some s c i :
  IndexByte s c = Some i ↔ s !! i = Some c ∧ c ∉ take i s.
Proof.
  revert i. induction s as [|x s IH]; intros i; simpl.
  - split; [done | intros [? _]; by destruct i].
  - case_decide as Hx.
    + subst. split.
      * intros [= <-]. split; [done | apply not_elem_of_nil].
      * intros [H1 H2]. destruct i as [|i]; [done|].
        exfalso. apply H2. simpl. left.
    + rewrite fmap_Some. split.
      * intros (j & Hj & ->). apply IH in Hj as [H1 H2].
        split; [done|]. simpl. rewrite not_elem_of_cons. done.
      * intros [H1 H2]. destruct i as [|i]; simplify_eq/=.
        exists i. split; [|done]. apply IH. split; [done|].
        rewrite not_elem_of_cons in H2. tauto.
Qed.

Lemma IndexByte_app s c t : c ∉ s → IndexByte (s ++ c :: t) c = Some (length s).
Proof.
  intros Hs. apply IndexByte_Some. split.
  - by rewrite list_lookup_middle.
  - by rewrite take_app_length.
Qed.

Lemma IndexAny_None s chars : IndexAny s chars = None ↔ ∀ c, c ∈ s → c ∉ chars.
Proof.
  induction s as [|x s IH]; simpl.
  - split; [intros _ c Hc; by apply elem_of_nil in Hc | done].
  - case_decide as Hx.
    + split; [done|]. intros H. exfalso. apply (H x); [left | done].
    + rewrite fmap_None, IH. split.
      * intros H c [->|Hc]%elem_of_cons; auto.
      * intros H c Hc. apply H. by right.
Qed.

Lemma IndexAny_app a op b chars :
  (∀ c, c ∈ a → c ∉ chars) → op ∈ chars →
  IndexAny (a ++ op :: b) chars = Some (length a).
Proof.
  intros Ha Hop. induction a as [|x a IH]; simpl.
  - by rewrite decide_True.
  - rewrite decide_False by (apply Ha; left).
    rewrite IH; [done|]. intros c Hc. apply Ha. by right.
Qed.

Lemma IndexAny_Some s chars i :
  IndexAny s chars = Some i →
  ∃ a op b, s = a ++ op :: b ∧ length a = i ∧ (∀ c, c ∈ a → c ∉ chars) ∧ op ∈ chars.
Proof.
  revert i. induction s as [|x s IH]; intros i; simpl; [done|].
  case_decide as Hx.
  - intros [= <-]. exists [], x, s. split_and!; [done..| |done].
    intros c Hc. by apply elem_of_nil in Hc.
  - intros (j & (a & op & b & -> & <- & Ha & Hop)%IH & ->)%fmap_Some.
    exists (x :: a), op, b. split_and!; [done..| |done].
    intros c [->|Hc]%elem_of_cons; auto.
Qed.

Lemma slice_0_app (a b : str) : slice (a ++ b) 0 (length a) = a.
Proof. unfold slice. rewrite drop_0, Nat.sub_0_r. apply take_app_length. Qed.

Lemma drop_S_app (a : str) x b : drop (length a + 1) (a ++ x :: b) = b.
Proof.
  rewrite Nat.add_1_r. change (x :: b) with ([x] ++ b).
  rewrite app_assoc, drop_app_length'; [done|]. rewrite length_app. simpl. lia.
Qed.

Lemma Split_not_elem s sep : sep ∉ s → Split s sep = [s].
Proof.
  induction s as [|x s IH]; [done|]. intros [Hx Hs]%not_elem_of_cons. simpl.
  rewrite decide_False by done. by rewrite IH.
Qed.

Lemma Split_app s sep t : sep ∉ s → Split (s ++ sep :: t) sep = s :: Split t sep.
Proof.
  induction s as [|x s IH]; simpl.
  - intros _. by rewrite decide_True.
  - intros [Hx Hs]%not_elem_of_cons. rewrite decide_False by done. by rewrite IH.
Qed.

Lemma HasPrefix_app p s : HasPrefix (p ++ s) p = true.
Proof. induction p as [|c p IH]; simpl; [done|]. by rewrite decide_True by done. Qed.

Lemma HasPrefix_true s p : HasPrefix s p = true → s = p ++ drop (length p) s.
Proof.
  revert s. induction p as [|c p IH]; intros [|x s]; simpl; try done.
  case_decide; [|done]. subst. intros ?%IH. by f_equal.
Qed.

Lemma SplitN2_app k v : "="%char ∉ k → SplitN2 (k ++ "="%char :: v) "=" = [k; v].
Proof.
  intros Hk. unfold SplitN2. rewrite IndexByte_app by done.
  rewrite take_app_length. f_equal. f_equal.
  change ("="%char :: v) with (["="%char] ++ v).
  rewrite app_assoc, drop_app_length'; [done|]. rewrite length_app. simpl. lia.
Qed.

Lemma SplitN2_None s : "="%char ∉ s → SplitN2 s "=" = [s].
Proof. intros Hs. unfold SplitN2. by apply IndexByte_None in Hs as ->. Qed.

Lemma HasSuffix_app s p : HasSuffix (s ++ p) p = true.
Proof. unfold HasSuffix. rewrite reverse_app. apply HasPrefix_app. Qed.

Lemma TrimPrefix_app p s : TrimPrefix (p ++ s) p = s.
Proof. unfold TrimPrefix. by rewrite HasPrefix_app, drop_app_length. Qed.

Lemma TrimSuffix_app s p : TrimSuffix (s ++ p) p = s.
Proof.
  unfold TrimSuffix. rewrite HasSuffix_app, length_app.
  replace (length s + length p - length p)%nat with (length s) by lia.
  apply take_app_length.
Qed.

Lemma ReplaceAll_go_not_elem c old new skip s :
  c ∉ s → c ∉ new → c ∉ ReplaceAll_go old new skip s.
Proof.
  intros Hs Hnew. revert skip. induction s as [|x s IH]; intros skip; [done|].
  apply not_elem_of_cons in Hs as [Hx Hs]. simpl.
  destruct skip as [|k]; [|by apply IH].
  destruct (HasPrefix (x :: s) old).
  - apply not_elem_of_app. split; [done | by apply IH].
  - apply not_elem_of_cons. split; [done | by apply IH].
Qed.

Lemma ToLower_app s t : ToLower (s ++ t) = ToLower s ++ ToLower t.
Proof. apply fmap_app. Qed.

End GoStringsFacts.

(** ** Go integers *)

Module GoIntFacts.
Import GoInt.

Lemma wrap_range z : min_int ≤ wrap z ≤ max_int.
Proof.
  unfold wrap, min_int, max_int.
  pose proof (Z.mod_pos_bound (z + 2 ^ 63) (2 ^ 64) eq_refl). lia.
Qed.

Lemma wrap_id z : min_int ≤ z ≤ max_int → wrap z = z.
Proof.
  unfold wrap, min_int, max_int. intros Hz.
  rewrite Z.mod_small by lia. lia.
Qed.

Lemma ParseInt_range s base i :
  ParseInt s base 64 = Some i → min_int ≤ i ≤ max_int.
Proof.
  unfold ParseInt, min_int, max_int.
  destruct (match s with
            | [] => (false, [])
            | c :: s' =>
                if decide (c = "+"%char) then (false, s')
                else if decide (c = "-"%char) then (true, s') else (false, s)
            end) as [neg body].
  destruct body as [|c body]; [done|].
  assert (∀ t acc un, 0 ≤ acc → digits base acc t = Some un → 0 ≤ un) as Hpos.
  { induction t as [|d t IH]; intros acc un Hacc; simpl; [by intros [= <-]|].
    unfold digit. case_bool_decide as Hd; [|done]. simpl.
    case_bool_decide as Hb; [|done]. apply IH. nia. }
  destruct (digits base 0 (c :: body)) as [un|] eqn:Hun; [|done]. simpl.
  apply Hpos in Hun; [|done].
  change (2 ^ (64 - 1)) with (2 ^ 63).
  destruct neg; case_bool_decide; intros [= <-]; lia.
Qed.

Lemma Atoi_range s i : Atoi s = Some i → min_int ≤ i ≤ max_int.
Proof. apply ParseInt_range. Qed.

Lemma Atoi_examples :
  Atoi "42" = Some 42 ∧ Atoi "-5" = Some (-5) ∧ Atoi "+7" = Some 7
  ∧ Atoi "" = None ∧ Atoi "-" = None ∧ Atoi "4 " = None ∧ Atoi "1_000" = None
  ∧ Atoi "9223372036854775807" = Some max_int
  ∧ Atoi "9223372036854775808" = None
  ∧ Atoi "-9223372036854775808" = Some min_int.
Proof. repeat split; reflexivity. Qed.

End GoIntFacts.

(** ** Field selectors *)

Module SelectorFacts.
Import GoStrings GoStringsFacts Cfg Described.

(** One turn of the loop. *)
Lemma ParseFieldSelector_loop_unfold result tail_ selector :
  ParseFieldSelector_loop result tail_ selector =
  match IndexByte selector "." with
  | None => (result, tail_, selector)
  | Some pos =>
      if bool_decide (0 < pos)%nat
         && bool_decide (selector !! (pos - 1)%nat = Some "\"%char)
      then ParseFieldSelector_loop result
             (tail_ ++ slice selector 0 (pos - 1) ++ ".")
             (drop (pos + 1) selector)
      else if bool_decide (pos + 1 < length selector)%nat
              && bool_decide (selector !! (pos + 1)%nat = Some "."%char)
      then ParseFieldSelector_loop result
             (slice selector 0 (pos + 1))
             (drop (pos + 2) selector)
      else ParseFieldSelector_loop (result ++ [tail_ ++ slice selector 0 pos]) []
             (drop (pos + 1) selector)
  end.
Proof.
  rewrite ParseFieldSelector_loop_equation_1.
  generalize (Logic.inspect (IndexByte selector ".")).
  intros [[pos|] H]; simpl; rewrite H; reflexivity.
Qed.

(** The three selectors of the description. *)
Lemma ParseFieldSelector_escaped_dot : ParseFieldSelector "a\.b" = lits ["a.b"].
Proof. reflexivity. Qed.

Lemma ParseFieldSelector_doubled_dot : ParseFieldSelector "a..b" = lits ["a.b"].
Proof. reflexivity. Qed.

Lemma ParseFieldSelector_plain_dot : ParseFieldSelector "a.b" = lits ["a"; "b"].
Proof. reflexivity. Qed.

(** Reading bytes that hold no dot. *)
Lemma components_scan a rest cur :
  "."%char ∉ a →
  (last a = Some "\"%char → head rest ≠ Some "."%char) →
  components cur (a ++ rest) = components (cur ++ a) rest.
Proof.
  revert cur. induction a as [|c a IH]; intros cur Hdot Hlast.
  - by rewrite app_nil_r.
  - apply not_elem_of_cons in Hdot as [Hc Ha].
    assert (components cur ((c :: a) ++ rest) = components (cur ++ [c]) (a ++ rest)) as ->.
    { simpl. case_decide as Hb; [|by rewrite decide_False by done].
      destruct a as [|d a]; simpl.
      - destruct rest as [|d rest]; [done|]. case_decide; [|done].
        subst. by destruct Hlast.
      - rewrite decide_False; [done|]. intros ->. apply Ha. left. }
    rewrite IH, <- app_assoc; [done..|].
    intros Hl. apply Hlast. destruct a; [done|]. by rewrite last_cons, Hl.
Qed.

Lemma components_dot cur d b :
  d ≠ "."%char →
  components cur ("."%char :: d :: b) = cur :: components [] (d :: b).
Proof.
  intros Hd. change (components cur ("."%char :: d :: b))
    with (if decide (d = "."%char) then components (cur ++ ".") b
          else cur :: components [] (d :: b)).
  by rewrite decide_False.
Qed.

Lemma components_no_dot cur s :
  "."%char ∉ s →
  components cur s = if bool_decide (length s + length cur ≠ 0)%nat then [cur ++ s] else [].
Proof.
  intros Hs. rewrite <- (app_nil_r s) at 1.
  rewrite components_scan by (done || by intros _).
  simpl. case_decide as H.
  - apply app_eq_nil in H as [-> ->]. done.
  - rewrite bool_decide_true; [done|].
    intros Hl. apply H. destruct cur, s; simpl in *; done || lia.
Qed.

Lemma no_doubled_dot_drop s n : no_doubled_dot s → no_doubled_dot (drop n s).
Proof. intros H i. rewrite !lookup_drop, Nat.add_succ_r. apply H. Qed.

Lemma last_take (s : str) pos :
  (0 < pos)%nat → (pos ≤ length s)%nat → last (take pos s) = s !! (pos - 1)%nat.
Proof.
  intros H1 H2. rewrite last_lookup, length_take, Nat.min_l by done.
  rewrite lookup_take_lt by lia. f_equal. lia.
Qed.

(** Without doubled dots the loop reads the selector as described. *)
Lemma ParseFieldSelector_loop_components n :
  ∀ selector result tail_,
    (length selector ≤ n)%nat →
    no_doubled_dot selector →
    ParseFieldSelector_finish (ParseFieldSelector_loop result tail_ selector)
    = result ++ components tail_ selector.
Proof.
  induction n as [n IH] using lt_wf_ind. intros selector result tail_ Hn Hdd.
  rewrite ParseFieldSelector_loop_unfold.
  destruct (IndexByte selector ".") as [pos|] eqn:Hpos.
  2:{ apply IndexByte_None in Hpos. rewrite components_no_dot by done.
      simpl. by case_bool_decide; rewrite ?app_nil_r. }
  apply IndexByte_Some in Hpos as [Hat Hbefore].
  pose proof (lookup_lt_Some _ _ _ Hat) as Hlt.
  assert (selector = take pos selector ++ "."%char :: drop (pos + 1) selector) as Hsplit.
  { rewrite Nat.add_1_r. by rewrite <- (take_drop_middle _ _ _ Hat) at 1. }
  assert (length (drop (pos + 1) selector) < n)%nat as Hshort.
  { rewrite length_drop. lia. }
  assert (slice selector 0 pos = take pos selector) as Hslice.
  { unfold slice. by rewrite drop_0, Nat.sub_0_r. }
  destruct (bool_decide (0 < pos)%nat
            && bool_decide (selector !! (pos - 1)%nat = Some "\"%char)) eqn:Hesc.
  - (* an escaped dot *)
    apply andb_true_iff in Hesc as [Hpos0%bool_decide_eq_true Hbs%bool_decide_eq_true].
    rewrite (IH _ Hshort) by (done || by apply no_doubled_dot_drop).
    f_equal.
    assert (take pos selector = take (pos - 1) selector ++ ["\"%char]) as Ha.
    { replace pos with (S (pos - 1)) at 1 by lia. by apply take_S_r. }
    assert ("."%char ∉ take (pos - 1) selector) as Hnd.
    { rewrite Ha, not_elem_of_app in Hbefore. tauto. }
    assert (components tail_ selector
            = components tail_ (take pos selector ++ "."%char :: drop (pos + 1) selector))
      as -> by (by rewrite <- Hsplit).
    rewrite Ha, <- app_assoc, components_scan by (done || by intros _ [=]).
    unfold slice. rewrite drop_0, Nat.sub_0_r. simpl.
    by rewrite <- app_assoc.
  - destruct (bool_decide (pos + 1 < length selector)%nat
              && bool_decide (selector !! (pos + 1)%nat = Some "."%char)) eqn:Hdbl.
    + (* a doubled dot: excluded *)
      apply andb_true_iff in Hdbl as [_ Hnext%bool_decide_eq_true].
      exfalso. apply (Hdd pos). by rewrite <- Nat.add_1_r.
    + (* the end of a component *)
      rewrite (IH _ Hshort) by (done || by apply no_doubled_dot_drop).
      rewrite <- app_assoc. f_equal. rewrite Hslice.
      assert (components tail_ selector
              = components tail_ (take pos selector ++ "."%char :: drop (pos + 1) selector))
        as -> by (by rewrite <- Hsplit).
      rewrite components_scan; [|done|].
      * destruct (drop (pos + 1) selector) as [|d b] eqn:Hb; [done|].
        rewrite components_dot; [done|]. intros ->.
        assert (selector !! (pos + 1)%nat = Some "."%char) as Hnext.
        { by rewrite <- (Nat.add_0_r (pos + 1)), <- lookup_drop, Hb. }
        apply andb_false_iff in Hdbl as [Hd|Hd]; apply bool_decide_eq_false in Hd.
        -- apply Hd. by apply lookup_lt_Some in Hnext.
        -- done.
      * intros Hl _. apply andb_false_iff in Hesc as [Hd|Hd];
          apply bool_decide_eq_false in Hd.
        -- assert (pos = 0)%nat as -> by lia. done.
        -- destruct (decide (pos = 0)%nat) as [->|]; [done|].
           apply Hd. rewrite <- last_take by lia. done.
Qed.

(** A selector without doubled dots is read as described. *)
Lemma ParseFieldSelector_components selector :
  no_doubled_dot selector →
  ParseFieldSelector selector = selector_components selector.
Proof.
  intros Hdd. unfold ParseFieldSelector.
  by rewrite (ParseFieldSelector_loop_components (length selector)).
Qed.

(** The turn of the loop at a doubled dot: what was read of the component
    is overwritten. *)
Lemma ParseFieldSelector_loop_doubled_dot result tail_ a rest :
  "."%char ∉ a →
  last a ≠ Some "\"%char →
  ParseFieldSelector_loop result tail_ (a ++ "."%char :: "."%char :: rest)
  = ParseFieldSelector_loop result (a ++ ".") rest.
Proof.
  intros Ha Hlast. rewrite ParseFieldSelector_loop_unfold, IndexByte_app by done.
  assert (bool_decide (0 < length a)%nat
          && bool_decide ((a ++ "."%char :: "."%char :: rest) !! (length a - 1)%nat
                          = Some "\"%char) = false) as ->.
  { apply andb_false_iff. destruct (decide (length a = 0)%nat) as [Hz|Hz].
    - left. apply bool_decide_eq_false. lia.
    - right. apply bool_decide_eq_false. intros Hl. apply Hlast.
      rewrite last_lookup, <- Hl, lookup_app_l by lia. f_equal. lia. }
  assert (bool_decide (length a + 1 < length (a ++ "."%char :: "."%char :: rest))%nat
          && bool_decide ((a ++ "."%char :: "."%char :: rest) !! (length a + 1)%nat
                          = Some "."%char) = true) as ->.
  { apply andb_true_iff. split; apply bool_decide_eq_true.
    - rewrite length_app. simpl. lia.
    - rewrite lookup_app_r by lia. by replace (length a + 1 - length a)%nat with 1%nat by lia. }
  f_equal.
  - unfold slice. rewrite drop_0, Nat.sub_0_r.
    change ("."%char :: "."%char :: rest) with (["."%char] ++ "."%char :: rest).
    rewrite app_assoc. rewrite take_app_length'; [done|].
    rewrite length_app. simpl. lia.
  - change ("."%char :: "."%char :: rest) with (["."%char; "."%char] ++ rest).
    rewrite app_assoc. rewrite drop_app_length'; [done|].
    rewrite length_app. simpl. lia.
Qed.

(** Two doubled dots in one component: the code keeps what follows the first
    one, the description keeps everything. *)
Lemma ParseFieldSelector_two_doubled_dots a b c :
  "."%char ∉ a → "."%char ∉ b → "."%char ∉ c →
  last a ≠ Some "\"%char → last b ≠ Some "\"%char →
  ParseFieldSelector (a ++ ".." ++ b ++ ".." ++ c) = [b ++ "." ++ c]
  ∧ selector_components (a ++ ".." ++ b ++ ".." ++ c) = [a ++ "." ++ b ++ "." ++ c].
Proof.
  intros Ha Hb Hc Hla Hlb. split.
  - unfold ParseFieldSelector.
    change (a ++ lit ".." ++ b ++ lit ".." ++ c)
      with (a ++ "."%char :: "."%char :: (b ++ "."%char :: "."%char :: c)).
    rewrite !ParseFieldSelector_loop_doubled_dot by done.
    rewrite ParseFieldSelector_loop_unfold.
    apply IndexByte_None in Hc. rewrite Hc. simpl.
    rewrite bool_decide_true; [by rewrite <- app_assoc|].
    rewrite length_app. simpl. lia.
  - unfold selector_components.
    change (a ++ lit ".." ++ b ++ lit ".." ++ c)
      with (a ++ "."%char :: "."%char :: (b ++ "."%char :: "."%char :: c)).
    rewrite components_scan by done. cbn [components app].
    rewrite decide_False, !decide_True by done.
    rewrite components_scan by done. cbn [components].
    rewrite decide_False, !decide_True by done.
    rewrite components_no_dot by done.
    rewrite bool_decide_true.
    + f_equal. by rewrite <- !app_assoc.
    + rewrite !length_app. simpl. lia.
Qed.

(** C1 (the code departs from the description): a second doubled dot in
    one component overwrites what was read of the component so far instead
    of adding to it, so [a..b..c] yields the single component [b.c] where
    the description gives [a.b.c]; the branch of the escaped dot does
    keep what was read ([tail + ...]). *)
Theorem ParseFieldSelector_doubled_dot_overwrites :
  ParseFieldSelector "a..b..c" = lits ["b.c"]
  ∧ selector_components "a..b..c" = lits ["a.b.c"]
  ∧ ParseFieldSelector "a\.b..c" = lits ["b.c"]
  ∧ selector_components "a\.b..c" = lits ["a.b.c"].
Proof. repeat split; reflexivity. Qed.

End SelectorFacts.

(** ** Expressions *)

Module ExpressionFacts.
Import GoStrings GoInt GoStringsFacts Cfg Described Examples.

Lemma operand_operand_value values s :
  operand values s =
  match operand_value values s with
  | Some i => Ok i
  | None => Err (ErrCantFindValue s)
  end.
Proof. unfold operand, operand_value. by destruct (Atoi s), (values !! s). Qed.

Lemma elem_of_operators op :
  op ∈ operators ↔ op = "*"%char ∨ op = "/"%char ∨ op = "+"%char ∨ op = "-"%char.
Proof.
  unfold operators, lit. simpl. rewrite !elem_of_cons, elem_of_nil. tauto.
Qed.

Lemma operator_free_IndexAny s : IndexAny s operators = None ↔ operator_free s.
Proof. unfold operator_free. by rewrite IndexAny_None, Forall_forall. Qed.

(** A string without operator byte is read as a literal. *)
Lemma ParseField_expression_literal values s :
  operator_free s →
  ParseField_expression values s =
  match Atoi s with
  | Some i => Ok i
  | None => Err (ErrCantConvert s)
  end.
Proof.
  intros Hs%operator_free_IndexAny. unfold ParseField_expression.
  unfold operators in Hs. by rewrite Hs.
Qed.

(** A string is cut at its first operator byte. *)
Lemma ParseField_expression_binop values a op b :
  operator_free a →
  op ∈ operators →
  ParseField_expression values (a ++ op :: b) =
  match operand_value values (TrimSpace a), operand_value values (TrimSpace b) with
  | Some x, Some y =>
      if decide (op = "/"%char ∧ y = 0) then Panic else Ok (wrap (binop op x y))
  | Some _, None => Err (ErrCantFindValue (TrimSpace b))
  | None, _ => Err (ErrCantFindValue (TrimSpace a))
  end.
Proof.
  intros Ha Hop. unfold ParseField_expression.
  rewrite <- operator_free_IndexAny, IndexAny_None in Ha.
  pose proof (IndexAny_app _ _ b _ Ha Hop) as Hpos.
  unfold operators in Hpos. rewrite Hpos.
  rewrite slice_0_app, list_lookup_middle, drop_S_app by done.
  rewrite !operand_operand_value.
  destruct (operand_value values (TrimSpace a)) as [x|]; [|done].
  destruct (operand_value values (TrimSpace b)) as [y|]; [|done].
  unfold binop. simpl.
  apply elem_of_operators in Hop as [-> | [-> | [-> | ->]]]; simpl; try done.
  destruct (decide (y = 0)) as [->|Hy].
  - by rewrite decide_True.
  - rewrite decide_False; [done|]. by intros [_ ?].
Qed.

Lemma ParseField_expression_evaluates values s i :
  ParseField_expression values s = Ok i ↔ evaluates values s i.
Proof.
  split.
  - destruct (IndexAny s operators) as [pos|] eqn:Hpos.
    + apply IndexAny_Some in Hpos as (a & op & b & -> & _ & Ha & Hop).
      rewrite <- IndexAny_None, operator_free_IndexAny in Ha.
      rewrite ParseField_expression_binop by done.
      destruct (operand_value values (TrimSpace a)) as [x|] eqn:Hx; [|done].
      destruct (operand_value values (TrimSpace b)) as [y|] eqn:Hy; [|done].
      case_decide as Hz; [done|]. intros [= <-].
      by apply evaluates_binop.
    + rewrite operator_free_IndexAny in Hpos.
      rewrite ParseField_expression_literal by done.
      destruct (Atoi s) as [j|] eqn:Hj; [|done]. intros [= <-].
      by apply evaluates_literal.
  - intros [s' j Hs Hj | a op b x y Ha Hop Hx Hy Hz].
    + rewrite ParseField_expression_literal by done. by rewrite Hj.
    + rewrite ParseField_expression_binop by done.
      rewrite Hx, Hy. by rewrite decide_False.
Qed.

Lemma ParseField_expression_rejects values s :
  (∀ i, ¬ evaluates values s i) →
  ¬ divides_by_zero values s →
  ∃ e, ParseField_expression values s = Err e.
Proof.
  intros Hno Hdiv.
  destruct (IndexAny s operators) as [pos|] eqn:Hpos.
  - apply IndexAny_Some in Hpos as (a & op & b & -> & _ & Ha & Hop).
    rewrite <- IndexAny_None, operator_free_IndexAny in Ha.
    rewrite ParseField_expression_binop by done.
    destruct (operand_value values (TrimSpace a)) as [x|] eqn:Hx; [|by eexists].
    destruct (operand_value values (TrimSpace b)) as [y|] eqn:Hy; [|by eexists].
    exfalso. destruct (decide (op = "/"%char ∧ y = 0)) as [[-> ->]|Hz].
    + apply Hdiv. by exists a, b, x.
    + eapply Hno. by apply evaluates_binop.
  - rewrite operator_free_IndexAny in Hpos.
    rewrite ParseField_expression_literal by done.
    destruct (Atoi s) as [j|] eqn:Hj; [|by eexists].
    exfalso. eapply Hno. by apply evaluates_literal.
Qed.

Section Field.
Context {Regexp : Type}.
Variable regexp_Compile : str → option Regexp.
Variable time_ParseDuration : str → option Z.

Lemma apply_default_string tags s :
  apply_default (tag_default tags) (VString s) = Ok (VString (field_text tags s)).
Proof.
  unfold apply_default, field_text.
  destruct (decide (tag_default tags = [])) as [Hd|Hd];
    destruct (decide (s = [])) as [->|Hs]; try done.
  by rewrite Hd.
Qed.

Lemma ParseField_expression_nonempty values s i :
  ParseField_expression values s = Ok i → s ≠ [].
Proof. by intros H ->. Qed.

(** A field tagged [parse:"expression"]: its text is evaluated and the
    value goes to the companion field. *)
Lemma ParseField_expression_field tags s values :
  tag_parse tags = "expression" →
  tag_options tags = [] →
  ParseField regexp_Compile time_ParseDuration tags (VString s) values =
  match ParseField_expression values (field_text tags s) with
  | Ok i => Ok (VString (field_text tags s), Some (FInt i))
  | Err e => Err e
  | Panic => Panic
  | Fatal => Fatal
  end.
Proof.
  intros Hp Ho. unfold ParseField.
  rewrite apply_default_string, Ho, Hp. simpl.
  destruct (ParseField_expression values (field_text tags s)) as [i| | |] eqn:Hi;
    simpl; try done.
  case_decide; [done|].
  unfold check_required. simpl.
  rewrite (bool_decide_eq_false_2 (field_text tags s = []))
    by (by eapply ParseField_expression_nonempty).
  by rewrite andb_false_r.
Qed.
(** C2 (amended): for a field tagged [parse:"expression"] the text is cut
    at its first operator byte.  Without any operator byte it must be an
    integer literal, whose value is stored in the companion field; with
    one, the text before it and the text after it, white space aside,
    must each be an integer literal or a name of the environment, and
    the result of the operation (wrapped to 64 bits) is stored; every
    other text is rejected with an error.  A signed literal in first
    position is therefore not read as a literal.  Nothing is said of a
    division by zero. *)
Theorem ParseField_expression_forms tags s values :
  tag_parse tags = "expression" →
  tag_options tags = [] →
  (∀ i, ParseField regexp_Compile time_ParseDuration tags (VString s) values
        = Ok (VString (field_text tags s), Some (FInt i))
        ↔ evaluates values (field_text tags s) i)
  ∧ ((∀ i, ¬ evaluates values (field_text tags s) i) →
     ¬ divides_by_zero values (field_text tags s) →
     ∃ e, ParseField regexp_Compile time_ParseDuration tags (VString s) values
          = Err e).
Proof.
  intros Hp Ho. rewrite (ParseField_expression_field _ _ _ Hp Ho). split.
  - intros i. rewrite <- ParseField_expression_evaluates.
    destruct (ParseField_expression values (field_text tags s)); naive_solver.
  - intros Hno Hdiv.
    destruct (ParseField_expression_rejects _ _ Hno Hdiv) as [e ->]. by exists e.
Qed.

(** C8: a division whose divisor resolves to zero makes [ParseField]
    panic: the division is not guarded. *)
Theorem ParseField_expression_division_by_zero tags s values a b x :
  tag_parse tags = "expression" →
  tag_options tags = [] →
  field_text tags s = a ++ "/"%char :: b →
  operator_free a →
  operand_value values (TrimSpace a) = Some x →
  operand_value values (TrimSpace b) = Some 0 →
  ParseField regexp_Compile time_ParseDuration tags (VString s) values = Panic.
Proof.
  intros Hp Ho Hs Ha Hx Hy. rewrite (ParseField_expression_field _ _ _ Hp Ho), Hs.
  rewrite ParseField_expression_binop, Hx, Hy; [|done|].
  - by rewrite decide_True.
  - apply elem_of_operators. tauto.
Qed.

End Field.


Lemma ParseField_expression_forms_witness :
  tag_parse (expression_tags "capacity/4") = "expression"
  ∧ tag_options (expression_tags "capacity/4") = []
  ∧ ParseField (λ _, @None ()) (λ _, None) (expression_tags "capacity/4")
      (VString "") (environment 16 4)
    = Ok (VString "capacity/4", Some (FInt 4)).
Proof.
  split; [reflexivity|]. split; [reflexivity|].
  apply (ParseField_expression_forms (λ _, @None ()) (λ _, None)
           (expression_tags "capacity/4") "" (environment 16 4)
           eq_refl eq_refl).
  apply (evaluates_binop (environment 16 4) "capacity" "/"%char "4" 16 4).
  - by_compute.
  - by_compute.
  - vm_compute. reflexivity.
  - vm_compute. reflexivity.
  - intros [_ H]. discriminate H.
Defined.

(** What is accepted and what is not, with [capacity] 16 and [gomaxprocs]
    4. *)
Lemma ParseField_expression_examples :
  ParseField_expression (environment 16 4) "capacity/4" = Ok 4
  ∧ ParseField_expression (environment 16 4) "gomaxprocs*4" = Ok 16
  ∧ ParseField_expression (environment 16 4) " capacity - 20 " = Ok (-4)
  ∧ ParseField_expression (environment 16 4) "0" = Ok 0
  ∧ ParseField_expression (environment 16 4) "4*-2" = Ok (-8)
  ∧ ParseField_expression (environment 16 4) "-7/2" = Err (ErrCantFindValue "")
  ∧ ParseField_expression (environment 16 4) "7/-2" = Ok (-3)
  ∧ ParseField_expression (environment 16 4) "-4*2" = Err (ErrCantFindValue "")
  ∧ ParseField_expression (environment 16 4) "1+2+3" = Err (ErrCantFindValue "2+3")
  ∧ ParseField_expression (environment 16 4) "workers*2" = Err (ErrCantFindValue "workers")
  ∧ ParseField_expression (environment 16 4) "capacity" = Err (ErrCantConvert "capacity")
  ∧ ParseField_expression (environment 16 4) "" = Err (ErrCantConvert "")
  ∧ ParseField_expression (environment 16 4) "9223372036854775807+1"
    = Ok GoInt.min_int.
Proof. repeat split; vm_compute; reflexivity. Qed.

(** What is stored fits Go's [int]. *)
Lemma ParseField_expression_range values s i :
  ParseField_expression values s = Ok i → min_int ≤ i ≤ max_int.
Proof.
  intros [s' j Hs Hj | a op b x y _ _ _ _ _]%ParseField_expression_evaluates.
  - by apply GoIntFacts.Atoi_range with s'.
  - apply GoIntFacts.wrap_range.
Qed.

(** C2 (as stated, refuted): [-5] is an integer literal, yet the field is
    rejected: the text is cut at the sign, and the empty text before it
    is neither a literal nor a name. *)
Lemma signed_literal_not_evaluated : ¬ literal_evaluated (environment 16 4) "-5".
Proof.
  intros H. specialize (H (-5) eq_refl). vm_compute in H. discriminate H.
Qed.

Lemma signed_literal_rejected :
  ParseField (λ _, @None ()) (λ _, None) (expression_tags "") (VString "-5")
    (environment 16 4)
  = Err (ErrCantFindValue "").
Proof. vm_compute. reflexivity. Qed.

Lemma ParseField_expression_division_by_zero_witness :
  ParseField (λ _, @None ()) (λ _, None) (expression_tags "") (VString "capacity/0")
    (environment 16 4)
  = Panic.
Proof.
  apply (ParseField_expression_division_by_zero (λ _, @None ()) (λ _, None)
           (expression_tags "") "capacity/0" (environment 16 4) "capacity" "0" 16).
  - reflexivity.
  - reflexivity.
  - reflexivity.
  - by_compute.
  - vm_compute. reflexivity.
  - vm_compute. reflexivity.
Defined.

End ExpressionFacts.

(** ** Loading the configuration *)

Module ConfigFacts.
Import GoStrings GoStringsFacts SimpleJson Cfg Examples.

(** *** Secrets *)

Lemma tryGetSecret_one_element `{secreter V} (vault : V) (x : str) :
  ","%char ∉ x →
  tryGetSecret vault (JStr ("vault(" ++ x ++ ")")) = Panic.
Proof.
  intros Hx. remember (lit "vault(" ++ x ++ lit ")") as s eqn:Hs.
  assert (HasPrefix s "\vault(" = false) as H1 by (by subst).
  assert (HasPrefix s "vault(" = true) as H2 by (subst; apply HasPrefix_app).
  assert (HasSuffix s ")" = true) as H3.
  { subst. rewrite app_assoc. apply HasSuffix_app. }
  assert (TrimSuffix (TrimPrefix s "vault(") ")" = x) as H4.
  { subst. by rewrite TrimPrefix_app, TrimSuffix_app. }
  unfold tryGetSecret. cbn [String]. rewrite H1, H2, H3, H4. cbn [negb orb].
  rewrite Split_not_elem.
  - done.
  - apply ReplaceAll_go_not_elem; [done|]. apply not_elem_of_nil.
Qed.

Lemma collect_map_singleton {E A} (k : str) (r : result E A) :
  collect_map {[ k := r ]} = (a ← r; Ok {[ k := a ]}).
Proof.
  unfold collect_map. rewrite map_fold_singleton. simpl.
  by destruct r.
Qed.

(** C9: a value [vault(x)] whose [x] holds no comma makes [tryGetSecret]
    read the second element of a one-element slice: it panics, and so does
    [applyVault] on the object that holds the value. *)
Theorem tryGetSecret_no_comma `{secreter V} (vault : V) (x : str) :
  ","%char ∉ x →
  tryGetSecret vault (JStr ("vault(" ++ x ++ ")")) = Panic
  ∧ ∀ k, applyVault vault (JMap {[ k := JStr ("vault(" ++ x ++ ")") ]}) = Panic.
Proof.
  intros Hx. split; [by apply tryGetSecret_one_element|].
  intros k. cbn [applyVault]. rewrite map_fmap_singleton, collect_map_singleton.
  by rewrite tryGetSecret_one_element.
Qed.

Lemma tryGetSecret_no_comma_witness :
  (","%char ∉ lit "secret/path")
  ∧ tryGetSecret () (JStr "vault(secret/path)") = Panic
  ∧ applyVault () (JMap {[ lit "password" := JStr "vault(secret/path)" ]}) = Panic.
Proof.
  split; [by_compute|].
  destruct (tryGetSecret_no_comma () "secret/path") as [H1 H2]; [by_compute|].
  split; [exact H1 | exact (H2 (lit "password"))].
Defined.

(** Loading a configuration that uses the vault and holds such a value
    panics. *)
Lemma NewConfigFromFile_panics :
  NewConfigFromFile (λ _ _, Some ()) []
    (JMap {[ lit "vault" := JMap {[ lit "address" := JStr "http://vault";
                                     lit "token" := JStr "t" ]};
             lit "pipelines" :=
               JMap {[ lit "main" :=
                         JMap {[ lit "output" :=
                                   JMap {[ lit "password" := JStr "vault(secret)" ]} ]} ]} ]})
  = Panic.
Proof. vm_compute. reflexivity. Qed.

(** With a comma the vault is asked; spaces are dropped first. *)
Lemma tryGetSecret_path_and_key :
  tryGetSecret () (JStr "vault(secret/path, key)") = Fatal.
Proof. reflexivity. Qed.

(** *** Environment variables *)

Lemma Get_insert m b x : Get (JMap (<[b := x]> m)) b = x.
Proof. unfold Get. simpl. by rewrite lookup_insert_eq. Qed.

Lemma GetPath_SetPath json path val : GetPath (SetPath json path val) path = val.
Proof.
  revert json. induction path as [|b path IH]; intros json; simpl; [done|].
  by rewrite Get_insert.
Qed.

Lemma HasPrefix_FILED k :
  HasPrefix k "FILED_" = true →
  Split (ToLower k) "_" = lit "filed" :: Split (ToLower (drop 6 k)) "_".
Proof.
  intros Hk%HasPrefix_true. rewrite Hk at 1. rewrite ToLower_app.
  change (ToLower (lit "FILED_")) with (lit "filed" ++ "_"%char :: []).
  rewrite <- app_assoc. simpl app at 2. rewrite Split_app; [done|]. by_compute.
Qed.

Lemma applyEnvs_prefixed (k v : str) (environ : list str) (json : Json) :
  "="%char ∉ k →
  HasPrefix k "FILED_" = true →
  applyEnvs ((k ++ "="%char :: v) :: environ) json
  = applyEnvs environ (SetPath json (Split (ToLower (drop 6 k)) "_") (JStr v)).
Proof.
  intros Hk Hp. cbn [applyEnvs]. rewrite SplitN2_app by done. rewrite Hp.
  by rewrite HasPrefix_FILED.
Qed.

Lemma applyEnvs_other (k v : str) (environ : list str) (json : Json) :
  "="%char ∉ k →
  HasPrefix k "FILED_" = false →
  applyEnvs ((k ++ "="%char :: v) :: environ) json = applyEnvs environ json.
Proof. intros Hk Hp. cbn [applyEnvs]. rewrite SplitN2_app by done. by rewrite Hp. Qed.

(** The first entry of the environment: a variable named [FILED_...] sets
    the path made of its lowercased name, cut at the underscores, without
    the leading [filed]; any other variable leaves the tree as it is. *)
Lemma applyEnvs_override (k v : str) (environ : list str) (json : Json) :
  "="%char ∉ k →
  (HasPrefix k "FILED_" = true →
     ∃ path, Split (ToLower k) "_" = lit "filed" :: path
       ∧ applyEnvs ((k ++ "="%char :: v) :: environ) json
         = applyEnvs environ (SetPath json path (JStr v))
       ∧ GetPath (SetPath json path (JStr v)) path = JStr v)
  ∧ (HasPrefix k "FILED_" = false →
     applyEnvs ((k ++ "="%char :: v) :: environ) json = applyEnvs environ json).
Proof.
  intros Hk. split; intros Hp.
  - exists (Split (ToLower (drop 6 k)) "_"). split_and!.
    + by apply HasPrefix_FILED.
    + by apply applyEnvs_prefixed.
    + apply GetPath_SetPath.
  - by apply applyEnvs_other.
Qed.

Lemma applyEnvs_override_witness :
  ("="%char ∉ lit "FILED_PIPELINES_MAIN")
  ∧ applyEnvs [lit "FILED_PIPELINES_MAIN=x"; lit "HOME=/root"] JNull
    = Ok (SetPath JNull (lits ["pipelines"; "main"]) (JStr "x")).
Proof.
  split; [by_compute|].
  destruct (applyEnvs_override "FILED_PIPELINES_MAIN" "x" [lit "HOME=/root"] JNull)
    as [H _]; [by_compute|].
  destruct (H eq_refl) as (path & Hpath & Happly & _).
  injection Hpath as <-. exact Happly.
Defined.

(** An environment without any [FILED_] variable changes nothing. *)
Lemma applyEnvs_unchanged (environ : list str) (json : Json) :
  Forall (λ env, ∃ k v, env = k ++ "="%char :: v ∧ ("="%char ∉ k)
                        ∧ HasPrefix k "FILED_" = false) environ →
  applyEnvs environ json = Ok json.
Proof.
  induction 1 as [|env environ (k & v & -> & Hk & Hp) _ IH]; [done|].
  by rewrite applyEnvs_other.
Qed.

(** An entry without [=] ends the call with an error. *)
Lemma applyEnvs_malformed (env : str) (environ : list str) (json : Json) :
  "="%char ∉ env →
  applyEnvs (env :: environ) json = Err (ErrCantParseEnv env).
Proof. intros He. cbn [applyEnvs]. by rewrite SplitN2_None. Qed.

(** A later variable may undo an earlier one: the tree is updated in the
    order of the environment. *)
Lemma applyEnvs_in_order :
  applyEnvs [lit "FILED_A_B=1"; lit "FILED_A=2"] JNull
  = Ok (JMap {[ lit "a" := JStr "2" ]}).
Proof. vm_compute. reflexivity. Qed.

(** *** Pipelines *)

Lemma fatal_exit_code_nonzero : fatal_exit_code ≠ 0.
Proof. done. Qed.

(** The loop of [parseConfig]: one entry per key. *)
Lemma parseConfig_loop (pipelinesJson : Json) (pipelines : gmap str Json) :
  ∀ i, map_fold (λ i (_ : Json) (acc : gmap str PipelineConfig),
                   <[i := {| Raw := Get pipelinesJson i |}]> acc)
         ∅ pipelines !! i
       = (λ _, {| Raw := Get pipelinesJson i |}) <$> pipelines !! i.
Proof.
  apply (map_fold_weak_ind
           (λ (r : gmap str PipelineConfig) (m : gmap str Json),
              ∀ i, r !! i = (λ _, {| Raw := Get pipelinesJson i |}) <$> m !! i)).
  - intros i. by rewrite !lookup_empty.
  - intros k x m r Hk IH i. destruct (decide (k = i)) as [->|Hne].
    + by rewrite !lookup_insert_eq.
    + by rewrite !lookup_insert_ne.
Qed.

(** C7: without any pipeline in the configuration [parseConfig] ends the
    process, with a non-zero exit code and no configuration built; with
    pipelines it returns a configuration that holds one entry per
    pipeline key, the entry of a key being the JSON found under it. *)
Theorem parseConfig_pipelines (json : Json) :
  (MustMap (Get json "pipelines") = ∅ →
     parseConfig json = Fatal
     ∧ ∃ code, exit_code (parseConfig json) = Some code ∧ code ≠ 0)
  ∧ (MustMap (Get json "pipelines") ≠ ∅ →
     ∃ config, parseConfig json = Ok config
       ∧ dom (Pipelines config) = dom (MustMap (Get json "pipelines"))
       ∧ size (Pipelines config) = size (MustMap (Get json "pipelines"))
       ∧ ∀ i, i ∈ dom (MustMap (Get json "pipelines")) →
              Pipelines config !! i = Some {| Raw := Get (Get json "pipelines") i |}).
Proof.
  unfold parseConfig. split; intros Hm.
  - rewrite bool_decide_true by (by rewrite Hm).
    split; [done|]. exists fatal_exit_code. split; [done|]. apply fatal_exit_code_nonzero.
  - rewrite bool_decide_false by (by rewrite map_size_empty_iff).
    eexists. split; [done|]. cbn [Pipelines NewConfig].
    pose proof (parseConfig_loop (Get json "pipelines") (MustMap (Get json "pipelines")))
      as Hlookup.
    assert (dom (map_fold
                   (λ i (_ : Json) (acc : gmap str PipelineConfig),
                      <[i := {| Raw := Get (Get json "pipelines") i |}]> acc)
                   ∅ (MustMap (Get json "pipelines")))
            = dom (MustMap (Get json "pipelines"))) as Hdom.
    { apply set_eq. intros i. rewrite !elem_of_dom, Hlookup. by rewrite fmap_is_Some. }
    split_and!.
    + done.
    + apply (f_equal size) in Hdom. by rewrite !size_dom in Hdom.
    + intros i [x Hx]%elem_of_dom. by rewrite Hlookup, Hx.
Qed.


Lemma parseConfig_pipelines_witness :
  MustMap (Get one_pipeline "pipelines") ≠ ∅
  ∧ ∃ config, parseConfig one_pipeline = Ok config
      ∧ Pipelines config !! lit "main" = Some {| Raw := JMap ∅ |}.
Proof.
  assert (MustMap (Get one_pipeline "pipelines") ≠ ∅) as Hne.
  { intros H. apply (f_equal (λ m, m !! lit "main")) in H.
    vm_compute in H. discriminate H. }
  split; [exact Hne|].
  destruct (parseConfig_pipelines one_pipeline) as [_ H].
  destruct (H Hne) as (config & Hc & _ & _ & Hi).
  exists config. split; [exact Hc|].
  rewrite Hi; [reflexivity|].
  apply elem_of_dom. vm_compute. eexists. reflexivity.
Defined.

(** Loading: no pipeline is fatal; a variable of the environment can bring
    the pipeline. *)
Lemma NewConfigFromFile_examples :
  NewConfigFromFile (λ _ _, @None ()) [] (JMap ∅) = Fatal
  ∧ NewConfigFromFile (λ _ _, @None ()) [lit "PATH"] one_pipeline = Fatal
  ∧ (∃ config,
       NewConfigFromFile (λ _ _, @None ()) [lit "FILED_PIPELINES_MAIN_INPUT_TYPE=fake"]
         (JMap ∅) = Ok config
       ∧ Pipelines config !! lit "main"
         = Some {| Raw := JMap {[ lit "input" := JMap {[ lit "type" := JStr "fake" ]} ]} |}).
Proof.
  split; [vm_compute; reflexivity|]. split; [vm_compute; reflexivity|].
  eexists. split; [vm_compute; reflexivity|]. vm_compute. reflexivity.
Qed.

Lemma parseConfig_no_pipelines :
  parseConfig (JMap {[ lit "pipelines" := JMap ∅ ]}) = Fatal
  ∧ parseConfig (JMap ∅) = Fatal
  ∧ parseConfig (JMap {[ lit "pipelines" := JStr "main" ]}) = Fatal.
Proof. repeat split; vm_compute; reflexivity. Qed.

End ConfigFacts.

(** ** The clickhouse output *)

Module ClickhouseFacts.
Import Clickhouse Described Examples.

Section out.
Context {Regexp : Type}.
Variable regexp_Compile : str → option Regexp.
Variable time_ParseDuration : str → option Z.
Variable time_Format_RFC3339 : Z → str.
Variable runeCount : str → nat.
Variable exec_fails : nat → bool.

Abbreviation out := (Clickhouse.out time_Format_RFC3339 runeCount exec_fails).
Abbreviation out_events := (Clickhouse.out_events time_Format_RFC3339 runeCount).
Abbreviation out_retry := (Clickhouse.out_retry exec_fails).
Abbreviation processEvent := (Clickhouse.processEvent time_Format_RFC3339 runeCount).
Abbreviation processEvent_loop :=
  (Clickhouse.processEvent_loop time_Format_RFC3339 runeCount).
Abbreviation addFieldToValues :=
  (Clickhouse.addFieldToValues time_Format_RFC3339 runeCount).

(** *** Retries *)

Lemma out_retry_all_fail config rows batch_len i n err :
  (∀ m, (m < i)%nat → exec_fails (n + m) = true) →
  out_retry config rows batch_len i n err
  = (mjoin (replicate i (failed_attempt config rows)),
     if decide (i = 0%nat) then err else true).
Proof.
  revert n err. induction i as [|i IH]; intros n err Hfail; [done|].
  cbn [Clickhouse.out_retry].
  rewrite <- (Nat.add_0_r n) at 1. rewrite Hfail by lia.
  rewrite IH.
  - by destruct (decide (i = 0%nat)).
  - intros m Hm. rewrite Nat.add_succ_comm. apply Hfail. lia.
Qed.

Lemma out_retry_success config rows batch_len i n err k :
  (k < i)%nat →
  (∀ m, (m < k)%nat → exec_fails (n + m) = true) →
  exec_fails (n + k) = false →
  out_retry config rows batch_len i n err
  = (mjoin (replicate k (failed_attempt config rows))
       ++ successful_attempt config rows batch_len, false).
Proof.
  revert i n err. induction k as [|k IH]; intros i n err Hk Hfail Hok.
  - destruct i as [|i]; [lia|]. cbn [Clickhouse.out_retry].
    rewrite Nat.add_0_r in Hok. by rewrite Hok.
  - destruct i as [|i]; [lia|]. cbn [Clickhouse.out_retry].
    rewrite <- (Nat.add_0_r n) at 1. rewrite Hfail by lia.
    rewrite (IH i (S n) true); [done|lia| |].
    + intros m Hm. rewrite Nat.add_succ_comm. apply Hfail. lia.
    + by rewrite Nat.add_succ_comm.
Qed.

(** [Start] lets only a configuration with [Retry] of 1 or more through. *)
Lemma Start_checks_Retry config : Start_checks config = Ok () → 0 < Retry config.
Proof.
  unfold Start_checks. repeat case_decide; try done. lia.
Qed.

(** An [Int] field with a [default] tag takes the default, whatever it
    held. *)
Lemma apply_default_int tag i v :
  GoInt.Atoi tag = Some v → tag ≠ [] →
  Cfg.apply_default tag (Cfg.VInt i) = Ok (Cfg.VInt v).
Proof. intros Hv Ht. unfold Cfg.apply_default. by rewrite decide_False, Hv. Qed.

(** Once the rows of a batch are built, the insert is attempted at
    most [Retry] times; every failed attempt is followed by a pause of
    [Retention_]; the first attempt that succeeds is the last one; when
    all [Retry] attempts fail the pool is closed and the process ends.
    The tags give [Retry] the default 3 and [Retention] the default
    50ms. *)
Lemma out_retries config events t rows :
  out_events config events [] = (t, Some rows) →
  rows ≠ [] →
  0 < Retry config →
  (∀ k, (k < Z.to_nat (Retry config))%nat →
        (∀ m, (m < k)%nat → exec_fails m = true) →
        exec_fails k = false →
        out config events
        = (t ++ mjoin (replicate k (failed_attempt config rows))
             ++ successful_attempt config rows (length events), true))
  ∧ ((∀ m, (m < Z.to_nat (Retry config))%nat → exec_fails m = true) →
     out config events
     = (t ++ mjoin (replicate (Z.to_nat (Retry config)) (failed_attempt config rows))
          ++ [PoolClose; LogFatal], false))
  ∧ (∀ i values,
       Cfg.ParseField regexp_Compile time_ParseDuration Retry_tags (Cfg.VInt i) values
       = Ok (Cfg.VInt 3, None))
  ∧ (∀ values,
       time_ParseDuration "50ms" = Some (50 * millisecond) →
       Cfg.ParseField regexp_Compile time_ParseDuration Retention_tags
         (Cfg.VString "") values
       = Ok (Cfg.VString "50ms", Some (Cfg.FInt (50 * millisecond)))).
Proof.
  intros Hev Hrows Hretry. unfold Clickhouse.out. rewrite Hev.
  rewrite decide_False by (by destruct rows).
  split_and!.
  - intros k Hk Hfail Hok.
    by rewrite (out_retry_success _ _ _ _ 0 false k).
  - intros Hfail. rewrite out_retry_all_fail by done.
    by rewrite decide_False by lia.
  - done.
  - intros values Hd. unfold Cfg.ParseField. simpl. simpl in Hd. by rewrite Hd.
Qed.

(** *** Timestamps *)

Lemma processEvent_loop_error event chFields fieldValues field node err :
  field ∈ chFields →
  DigStrict event (Name field) = Some node →
  addFieldToValues field node = inl err →
  ∃ err', processEvent_loop event chFields fieldValues = inl err'.
Proof.
  intros Hin Hnode Herr. revert fieldValues.
  induction chFields as [|c chFields IH]; intros fieldValues.
  { by apply elem_of_nil in Hin. }
  cbn [Clickhouse.processEvent_loop].
  destruct (DigStrict event (Name c)) as [n|] eqn:Hn; [|by eexists].
  destruct (addFieldToValues c n) as [e|lVal] eqn:Hc; [by eexists|].
  apply elem_of_cons in Hin as [->|Hin]; [|by apply IH].
  congruence.
Qed.

(** An event that [processEvent] refuses adds no row: it is counted as
    discarded and skipped, or ends the process in strict mode. *)
Lemma out_events_error config event events rows err :
  processEvent event (Columns config) = inl err →
  out_events config (event :: events) rows
  = if Strict config then ([DiscardedInc; LogFatal], None)
    else (DiscardedInc :: LogError :: (out_events config events rows).1,
          (out_events config events rows).2).
Proof.
  intros Herr. cbn [Clickhouse.out_events]. rewrite Herr.
  destruct (Strict config); [by destruct err|].
  destruct (Clickhouse.out_events _ _ config events rows) as [t r].
  by destruct err.
Qed.

(** On a timestamp column the error of the distant past or future
    is returned exactly when the field holds an integer below 0 or above
    221842627200; an integer in between is formatted as RFC 3339 from Unix
    seconds; an event with an integer out of the range is discarded from the
    batch, or ends the process in strict mode. *)
Lemma addFieldToValues_timestamp field node :
  ColType field = chTimestamp →
  (addFieldToValues field node = inl ErrTimestampFromDistantPastOrFuture
     ↔ ∃ tint, AsInt node = Some tint ∧ (tint < 0 ∨ tint > 221842627200))
  ∧ (∀ tint, AsInt node = Some tint → 0 ≤ tint ≤ 221842627200 →
       addFieldToValues field node = inr (AString (time_Format_RFC3339 tint)))
  ∧ (∀ tint, AsInt node = Some tint → tint < 0 ∨ tint > 221842627200 →
     ∀ config event events rows,
       field ∈ Columns config →
       DigStrict event (Name field) = Some node →
       out_events config (event :: events) rows
       = if Strict config then ([DiscardedInc; LogFatal], None)
         else (DiscardedInc :: LogError :: (out_events config events rows).1,
               (out_events config events rows).2)).
Proof.
  intros Hty.
  assert (∀ tint, AsInt node = Some tint → tint < 0 ∨ tint > 221842627200 →
          addFieldToValues field node = inl ErrTimestampFromDistantPastOrFuture) as Hout.
  { intros tint Hnode Hr. unfold Clickhouse.addFieldToValues, nineThousandYear.
    rewrite Hty, Hnode.
    destruct Hr; [rewrite (bool_decide_true (tint < 0)) by done
                 |rewrite (bool_decide_true (tint > _)) by done];
      by rewrite ?orb_true_r. }
  assert (∀ tint, AsInt node = Some tint → 0 ≤ tint ≤ 221842627200 →
          addFieldToValues field node
          = inr (AString (time_Format_RFC3339 tint))) as Hin.
  { intros tint Hnode Hr. unfold Clickhouse.addFieldToValues, nineThousandYear.
    rewrite Hty, Hnode.
    by rewrite (bool_decide_false (tint < 0)), (bool_decide_false (tint > _)) by lia. }
  split_and!.
  - split.
    + intros Herr. destruct (AsInt node) as [tint|] eqn:Hnode.
      * exists tint. split; [done|].
        destruct (decide (0 ≤ tint ≤ 221842627200)) as [Hr|Hr]; [|lia].
        rewrite (Hin tint) in Herr by done. discriminate Herr.
      * unfold Clickhouse.addFieldToValues in Herr. rewrite Hty, Hnode in Herr.
        discriminate Herr.
    + intros (tint & Hnode & Hr). by apply Hout with tint.
  - done.
  - intros tint Hnode Hr config event events rows Hfield Hdig.
    destruct (processEvent_loop_error event (Columns config) [] field _ _
                Hfield Hdig (Hout tint Hnode Hr)) as [err' Herr'].
    by apply out_events_error with err'.
Qed.

End out.


Lemma out_retries_witness :
  Clickhouse.out_events (λ _, epoch) length (ts_config false) [ts_event 0] []
  = ([], Some ts_rows)
  ∧ ts_rows ≠ []
  ∧ 0 < Retry (ts_config false)
  ∧ Clickhouse.out (λ _, epoch) length (λ _, true) (ts_config false) [ts_event 0]
    = ([ExecContext ts_rows (3000 * millisecond); LogError; Sleep (50 * millisecond);
        ExecContext ts_rows (3000 * millisecond); LogError; Sleep (50 * millisecond);
        ExecContext ts_rows (3000 * millisecond); LogError; Sleep (50 * millisecond);
        PoolClose; LogFatal], false).
Proof.
  assert (Clickhouse.out_events (λ _, epoch) length (ts_config false) [ts_event 0] []
          = ([], Some ts_rows)) as Hev by (vm_compute; reflexivity).
  assert (ts_rows ≠ []) as Hrows by discriminate.
  assert (0 < Retry (ts_config false)) as Hretry by reflexivity.
  split; [exact Hev|]. split; [exact Hrows|]. split; [exact Hretry|].
  destruct (out_retries (λ _, @None ()) (λ _, None) (λ _, epoch)
              length (λ _, true) (ts_config false) [ts_event 0] [] ts_rows
              Hev Hrows Hretry) as (_ & H & _).
  rewrite H; [reflexivity|]. intros m _. reflexivity.
Defined.

(** The second attempt succeeds: no third one, no exit. *)
Lemma out_second_attempt :
  Clickhouse.out (λ _, epoch) length (λ n, bool_decide (n = 0%nat))
    (ts_config false) [ts_event 0; ts_event (-1)]
  = ([DiscardedInc; LogError;
      ExecContext ts_rows (3000 * millisecond); LogError; Sleep (50 * millisecond);
      ExecContext ts_rows (3000 * millisecond); WrittenAdd 2], true).
Proof. vm_compute. reflexivity. Qed.

Lemma addFieldToValues_timestamp_witness :
  ColType ts_column = chTimestamp
  ∧ Clickhouse.addFieldToValues (λ _, epoch) length ts_column (NNumber 221842627201)
    = inl ErrTimestampFromDistantPastOrFuture
  ∧ Clickhouse.addFieldToValues (λ _, epoch) length ts_column (NNumber 221842627200)
    = inr (AString epoch)
  ∧ Clickhouse.out_events (λ _, epoch) length (ts_config true) [ts_event (-1)] []
    = ([DiscardedInc; LogFatal], None).
Proof.
  split; [reflexivity|].
  destruct (addFieldToValues_timestamp (λ _, epoch) length ts_column
              (NNumber 221842627201) eq_refl) as (H1 & _ & _).
  split; [apply H1; exists 221842627201; split; [reflexivity | right; reflexivity]|].
  destruct (addFieldToValues_timestamp (λ _, epoch) length ts_column
              (NNumber 221842627200) eq_refl) as (_ & H2 & _).
  split; [apply (H2 221842627200 eq_refl); split; discriminate|].
  destruct (addFieldToValues_timestamp (λ _, epoch) length ts_column
              (NNumber (-1)) eq_refl) as (_ & _ & H3).
  rewrite (H3 (-1) eq_refl (or_introl eq_refl) (ts_config true) (ts_event (-1)) [] []).
  - reflexivity.
  - cbn. left.
  - vm_compute. reflexivity.
Defined.

(** Not strict: the event is counted, logged and left out; the others are
    inserted. *)
Lemma out_discards_timestamp :
  Clickhouse.out (λ _, epoch) length (λ _, false) (ts_config false)
    [ts_event (-1); ts_event 0; ts_event 221842627201]
  = ([DiscardedInc; LogError; DiscardedInc; LogError;
      ExecContext ts_rows (3000 * millisecond); WrittenAdd 3], true).
Proof. vm_compute. reflexivity. Qed.

End ClickhouseFacts.

(** ** Signals *)

Module MainFacts.
Import Main Examples.

Lemma three_seconds : second * 3 = 3000000000.
Proof. reflexivity. Qed.

(** One signal: on SIGINT or SIGTERM the pipelines are stopped with a deadline of
    three seconds and, the stop succeeding, the process exits with code 0;
    on SIGHUP they are stopped with the same deadline and a fresh instance
    is started, the process staying up; a stop that fails ends the process
    with a non-zero code, nothing being started. *)
Lemma listenSignals_handle (a : arrival) :
  (sig a = SIGINT ∨ sig a = SIGTERM →
   stop_fails a = false →
   handle a = ([LogInfo "SIGTERM or SIGINT received"; Stop 3000000000; Cancel;
                ExitSend; LogInfo "see you soon..."], Exited 0))
  ∧ (sig a = SIGHUP →
     stop_fails a = false →
     ∃ st, handle a = ([LogInfo "SIGHUP received"; Stop 3000000000; Cancel; Start], st)
           ∧ (start_fails a = false → st = Running))
  ∧ (stop_fails a = true →
     ∃ t code, handle a = (t, Exited code)
               ∧ code ≠ 0
               ∧ (Stop 3000000000 ∈ t)
               ∧ (Start ∉ t)
               ∧ (ExitSend ∉ t)).
Proof.
  destruct a as [s stop start]. cbn [sig stop_fails start_fails]. split_and!.
  - intros [->| ->] ->; reflexivity.
  - intros -> ->. destruct start; eexists; (split; [reflexivity|]); done.
  - intros ->. destruct s; do 2 eexists; (split; [reflexivity|]);
      (split; [done|]); rewrite three_seconds; split_and!; by_compute.
Qed.

Lemma listenSignals_handle_witness :
  (sig (arrives SIGTERM) = SIGINT ∨ sig (arrives SIGTERM) = SIGTERM)
  ∧ stop_fails (arrives SIGTERM) = false
  ∧ handle (arrives SIGTERM)
    = ([LogInfo "SIGTERM or SIGINT received"; Stop 3000000000; Cancel;
        ExitSend; LogInfo "see you soon..."], Exited 0).
Proof.
  split; [right; reflexivity|]. split; [reflexivity|].
  apply (listenSignals_handle (arrives SIGTERM)).
  - right. reflexivity.
  - reflexivity.
Defined.

(** After a SIGHUP the loop goes on: the next signal is handled. *)
Lemma listenSignals_restart_then_stop :
  listenSignals [arrives SIGHUP; arrives SIGINT; arrives SIGHUP]
  = ([LogInfo "SIGHUP received"; Stop 3000000000; Cancel; Start;
      LogInfo "SIGTERM or SIGINT received"; Stop 3000000000; Cancel;
      ExitSend; LogInfo "see you soon..."], Exited 0).
Proof. reflexivity. Qed.

(** The loop never exits by itself: the process is up as long as every
    signal is a SIGHUP whose stop and start succeed. *)
Lemma listenSignals_running (arrivals : list arrival) :
  Forall (λ a, sig a = SIGHUP ∧ stop_fails a = false ∧ start_fails a = false) arrivals →
  (listenSignals arrivals).2 = Running.
Proof.
  induction 1 as [|[s stop start] arrivals (Hs & Hstop & Hstart) _ IH]; [done|].
  simpl in Hs, Hstop, Hstart. subst. cbn [listenSignals handle sig stop_fails start_fails].
  by destruct (listenSignals arrivals).
Qed.

End MainFacts.

(** ** The mask action *)

Module MaskFacts.
Import Mask Examples.

(** The patterns of the tests are in the part of the syntax that is read. *)
Lemma Compile_test_patterns :
  is_Some (Compile "\d")
  ∧ is_Some (Compile "a(x*)b")
  ∧ is_Some (Compile kDefaultCardRegExp)
  ∧ is_Some (Compile kCardWithStarOrSpaceOrNoDelimitersRegExp)
  ∧ Compile "(err" = None.
Proof. repeat split; vm_compute; by eexists. Qed.

(** Rows of the table of [TestMaskFunctions]: the masked value and whether
    masking took place. *)
Lemma maskValue_simple_test :
  test_maskValue "\d" [0%nat] "12.34.5678" = Some (lit "**.**.****", true).
Proof. vm_compute. reflexivity. Qed.

Lemma maskValue_re_not_matches :
  test_maskValue "\d" [0%nat] "ab.cd.efgh" = Some (lit "ab.cd.efgh", false).
Proof. vm_compute. reflexivity. Qed.

(** The two rows named simple substitution, on the value without the JSON
    text that surrounds it in the table. *)
Lemma maskValue_simple_substitution :
  test_maskValue "a(x*)b" [1%nat] "-ab-axxb-" = Some (lit "-ab-a**b-", true)
  ∧ test_maskValue "a(x*)b" [0%nat] "-ab-axxb-" = Some (lit "-**-****-", true).
Proof. split; vm_compute; reflexivity. Qed.

Lemma maskValue_groups_of_card_number :
  test_maskValue kDefaultCardRegExp [1; 2; 3]%nat "5568-2587-2420-0263"
  = Some (lit "****-****-****-0263", true).
Proof. vm_compute. reflexivity. Qed.

Lemma maskValue_two_card_numbers :
  test_maskValue kDefaultCardRegExp [1; 2; 3; 4]%nat
    "issued card number 3528-3889-3793-9946 and card number 4035-3005-3980-4083"
  = Some (lit "issued card number ****-****-****-**** and card number ****-****-****-****",
          true).
Proof. vm_compute. reflexivity. Qed.

Lemma maskValue_card_number_with_delimiter :
  test_maskValue kCardWithStarOrSpaceOrNoDelimitersRegExp [1; 2; 3]%nat
    "card number 3528-3889-3793-9946"
  = Some (lit "card number ****-****-****-9946", true)
  ∧ test_maskValue kCardWithStarOrSpaceOrNoDelimitersRegExp [1; 2; 3]%nat
      "card number 3528 3889 3793 9946"
    = Some (lit "card number **** **** **** 9946", true)
  ∧ test_maskValue kCardWithStarOrSpaceOrNoDelimitersRegExp [1; 2; 3]%nat
      "card number 3528388937939946"
    = Some (lit "card number ************9946", true).
Proof. repeat split; vm_compute; reflexivity. Qed.

(** An event with one string field: the field is masked by the one mask. *)
Lemma test_Do_singleton re groups (k s : str) :
  test_Do re groups {[ k := JStr s ]}
  = (r ← test_maskValue re groups s; Some {[ k := JStr r.1 ]}).
Proof.
  unfold test_Do, test_maskValue. destruct (test_mask re groups) as [mask|]; [|done].
  simpl. unfold Do. by rewrite map_fmap_singleton.
Qed.

(** Rows of the table of [TestPlugin] that hold no Cyrillic text, with the
    card mask alone. *)
Lemma Do_card_number_with_text :
  test_Do kDefaultCardRegExp [1; 2; 3; 4]%nat
    {[ lit "field1" := JStr "authorization of card number 5679-0643-9766-5536 failed" ]}
  = Some {[ lit "field1" :=
              JStr "authorization of card number ****-****-****-**** failed" ]}
  ∧ test_Do kDefaultCardRegExp [1; 2; 3; 4]%nat {[ lit "field2" := JStr "Simple event" ]}
    = Some {[ lit "field2" := JStr "Simple event" ]}.
Proof.
  rewrite !test_Do_singleton.
  assert (test_maskValue kDefaultCardRegExp [1; 2; 3; 4]%nat
            "authorization of card number 5679-0643-9766-5536 failed"
          = Some (lit "authorization of card number ****-****-****-**** failed", true))
    as -> by (vm_compute; reflexivity).
  assert (test_maskValue kDefaultCardRegExp [1; 2; 3; 4]%nat "Simple event"
          = Some (lit "Simple event", false)) as -> by (vm_compute; reflexivity).
  done.
Qed.

(** C3: with the card pattern and the groups 1 to 4 the card number is
    masked group by group, the dashes stay, and masking is reported; the
    event that carries the number in [field1] leaves the action with the
    masked value. *)
Theorem maskValue_card_number :
  test_maskValue "\b(\d{1,4})\D?(\d{1,4})\D?(\d{1,4})\D?(\d{1,4})\b" [1; 2; 3; 4]%nat
    "5408-7430-0756-2004"
  = Some (lit "****-****-****-****", true)
  ∧ test_Do "\b(\d{1,4})\D?(\d{1,4})\D?(\d{1,4})\D?(\d{1,4})\b" [1; 2; 3; 4]%nat
      {[ lit "field1" := JStr "5408-7430-0756-2004" ]}
    = Some {[ lit "field1" := JStr "****-****-****-****" ]}.
Proof.
  rewrite test_Do_singleton.
  assert (test_maskValue "\b(\d{1,4})\D?(\d{1,4})\D?(\d{1,4})\D?(\d{1,4})\b"
            [1; 2; 3; 4]%nat "5408-7430-0756-2004"
          = Some (lit "****-****-****-****", true)) as -> by (vm_compute; reflexivity).
  done.
Qed.

End MaskFacts.

(** * Further properties of the code *)

(** ** Field selectors and the rest of [ParseField] *)

Module FieldProperties.
Import GoStrings GoInt GoStringsFacts GoIntFacts Cfg Described Shapes Examples.

Lemma Split_nonempty s sep : Split s sep ≠ [].
Proof.
  destruct s as [|x s]; simpl; [done|].
  case_decide; [done|]. by destruct (Split s sep).
Qed.

Lemma drop_last_empty_cons x l : l ≠ [] → drop_last_empty (x :: l) = x :: drop_last_empty l.
Proof.
  intros Hl. unfold drop_last_empty. destruct l as [|y l]; [done|].
  rewrite last_cons_cons. destruct (last (y :: l)) as [[|? ?]|]; try done.
  simpl. by rewrite Nat.sub_0_r.
Qed.

Lemma no_doubled_dot_cons c s : no_doubled_dot (c :: s) → no_doubled_dot s.
Proof. intros H i. apply (H (S i)). Qed.

(** Without backslashes and doubled dots the reading of the description is
    [strings.Split] on the dots. *)
Lemma components_Split cur s :
  "\"%char ∉ s →
  no_doubled_dot s →
  components cur s
  = drop_last_empty (match Split s "." with w :: ws => (cur ++ w) :: ws | [] => [] end).
Proof.
  revert cur. induction s as [|c s IH]; intros cur Hb Hd.
  - simpl. rewrite app_nil_r. unfold drop_last_empty. simpl.
    case_decide as Hc; [by subst|]. by destruct cur.
  - apply not_elem_of_cons in Hb as [Hc Hb].
    pose proof (no_doubled_dot_cons _ _ Hd) as Hd'.
    destruct (decide (c = "."%char)) as [->|Hdot].
    + assert (components cur ("."%char :: s) = cur :: components [] s) as ->.
      { cbn [components]. rewrite decide_False by done. rewrite decide_True by done.
        destruct s as [|d s]; [done|]. rewrite decide_False; [done|].
        intros ->. by apply (Hd 0%nat). }
      rewrite (IH [] Hb Hd'). cbn [Split]. rewrite decide_True by done.
      rewrite app_nil_r, drop_last_empty_cons by apply Split_nonempty.
      by destruct (Split s ".").
    + cbn [components Split]. rewrite !decide_False by done.
      rewrite (IH _ Hb Hd').
      pose proof (Split_nonempty s ".") as Hne.
      destruct (Split s ".") as [|w ws]; [done|].
      by rewrite <- app_assoc.
Qed.

Import SelectorFacts.

(** X1.  A selector without backslashes and without doubled dots is cut at
    its dots as [strings.Split] cuts it, except that an empty last component
    (an empty selector, a selector that ends with a dot) is left out. *)
Theorem ParseFieldSelector_Split selector :
  "\"%char ∉ selector →
  no_doubled_dot selector →
  ParseFieldSelector selector = drop_last_empty (Split selector ".").
Proof.
  intros Hb Hd. unfold ParseFieldSelector.
  rewrite (ParseFieldSelector_loop_components (length selector)) by done. simpl.
  rewrite components_Split by done.
  pose proof (Split_nonempty selector ".").
  by destruct (Split selector ".").
Qed.

Lemma no_doubled_dot_example : no_doubled_dot ".a.b.".
Proof.
  intros i [H1 H2].
  do 6 (destruct i as [|i];
        [vm_compute in H1, H2; first [discriminate H1 | discriminate H2]|]).
  vm_compute in H1. discriminate H1.
Qed.

Lemma ParseFieldSelector_Split_witness :
  ("\"%char ∉ lit ".a.b.")
  ∧ no_doubled_dot ".a.b."
  ∧ ParseFieldSelector ".a.b." = lits [""; "a"; "b"].
Proof.
  assert ("\"%char ∉ lit ".a.b.") as H1 by by_compute.
  pose proof no_doubled_dot_example as H2.
  split_and!; [done..|].
  rewrite (ParseFieldSelector_Split ".a.b." H1 H2). reflexivity.
Defined.

Section Field.
Context {Regexp : Type}.
Variable regexp_Compile : str → option Regexp.
Variable time_ParseDuration : str → option Z.

Abbreviation CompileRegex := (Cfg.CompileRegex regexp_Compile).
Abbreviation ParseField := (Cfg.ParseField regexp_Compile time_ParseDuration).

Lemma CompileRegex_surrounded_by inner :
  CompileRegex ("/" ++ inner ++ "/")
  = match regexp_Compile inner with
    | Some re => Ok re
    | None => Err (ErrRegexpCompile ("/" ++ inner ++ "/"))
    end.
Proof.
  unfold Cfg.CompileRegex. rewrite decide_False by done.
  change (lit "/" ++ inner ++ lit "/") with (("/"%char :: inner) ++ ["/"%char]).
  rewrite last_snoc. simpl head.
  rewrite !bool_decide_eq_false_2 by (intros ?; done). simpl orb. cbv iota.
  rewrite bool_decide_eq_false_2 by (rewrite length_app; simpl; lia).
  assert (slice (("/"%char :: inner) ++ ["/"%char]) 1
            (length (("/"%char :: inner) ++ ["/"%char]) - 1) = inner) as ->; [|done].
  unfold slice. rewrite length_app. simpl.
  replace (length inner + 1 - 0 - 1)%nat with (length inner) by lia.
  by rewrite drop_0, take_app_length.
Qed.

(** X2.  [CompileRegex] panics on the one-byte string [/] and on no other;
    it returns a regexp exactly for the strings [/inner/] whose inside
    compiles; a string not surrounded by slashes is an error. *)
Theorem CompileRegex_surrounded s :
  (CompileRegex s = Panic ↔ s = "/")
  ∧ (∀ re, CompileRegex s = Ok re
       ↔ ∃ inner, s = "/" ++ inner ++ "/" ∧ regexp_Compile inner = Some re)
  ∧ (head s ≠ Some "/"%char ∨ last s ≠ Some "/"%char →
       ∃ e, CompileRegex s = Err e).
Proof.
  destruct s as [|c s].
  { split_and!; [done| |by eexists].
    intros re. split; [done|]. by intros ([|? ?] & ? & _). }
  destruct s as [|d mid _] using rev_ind.
  { unfold Cfg.CompileRegex. rewrite decide_False by done. simpl.
    destruct (decide (c = "/"%char)) as [->|Hc].
    - split_and!; [done| |].
      + intros re. split; [done|]. intros (inner & Hs & _).
        apply (f_equal length) in Hs. simpl in Hs. rewrite ?length_app in Hs.
        simpl in Hs. lia.
      + intros [H|H]; by destruct H.
    - rewrite bool_decide_eq_true_2 by congruence. simpl.
      split_and!; [split; [done|congruence]| |by eexists].
      intros re. split; [done|]. intros (inner & Hs & _). simplify_eq/=. }
  destruct (decide (c = "/"%char ∧ d = "/"%char)) as [[-> ->]|Hcd].
  - pose proof (CompileRegex_surrounded_by mid) as Hmid.
    change (lit "/" ++ mid ++ lit "/") with ("/"%char :: mid ++ ["/"%char]) in Hmid.
    rewrite Hmid. split_and!.
    + split; [by destruct (regexp_Compile mid)|].
      intros Hs. apply (f_equal length) in Hs. simpl in Hs.
      rewrite ?length_app in Hs. simpl in Hs. lia.
    + intros re. split.
      * destruct (regexp_Compile mid) eqn:Hre; [|done]. intros [= <-]. by exists mid.
      * intros (inner & Hs & Hre).
        change (lit "/" ++ inner ++ lit "/") with ("/"%char :: inner ++ ["/"%char]) in Hs.
        simplify_eq/=. apply app_inj_tail in Hs as [-> _]. by rewrite Hre.
    + rewrite app_comm_cons, last_snoc. simpl. intros [H|H]; by destruct H.
  - unfold Cfg.CompileRegex. rewrite decide_False by done.
    rewrite app_comm_cons, last_snoc.
    change (head ((c :: mid) ++ [d])) with (Some c).
    assert (bool_decide (Some c ≠ Some "/"%char) || bool_decide (Some d ≠ Some "/"%char)
            = true) as ->.
    { apply orb_true_iff. rewrite !bool_decide_eq_true.
      destruct (decide (c = "/"%char)) as [->|];
        [right; intros [= ->]; by apply Hcd | left; congruence]. }
    split_and!; [split; [done|]| |by eexists].
    + intros Hs. apply (f_equal length) in Hs. simpl in Hs.
      rewrite ?length_app in Hs. simpl in Hs. lia.
    + intros re. split; [done|]. intros (inner & Hs & _).
      change (lit "/" ++ inner ++ lit "/") with (("/"%char :: inner) ++ ["/"%char]) in Hs.
      apply app_inj_tail in Hs as [Hs ->]. simplify_eq/=. by destruct Hcd.
Qed.

(** The successful ways through [ParseField]: the hypothesis [H] is split
    into the default, the options, and one hypothesis per way. *)
Ltac ParseField_ways H :=
  unfold Cfg.ParseField in H;
  match type of H with
  | context [bool_decide (tag_required ?t = ?x)] =>
      set (required := bool_decide (tag_required t = x)) in H
  end;
  destruct (apply_default _ _) as [v0| | |] eqn:Hdefault; simpl in H; [|done..];
  destruct (check_options _ v0) as [[]| | |] eqn:Hoptions; simpl in H; [|done..];
  repeat (case_decide; simpl in H);
  repeat (case_match; simpl in H; try done);
  repeat match type of H with
         | (?x ≫= _) = _ =>
             let Hx := fresh "Hway" in
             destruct x eqn:Hx; simpl in H; try done
         end;
  repeat (case_decide; simpl in H);
  repeat match type of H with
         | (?x ≫= _) = _ =>
             let Hx := fresh "Hway" in
             destruct x eqn:Hx; simpl in H; try done
         end.

Lemma check_required_Ok required v u :
  check_required required v = Ok u → required = true → IsZero v = false.
Proof. unfold check_required. intros H ->. simpl in H. by destruct (IsZero v). Qed.

(** X3.  After a successful [ParseField] a field tagged [required:"true"]
    is not the zero value of its type, also for a literal expression, which
    returns before the check. *)
Theorem ParseField_required_nonzero tags vField values v' f :
  tag_required tags = "true" →
  ParseField tags vField values = Ok (v', f) →
  IsZero v' = false.
Proof.
  intros Hreq H.
  assert (bool_decide (tag_required tags = "true") = true) as Hb
    by by apply bool_decide_eq_true.
  ParseField_ways H.
  all: try done.
  all: injection H as <- <-.
  all: try (eapply check_required_Ok; [eassumption | exact Hb]).
  simpl. apply bool_decide_eq_false.
  eapply ExpressionFacts.ParseField_expression_nonempty. eassumption.
Qed.

Lemma check_options_Ok tag v :
  tag ≠ [] → check_options tag v = Ok () → ∃ s, v = VString s ∧ s ∈ Split tag "|".
Proof.
  intros Htag. unfold check_options. rewrite decide_False by done.
  destruct v as [s| | |]; try done. case_decide; [|done]. intros _. by exists s.
Qed.

(** X4.  After a successful [ParseField] a field with an [options] tag is a
    string, and one of the alternatives that the tag lists between its
    bars; this holds whatever the [parse] tag. *)
Theorem ParseField_options_member tags vField values v' f :
  tag_options tags ≠ [] →
  ParseField tags vField values = Ok (v', f) →
  ∃ s, v' = VString s ∧ s ∈ Split (tag_options tags) "|".
Proof.
  intros Hopt H. ParseField_ways H.
  all: try done.
  all: injection H as <- <-.
  all: by eapply check_options_Ok.
Qed.

Lemma wrap_congruent z : (z - wrap z) `mod` 2 ^ 64 = 0.
Proof.
  unfold wrap. rewrite (Z.mod_eq (z + 2 ^ 63) (2 ^ 64)) by lia.
  replace (z - (z + 2 ^ 63 - 2 ^ 64 * ((z + 2 ^ 63) `div` 2 ^ 64) - 2 ^ 63))
    with ((z + 2 ^ 63) `div` 2 ^ 64 * 2 ^ 64) by lia.
  apply Z_mod_mult.
Qed.

(** X5.  An expression whose exact result does not fit a 64-bit integer is
    not rejected: [ParseField] succeeds on every expression with two
    operands that have a value (a division by zero aside) and stores the
    exact result reduced modulo 2^64 into the signed 64-bit range, which is
    the exact result only when that fits. *)
Theorem ParseField_expression_wraps tags s values a op b x y :
  tag_parse tags = "expression" →
  tag_options tags = [] →
  field_text tags s = a ++ op :: b →
  operator_free a →
  op ∈ operators →
  operand_value values (TrimSpace a) = Some x →
  operand_value values (TrimSpace b) = Some y →
  ¬ (op = "/"%char ∧ y = 0) →
  ∃ i, ParseField tags (VString s) values
       = Ok (VString (field_text tags s), Some (FInt i))
    ∧ min_int ≤ i ≤ max_int
    ∧ (binop op x y - i) `mod` 2 ^ 64 = 0
    ∧ (i = binop op x y ↔ min_int ≤ binop op x y ≤ max_int).
Proof.
  intros Hparse Hopt Htext Ha Hop Hx Hy Hdiv.
  exists (wrap (binop op x y)).
  rewrite (ExpressionFacts.ParseField_expression_field regexp_Compile time_ParseDuration)
    by done.
  rewrite Htext, ExpressionFacts.ParseField_expression_binop by done.
  rewrite Hx, Hy, decide_False by done.
  split; [done|]. split; [apply wrap_range|]. split; [apply wrap_congruent|].
  split.
  - intros <-. apply wrap_range.
  - apply wrap_id.
Qed.

Lemma list_map_lookup (parts : list str) (m : gmap str bool) k :
  foldl (λ m part, <[TrimSpace part := true]> m) m parts !! k
  = if decide (k ∈ TrimSpace <$> parts) then Some true else m !! k.
Proof.
  revert m. induction parts as [|p parts IH]; intros m; [done|].
  cbn [foldl]. rewrite fmap_cons.
  - rewrite IH. destruct (decide (k ∈ TrimSpace <$> parts)) as [Hk|Hk].
    + rewrite decide_True; [done|]. by right.
    + destruct (decide (k = TrimSpace p)) as [->|Hp].
      * rewrite decide_True by left. by rewrite lookup_insert_eq.
      * rewrite decide_False by (by intros [?|?]%elem_of_cons).
        by rewrite lookup_insert_ne.
Qed.

(** X6.  The map that [ParseField] stores for a [list-map] text has exactly
    the comma-separated parts of the text, trimmed of white space, as keys,
    each with the value [true]. *)
Theorem ParseField_list_map tags vField values v' m :
  ParseField tags vField values = Ok (v', Some (FListMap m)) →
  ∃ s, v' = VString s
    ∧ ∀ k, m !! k = if decide (k ∈ TrimSpace <$> Split s ",") then Some true else None.
Proof.
  intros H. ParseField_ways H.
  all: try done.
  all: injection H as <- <-.
  eexists. split; [done|]. intros k. by rewrite list_map_lookup.
Qed.

Lemma drop_space_head s c : head (drop_space s) = Some c → Ascii.is_space c = false.
Proof.
  induction s as [|x s IH]; simpl; [done|].
  destruct (Ascii.is_space x) eqn:Hx; [done|]. by intros [= <-].
Qed.

Lemma drop_space_last s : drop_space s ≠ [] → last (drop_space s) = last s.
Proof.
  induction s as [|x s IH]; simpl; [done|].
  destruct (Ascii.is_space x) eqn:Hx; [|done].
  intros Hs. rewrite IH by done. destruct s; [done|]. by rewrite last_cons_cons.
Qed.

Lemma drop_space_elem s c : c ∈ drop_space s → c ∈ s.
Proof.
  induction s as [|x s IH]; simpl; [done|].
  destruct (Ascii.is_space x); [|done]. intros ?. right. auto.
Qed.

Lemma TrimSpace_trimmed s : trimmed (TrimSpace s).
Proof.
  unfold trimmed, TrimSpace. split; intros c.
  - rewrite head_reverse.
    destruct (decide (drop_space (reverse (drop_space s)) = [])) as [->|Hne]; [done|].
    rewrite drop_space_last, last_reverse by done. apply drop_space_head.
  - rewrite last_reverse. apply drop_space_head.
Qed.

Lemma drop_space_id s : (∀ c, head s = Some c → Ascii.is_space c = false) → drop_space s = s.
Proof. destruct s as [|x s]; [done|]. simpl. intros H. by rewrite (H x). Qed.

Lemma TrimSpace_id s : trimmed s → TrimSpace s = s.
Proof.
  intros [Hh Hl]. unfold TrimSpace. rewrite (drop_space_id s) by done.
  rewrite drop_space_id; [apply reverse_involutive|].
  intros c. rewrite head_reverse. apply Hl.
Qed.

Lemma TrimSpace_elem s c : c ∈ TrimSpace s → c ∈ s.
Proof.
  unfold TrimSpace. rewrite elem_of_reverse. intros H%drop_space_elem.
  rewrite elem_of_reverse in H. by apply drop_space_elem.
Qed.

Lemma length_Split s sep : length (Split s sep) = S (length (filter (λ c, c = sep) s)).
Proof.
  induction s as [|x s IH]; [done|]. cbn [Split].
  rewrite filter_cons. case_decide.
  - simpl. by rewrite IH.
  - pose proof (Split_nonempty s sep). by destruct (Split s sep).
Qed.

(** X7.  The list that [ParseField] stores for a [list] text has one element
    per comma-separated part of the text, in order: one more than the text
    has commas, so never none (an empty text gives one empty element); no
    element starts or ends with white space. *)
Theorem ParseField_list tags vField values v' l :
  ParseField tags vField values = Ok (v', Some (FList l)) →
  ∃ s, v' = VString s
    ∧ l = TrimSpace <$> Split s ","
    ∧ length l = S (length (filter (λ c, c = ","%char) s))
    ∧ Forall trimmed l.
Proof.
  intros H. ParseField_ways H.
  all: try done.
  all: injection H as <- <-.
  eexists. split_and!; [done..| |].
  - by rewrite length_fmap, length_Split.
  - apply Forall_fmap, Forall_forall. intros p _. apply TrimSpace_trimmed.
Qed.

(** X8.  White space around the operands of an expression plays no role:
    the expression with its operands trimmed has the same outcome. *)
Theorem ParseField_expression_spaces values a op b :
  operator_free a →
  op ∈ operators →
  ParseField_expression values (a ++ op :: b)
  = ParseField_expression values (TrimSpace a ++ op :: TrimSpace b).
Proof.
  intros Ha Hop.
  rewrite !ExpressionFacts.ParseField_expression_binop; try done.
  - by rewrite (TrimSpace_id (TrimSpace a)), (TrimSpace_id (TrimSpace b))
      by apply TrimSpace_trimmed.
  - unfold operator_free in *. rewrite Forall_forall in *.
    intros c Hc. apply Ha. by apply TrimSpace_elem.
Qed.

(** X9.  When an Int field has a [default] tag, the value the field held
    plays no role: [ParseField] has the same outcome for every value, and a
    successful one leaves the default in the field. *)
Theorem ParseField_int_default tags i j values :
  tag_default tags ≠ [] →
  ParseField tags (VInt i) values = ParseField tags (VInt j) values
  ∧ ∀ v' f, ParseField tags (VInt i) values = Ok (v', f) →
            VInt <$> Atoi (tag_default tags) = Some v' ∧ f = None.
Proof.
  intros Hd. split.
  - unfold Cfg.ParseField, apply_default.
    destruct (decide (tag_default tags = [])); [done | reflexivity].
  - intros v' f H. ParseField_ways H.
    all: try done.
    all: injection H as <- <-.
    all: unfold apply_default in Hdefault; rewrite decide_False in Hdefault by done.
    all: destruct (Atoi (tag_default tags)); [|done].
    all: by inversion Hdefault.
Qed.


End Field.

Lemma ParseField_required_nonzero_witness :
  tag_required (struct_tag "true" "stdout" "" "") = "true"
  ∧ Cfg.ParseField (λ _, @None ()) (λ _, None) (struct_tag "true" "stdout" "" "")
      (VString "") ∅
    = Ok (VString "stdout", None)
  ∧ IsZero (VString "stdout") = false.
Proof.
  split; [reflexivity|]. split; [reflexivity|].
  exact (ParseField_required_nonzero (λ _, @None ()) (λ _, None)
           (struct_tag "true" "stdout" "" "") (VString "") ∅ (VString "stdout") None
           eq_refl eq_refl).
Defined.

Lemma ParseField_options_member_witness :
  tag_options (struct_tag "" "json" "json|text" "") ≠ []
  ∧ Cfg.ParseField (λ _, @None ()) (λ _, None) (struct_tag "" "json" "json|text" "")
      (VString "") ∅
    = Ok (VString "json", None)
  ∧ ∃ s, VString "json" = VString s ∧ s ∈ Split "json|text" "|".
Proof.
  assert (tag_options (struct_tag "" "json" "json|text" "") ≠ []) as H by done.
  split; [done|]. split; [reflexivity|].
  exact (ParseField_options_member (λ _, @None ()) (λ _, None)
           (struct_tag "" "json" "json|text" "") (VString "") ∅ (VString "json") None
           H eq_refl).
Defined.

Lemma ParseField_expression_wraps_witness :
  Cfg.ParseField (λ _, @None ()) (λ _, None) (struct_tag "" "" "" "expression")
    (VString "9223372036854775807 + capacity") (environment 16 4)
  = Ok (VString "9223372036854775807 + capacity", Some (FInt (-9223372036854775793)))
  ∧ ∃ i, Cfg.ParseField (λ _, @None ()) (λ _, None) (struct_tag "" "" "" "expression")
           (VString "9223372036854775807 + capacity") (environment 16 4)
         = Ok (VString (field_text (struct_tag "" "" "" "expression")
                          "9223372036854775807 + capacity"), Some (FInt i))
      ∧ min_int ≤ i ≤ max_int
      ∧ (binop "+" 9223372036854775807 16 - i) `mod` 2 ^ 64 = 0
      ∧ (i = binop "+" 9223372036854775807 16
         ↔ min_int ≤ binop "+" 9223372036854775807 16 ≤ max_int).
Proof.
  assert (operator_free "9223372036854775807 ") as Ha by by_compute.
  assert ("+"%char ∈ operators) as Hop by by_compute.
  assert (¬ ("+"%char = "/"%char ∧ 16 = 0)) as Hdiv by (by intros [? _]).
  split; [reflexivity|].
  exact (ParseField_expression_wraps (λ _, @None ()) (λ _, None)
           (struct_tag "" "" "" "expression") "9223372036854775807 + capacity"
           (environment 16 4) "9223372036854775807 " "+" " capacity"
           9223372036854775807 16 eq_refl eq_refl eq_refl Ha Hop eq_refl eq_refl Hdiv).
Defined.

Lemma ParseField_list_map_witness :
  Cfg.ParseField (λ _, @None ()) (λ _, None) (struct_tag "" "" "" "list-map")
    (VString "a, b") ∅
  = Ok (VString "a, b",
        Some (FListMap (<[lit "b" := true]> (<[lit "a" := true]> (∅ : gmap str bool)))))
  ∧ ∃ s, VString "a, b" = VString s
      ∧ ∀ k, (<[lit "b" := true]> (<[lit "a" := true]> (∅ : gmap str bool))) !! k
             = if decide (k ∈ TrimSpace <$> Split s ",") then Some true else None.
Proof.
  split; [reflexivity|].
  exact (ParseField_list_map (λ _, @None ()) (λ _, None)
           (struct_tag "" "" "" "list-map") (VString "a, b") ∅ _ _ eq_refl).
Defined.

Lemma ParseField_list_witness :
  Cfg.ParseField (λ _, @None ()) (λ _, None) (struct_tag "" "" "" "list")
    (VString "") ∅
  = Ok (VString "", Some (FList [[]]))
  ∧ ∃ s, VString "" = VString s
      ∧ [[]] = TrimSpace <$> Split s ","
      ∧ length [@nil ascii] = S (length (filter (λ c, c = ","%char) s))
      ∧ Forall trimmed [[]].
Proof.
  split; [reflexivity|].
  exact (ParseField_list (λ _, @None ()) (λ _, None)
           (struct_tag "" "" "" "list") (VString "") ∅ _ _ eq_refl).
Defined.

Lemma ParseField_expression_spaces_witness :
  operator_free " capacity "
  ∧ "*"%char ∈ operators
  ∧ ParseField_expression (environment 16 4) (" capacity " ++ "*"%char :: " 2 ")
    = ParseField_expression (environment 16 4)
        (TrimSpace " capacity " ++ "*"%char :: TrimSpace " 2 ").
Proof.
  assert (operator_free " capacity ") as H1 by by_compute.
  assert ("*"%char ∈ operators) as H2 by by_compute.
  split; [done|]. split; [done|].
  exact (ParseField_expression_spaces (environment 16 4) " capacity " "*" " 2 " H1 H2).
Defined.

Lemma ParseField_int_default_witness :
  tag_default (struct_tag "" "3" "" "") ≠ []
  ∧ Cfg.ParseField (λ _, @None ()) (λ _, None) (struct_tag "" "3" "" "") (VInt 7) ∅
    = Cfg.ParseField (λ _, @None ()) (λ _, None) (struct_tag "" "3" "" "") (VInt 0) ∅
  ∧ Cfg.ParseField (λ _, @None ()) (λ _, None) (struct_tag "" "3" "" "") (VInt 7) ∅
    = Ok (VInt 3, None).
Proof.
  assert (tag_default (struct_tag "" "3" "" "") ≠ []) as H by done.
  split; [done|]. split; [|reflexivity].
  exact (proj1 (ParseField_int_default (λ _, @None ()) (λ _, None)
                  (struct_tag "" "3" "" "") 7 0 ∅ H)).
Defined.


End FieldProperties.

(** ** Loading the configuration, further *)

Module LoadingProperties.
Import GoStrings GoStringsFacts SimpleJson Cfg Shapes Examples ConfigFacts.

(** *** The environment *)

(** One turn of the loop of [applyEnvs]. *)
Lemma applyEnvs_cons env environ json :
  applyEnvs (env :: environ) json
  = match IndexByte env "=" with
    | None => Err (ErrCantParseEnv env)
    | Some i =>
        if HasPrefix (take i env) "FILED_"
        then applyEnvs environ
               (SetPath json (drop 1 (Split (ToLower (take i env)) "_"))
                  (JStr (drop (S i) env)))
        else applyEnvs environ json
    end.
Proof. cbn [applyEnvs]. unfold SplitN2. by destruct (IndexByte env "="). Qed.

(** The environment is gone through in order. *)
Lemma applyEnvs_app environ1 environ2 json :
  applyEnvs (environ1 ++ environ2) json
  = applyEnvs environ1 json ≫= applyEnvs environ2.
Proof.
  revert json. induction environ1 as [|env environ1 IH]; intros json; [done|].
  rewrite <- app_comm_cons, !applyEnvs_cons.
  destruct (IndexByte env "="); [|done]. by case_match.
Qed.

Lemma applyEnvs_no_equals env environ json :
  env ∈ environ → "="%char ∉ env → ∃ e, applyEnvs environ json = Err e.
Proof.
  intros Hin Henv. revert json.
  induction environ as [|env' environ IH]; intros json; [by apply elem_of_nil in Hin|].
  rewrite applyEnvs_cons.
  destruct (IndexByte env' "=") as [i|] eqn:Hi; [|by eexists].
  assert (env ∈ environ) as Hin'.
  { apply elem_of_cons in Hin as [->|?]; [|done].
    apply IndexByte_None in Henv. congruence. }
  case_match; by apply IH.
Qed.

(** X11.  One entry of the environment without an equals sign, wherever it
    stands and whatever its name, makes [NewConfigFromFile] end the process
    with a fatal error, whatever the file holds. *)
Theorem NewConfigFromFile_malformed_env `{secreter V} (newVault : str → str → option V)
    env environ json :
  env ∈ environ →
  "="%char ∉ env →
  NewConfigFromFile newVault environ json = Fatal.
Proof.
  intros Hin Henv. unfold NewConfigFromFile.
  by destruct (applyEnvs_no_equals env environ json Hin Henv) as [e ->].
Qed.

Lemma NewConfigFromFile_malformed_env_witness :
  lit "PATH" ∈ lits ["HOME=/root"; "PATH"; "FILED_PIPELINES_MAIN=x"]
  ∧ ("="%char ∉ lit "PATH")
  ∧ NewConfigFromFile (λ _ _, @None ())
      (lits ["HOME=/root"; "PATH"; "FILED_PIPELINES_MAIN=x"]) one_pipeline
    = Fatal.
Proof.
  assert (lit "PATH" ∈ lits ["HOME=/root"; "PATH"; "FILED_PIPELINES_MAIN=x"]) as H1
    by by_compute.
  assert ("="%char ∉ lit "PATH") as H2 by by_compute.
  split; [done|]. split; [done|].
  exact (NewConfigFromFile_malformed_env (λ _ _, @None ()) _ _ one_pipeline H1 H2).
Defined.

Lemma Get_SetPath_ne json b rest val key :
  key ≠ b → Get (SetPath json (b :: rest) val) key = Get json key.
Proof.
  intros Hk. cbn [SetPath]. unfold Get at 1. cbn [Map].
  rewrite lookup_insert_ne by done.
  unfold Get, MustMap. by destruct (Map json).
Qed.

(** X12.  The environment changes the tree only under the top-level keys
    that its [FILED_] variables name by their first segment: every other
    top-level key reads, with [Get], as before. *)
Theorem applyEnvs_other_keys environ json json' key :
  applyEnvs environ json = Ok json' →
  (∀ env, env ∈ environ → top_key env ≠ Some key) →
  Get json' key = Get json key.
Proof.
  revert json. induction environ as [|env environ IH]; intros json H Hkey.
  { by injection H as <-. }
  rewrite applyEnvs_cons in H.
  assert (∀ env0, env0 ∈ environ → top_key env0 ≠ Some key) as Hkey'
    by (intros ? ?; apply Hkey; by right).
  pose proof (Hkey env (list_elem_of_here _ _)) as Henv.
  unfold top_key, SplitN2 in Henv.
  destruct (IndexByte env "=") as [i|] eqn:Hi; [|done].
  destruct (HasPrefix (take i env) "FILED_") eqn:Hp; [|by apply IH].
  rewrite (IH _ H Hkey').
  rewrite (HasPrefix_FILED _ Hp) in Henv |- *. cbn [drop] in Henv |- *.
  pose proof (FieldProperties.Split_nonempty (ToLower (drop 6 (take i env))) "_") as Hne.
  destruct (Split (ToLower (drop 6 (take i env))) "_") as [|b rest]; [done|].
  apply Get_SetPath_ne. simpl in Henv. congruence.
Qed.

Lemma applyEnvs_other_keys_witness :
  applyEnvs (lits ["FILED_VAULT_TOKEN=t"; "HOME=/root"]) one_pipeline
  = Ok (SetPath one_pipeline (lits ["vault"; "token"]) (JStr "t"))
  ∧ (∀ env, env ∈ lits ["FILED_VAULT_TOKEN=t"; "HOME=/root"] →
            top_key env ≠ Some (lit "pipelines"))
  ∧ Get (SetPath one_pipeline (lits ["vault"; "token"]) (JStr "t")) "pipelines"
    = Get one_pipeline "pipelines".
Proof.
  assert (∀ env, env ∈ lits ["FILED_VAULT_TOKEN=t"; "HOME=/root"] →
                 top_key env ≠ Some (lit "pipelines")) as H.
  { intros env Henv. unfold lits in Henv. rewrite !fmap_cons in Henv.
    apply elem_of_cons in Henv as [->|Henv]; [by vm_compute|].
    apply elem_of_cons in Henv as [->|Henv]; [by vm_compute|].
    by apply elem_of_nil in Henv. }
  split; [reflexivity|]. split; [exact H|].
  exact (applyEnvs_other_keys (lits ["FILED_VAULT_TOKEN=t"; "HOME=/root"]) one_pipeline
           (SetPath one_pipeline (lits ["vault"; "token"]) (JStr "t")) "pipelines"
           eq_refl H).
Defined.

Lemma Split_no_sep s sep seg : seg ∈ Split s sep → sep ∉ seg.
Proof.
  revert seg. induction s as [|x s IH]; intros seg.
  - simpl. intros ->%list_elem_of_singleton. apply not_elem_of_nil.
  - cbn [Split]. case_decide as Hx.
    + intros [->|Hseg]%elem_of_cons; [apply not_elem_of_nil | by apply IH].
    + pose proof (FieldProperties.Split_nonempty s sep) as Hne.
      destruct (Split s sep) as [|w ws]; [done|].
      intros [->|Hseg]%elem_of_cons.
      * apply not_elem_of_cons. split; [congruence|]. apply IH. left.
      * apply IH. by right.
Qed.

Lemma Split_elem s sep seg c : seg ∈ Split s sep → c ∈ seg → c ∈ s.
Proof.
  revert seg. induction s as [|x s IH]; intros seg.
  - simpl. by intros ->%list_elem_of_singleton.
  - cbn [Split]. case_decide as Hx.
    + intros [->|Hseg]%elem_of_cons Hc; [by apply elem_of_nil in Hc|].
      right. by apply (IH seg).
    + pose proof (FieldProperties.Split_nonempty s sep) as Hne.
      destruct (Split s sep) as [|w ws]; [done|].
      intros [->|Hseg]%elem_of_cons Hc.
      * apply elem_of_cons in Hc as [->|Hc]; [left|]. right. apply (IH w); [left|done].
      * right. apply (IH seg); [by right|done].
Qed.

Lemma ToLower_no_upper s c : c ∈ ToLower s → is_upper c = false.
Proof.
  unfold ToLower. intros (c0 & -> & _)%list_elem_of_fmap.
  destruct c0 as [[] [] [] [] [] [] [] []]; reflexivity.
Qed.

(** X13.  A variable [FILED_...] writes to the path that its name without
    the prefix gives when it is put in lower case and cut at every
    underscore: the path is never empty, and none of its keys holds an
    underscore or an upper-case letter, so a key of the file that holds one
    cannot be set from the environment. *)
Theorem applyEnvs_path (k v : str) (environ : list str) (json : Json) :
  "="%char ∉ k →
  HasPrefix k "FILED_" = true →
  ∃ path,
    applyEnvs ((k ++ "="%char :: v) :: environ) json
    = applyEnvs environ (SetPath json path (JStr v))
    ∧ path ≠ []
    ∧ Forall (λ key, ("_"%char ∉ key) ∧ Forall (λ c, is_upper c = false) key) path.
Proof.
  intros Hk Hp. exists (Split (ToLower (drop 6 k)) "_").
  split; [by apply applyEnvs_prefixed|].
  split; [apply FieldProperties.Split_nonempty|].
  apply Forall_forall. intros key Hkey. split; [by eapply Split_no_sep|].
  apply Forall_forall. intros c Hc. eapply ToLower_no_upper, Split_elem; eauto.
Qed.

Lemma applyEnvs_path_witness :
  ("="%char ∉ lit "FILED_PIPELINES_MAIN_SETTINGS_EVENT_TIMEOUT")
  ∧ HasPrefix "FILED_PIPELINES_MAIN_SETTINGS_EVENT_TIMEOUT" "FILED_" = true
  ∧ applyEnvs [lit "FILED_PIPELINES_MAIN_SETTINGS_EVENT_TIMEOUT=1s"] (JMap ∅)
    = Ok (SetPath (JMap ∅) (lits ["pipelines"; "main"; "settings"; "event"; "timeout"])
            (JStr "1s"))
  ∧ ∃ path,
      applyEnvs (("FILED_PIPELINES_MAIN_SETTINGS_EVENT_TIMEOUT" ++ "="%char :: "1s") :: [])
        (JMap ∅)
      = applyEnvs [] (SetPath (JMap ∅) path (JStr "1s"))
      ∧ path ≠ []
      ∧ Forall (λ key, ("_"%char ∉ key) ∧ Forall (λ c, is_upper c = false) key) path.
Proof.
  assert ("="%char ∉ lit "FILED_PIPELINES_MAIN_SETTINGS_EVENT_TIMEOUT") as H by by_compute.
  split; [done|]. split; [reflexivity|]. split; [reflexivity|].
  exact (applyEnvs_path "FILED_PIPELINES_MAIN_SETTINGS_EVENT_TIMEOUT" "1s" [] (JMap ∅)
           H eq_refl).
Defined.

(** *** Secrets *)

Lemma ReplaceAll_go_skip old new (y x : str) :
  ReplaceAll_go old new (length y) (y ++ x) = ReplaceAll_go old new 0 x.
Proof.
  induction y as [|c y IH]; [by destruct x|]. simpl. exact IH.
Qed.

Lemma ReplaceAll_go_absent old new c (s : str) :
  head old = Some c → c ∉ s → ReplaceAll_go old new 0 s = s.
Proof.
  intros Hold. induction s as [|x s IH]; [done|].
  intros [Hx Hs]%not_elem_of_cons. cbn [ReplaceAll_go].
  destruct old as [|c' old]; [done|]. injection Hold as ->.
  cbn [HasPrefix]. rewrite decide_False by done. by rewrite IH.
Qed.

Lemma ReplaceAll_prefix old new (x : str) :
  old ≠ [] → ReplaceAll (old ++ x) old new = new ++ ReplaceAll x old new.
Proof.
  intros Hold. unfold ReplaceAll. destruct old as [|c old]; [done|].
  rewrite <- app_comm_cons. cbn [ReplaceAll_go].
  rewrite app_comm_cons, HasPrefix_app. f_equal.
  replace (length (c :: old) - 1)%nat with (length old) by (simpl; lia).
  apply ReplaceAll_go_skip.
Qed.

(** X14.  A string value that starts with the escaped prefix is not looked up:
    whatever the vault, [tryGetSecret] answers with the text in which every
    escaped prefix has lost its backslash (the text unchanged but for the
    first backslash, when it holds no other one), and [applyVault] stores
    that text. *)
Theorem tryGetSecret_escaped `{secreter V} (vault : V) (x : str) :
  tryGetSecret vault (JStr ("\vault(" ++ x))
  = Ok ("vault(" ++ ReplaceAll x "\vault(" "vault(", true)
  ∧ ("\"%char ∉ x → ReplaceAll x "\vault(" "vault(" = x)
  ∧ ∀ k, applyVault vault (JMap {[ k := JStr ("\vault(" ++ x) ]})
         = Ok (JMap {[ k := JStr ("vault(" ++ ReplaceAll x "\vault(" "vault(") ]}).
Proof.
  assert (tryGetSecret vault (JStr ("\vault(" ++ x))
          = Ok ("vault(" ++ ReplaceAll x "\vault(" "vault(", true)) as Hx.
  { unfold tryGetSecret. cbn [String]. rewrite HasPrefix_app.
    by rewrite ReplaceAll_prefix by done. }
  split; [done|]. split.
  - intros Hb. by apply (ReplaceAll_go_absent _ _ "\"%char).
  - intros k. cbn [applyVault]. rewrite map_fmap_singleton, collect_map_singleton.
    rewrite Hx. reflexivity.
Qed.

Lemma no_spaces_app (a b : str) : no_spaces (a ++ b) = no_spaces a ++ no_spaces b.
Proof.
  unfold no_spaces, ReplaceAll. induction a as [|x a IH]; [done|].
  rewrite <- app_comm_cons. cbn [ReplaceAll_go HasPrefix].
  change (length (lit " ") - 1)%nat with 0%nat.
  change (HasPrefix (x :: a ++ b) " ") with (HasPrefix (x :: a) " ").
  destruct (HasPrefix (x :: a) " "); by rewrite IH.
Qed.

(** X15.  For a value [vault(p,k)] the vault is asked for the path [p] and
    the key [k] with every space removed from both, also the spaces inside
    them; its answer is the value of [tryGetSecret], and its error ends
    the process. *)
Theorem tryGetSecret_path_key `{secreter V} (vault : V) (p k : str) :
  ","%char ∉ p →
  ","%char ∉ k →
  tryGetSecret vault (JStr ("vault(" ++ p ++ "," ++ k ++ ")"))
  = match GetSecret vault (no_spaces p) (no_spaces k) with
    | Some secret => Ok (secret, true)
    | None => Fatal
    end.
Proof.
  intros Hp Hk. remember (lit "vault(" ++ p ++ lit "," ++ k ++ lit ")") as s eqn:Hs.
  assert (HasPrefix s "\vault(" = false) as H1 by (by subst).
  assert (HasPrefix s "vault(" = true) as H2 by (subst; apply HasPrefix_app).
  assert (s = lit "vault(" ++ (p ++ lit "," ++ k) ++ lit ")") as Hs'.
  { subst. by rewrite <- !app_assoc. }
  assert (HasSuffix s ")" = true) as H3.
  { rewrite Hs'. rewrite app_assoc. apply HasSuffix_app. }
  assert (TrimSuffix (TrimPrefix s "vault(") ")" = p ++ lit "," ++ k) as H4.
  { rewrite Hs'. by rewrite TrimPrefix_app, TrimSuffix_app. }
  unfold tryGetSecret. cbn [String]. rewrite H1, H2, H3, H4. cbn [negb orb].
  fold (no_spaces (p ++ lit "," ++ k)). rewrite !no_spaces_app.
  change (no_spaces (lit ",")) with [","%char].
  assert (","%char ∉ no_spaces p) as Hp'.
  { apply ReplaceAll_go_not_elem; [done|]. apply not_elem_of_nil. }
  assert (","%char ∉ no_spaces k) as Hk'.
  { apply ReplaceAll_go_not_elem; [done|]. apply not_elem_of_nil. }
  change ([","%char] ++ no_spaces k) with (","%char :: no_spaces k).
  rewrite Split_app, Split_not_elem by done. done.
Qed.

Lemma tryGetSecret_path_key_witness :
  (","%char ∉ lit "secret/my path")
  ∧ (","%char ∉ lit " pass word")
  ∧ tryGetSecret () (JStr "vault(secret/my path, pass word)") = Fatal.
Proof.
  assert (","%char ∉ lit "secret/my path") as H1 by by_compute.
  assert (","%char ∉ lit " pass word") as H2 by by_compute.
  split; [done|]. split; [done|].
  exact (tryGetSecret_path_key () "secret/my path" " pass word" H1 H2).
Defined.

(** *** Trees without references to the vault *)

Lemma map_fold_and (m : gmap str bool) :
  map_fold (λ _ (b acc : bool), b && acc) true m = true
  ↔ ∀ k b, m !! k = Some b → b = true.
Proof.
  apply (map_fold_weak_ind (λ r (m : gmap str bool),
           r = true ↔ ∀ k b, m !! k = Some b → b = true)).
  - split; [|done]. intros _ k b. by rewrite lookup_empty.
  - intros i x m' r Hi IH. rewrite andb_true_iff, IH. split.
    + intros [-> Hm] k b. destruct (decide (k = i)) as [->|Hk].
      * rewrite lookup_insert_eq. by intros [= <-].
      * rewrite lookup_insert_ne by done. apply Hm.
    + intros Hm. split.
      * apply (Hm i). by rewrite lookup_insert_eq.
      * intros k b Hk. apply (Hm k). rewrite lookup_insert_ne; [done|]. congruence.
Qed.

Lemma map_fold_sum_le (m : gmap str nat) k n :
  m !! k = Some n → (n ≤ map_fold (λ _ (n acc : nat), (n + acc)%nat) 0%nat m)%nat.
Proof.
  revert k n.
  apply (map_fold_weak_ind (λ r (m : gmap str nat),
           ∀ k n, m !! k = Some n → (n ≤ r)%nat)).
  - intros k n. by rewrite lookup_empty.
  - intros i x m' r Hi IH k n. destruct (decide (k = i)) as [->|Hk].
    + rewrite lookup_insert_eq. intros [= <-]. lia.
    + rewrite lookup_insert_ne by done. intros Hn%IH. lia.
Qed.

Lemma jsize_map m k v : m !! k = Some v → (jsize v < jsize (JMap m))%nat.
Proof.
  intros Hk. cbn [jsize].
  pose proof (map_fold_sum_le (jsize <$> m) k (jsize v)) as Hle.
  rewrite lookup_fmap, Hk in Hle. specialize (Hle eq_refl). lia.
Qed.

Lemma jsize_arr l v : v ∈ l → (jsize v < jsize (JArr l))%nat.
Proof.
  intros Hv. cbn [jsize]. induction Hv as [v l|v w l Hv IH]; rewrite fmap_cons; simpl; lia.
Qed.

Lemma reference_free_map m k v :
  reference_free (JMap m) = true → m !! k = Some v →
  is_reference v = false ∧ reference_free v = true.
Proof.
  cbn [reference_free]. rewrite map_fold_and. intros Hm Hk.
  specialize (Hm k (negb (is_reference v) && reference_free v)).
  rewrite lookup_fmap, Hk in Hm. specialize (Hm eq_refl).
  apply andb_true_iff in Hm as [H1 H2]. by apply negb_true_iff in H1.
Qed.

Lemma reference_free_arr l v :
  reference_free (JArr l) = true → v ∈ l →
  is_reference v = false ∧ reference_free v = true.
Proof.
  cbn [reference_free]. intros Hl Hv.
  induction Hv as [v l|v w l Hv IH]; rewrite fmap_cons in Hl; simpl in Hl;
    apply andb_true_iff in Hl as [H1 H2].
  - apply andb_true_iff in H1 as [H1 H3]. by apply negb_true_iff in H1.
  - by apply IH.
Qed.

Lemma collect_map_fmap_Ok {E A B} (f : A → result E B) (g : A → B) (m : gmap str A) :
  (∀ k v, m !! k = Some v → f v = Ok (g v)) →
  collect_map (f <$> m) = Ok (g <$> m).
Proof.
  unfold collect_map. rewrite map_fold_fmap.
  apply (map_fold_weak_ind (λ r (m : gmap str A),
           (∀ k v, m !! k = Some v → f v = Ok (g v)) → r = Ok (g <$> m))).
  - intros _. by rewrite fmap_empty.
  - intros i x m' r Hi IH Hm. rewrite IH.
    + simpl. rewrite (Hm i x) by by rewrite lookup_insert_eq.
      simpl. by rewrite fmap_insert.
    + intros k v Hk. apply (Hm k). rewrite lookup_insert_ne; [done|]. congruence.
Qed.

Lemma collect_list_fmap_Ok {E A B} (f : A → result E B) (g : A → B) (l : list A) :
  (∀ v, v ∈ l → f v = Ok (g v)) →
  collect_list (f <$> l) = Ok (g <$> l).
Proof.
  induction l as [|x l IH]; intros Hl; [done|].
  rewrite !fmap_cons. cbn [collect_list].
  rewrite (Hl x) by left. simpl. rewrite IH; [done|].
  intros v Hv. apply Hl. by right.
Qed.

Lemma tryGetSecret_not_reference `{secreter V} (vault : V) field :
  is_reference field = false → tryGetSecret vault field = Ok ([], false).
Proof.
  unfold is_reference, tryGetSecret. destruct (String field) as [s|]; [|done].
  intros [H1 H2]%orb_false_iff. rewrite H1.
  apply andb_false_iff in H2 as [-> | ->]; [done|].
  by destruct (HasPrefix s "vault(").
Qed.

Lemma applyVault_reference_free_size `{secreter V} (vault : V) n :
  ∀ json, (jsize json < n)%nat → reference_free json = true →
          applyVault vault json = Ok json.
Proof.
  induction n as [|n IH]; intros json Hn Hfree; [lia|].
  destruct json as [| | | |l|m]; try done.
  - cbn [applyVault]. rewrite (collect_list_fmap_Ok _ id).
    + by rewrite list_fmap_id.
    + intros v Hv. destruct (reference_free_arr _ _ Hfree Hv) as [H1 H2].
      rewrite tryGetSecret_not_reference by done. simpl.
      apply IH; [|done]. pose proof (jsize_arr _ _ Hv). lia.
  - cbn [applyVault]. rewrite (collect_map_fmap_Ok _ id).
    + by rewrite map_fmap_id.
    + intros k v Hk. destruct (reference_free_map _ _ _ Hfree Hk) as [H1 H2].
      rewrite tryGetSecret_not_reference by done. simpl.
      apply IH; [|done]. pose proof (jsize_map _ _ _ Hk). lia.
Qed.

(** X16.  [applyVault] leaves a tree as it is, and never asks the vault,
    when no element of an array and no value of a map in it, at any depth,
    is a string that starts with [vault(] and ends with [)], or that
    starts with the escaped prefix. *)
Theorem applyVault_reference_free `{secreter V} (vault : V) json :
  reference_free json = true →
  applyVault vault json = Ok json.
Proof. apply (applyVault_reference_free_size vault (S (jsize json))). lia. Qed.

Lemma applyVault_reference_free_witness :
  reference_free plain_pipeline = true
  ∧ applyVault () plain_pipeline = Ok plain_pipeline.
Proof.
  assert (reference_free plain_pipeline = true) as H by (vm_compute; reflexivity).
  split; [done|].
  exact (applyVault_reference_free () plain_pipeline H).
Defined.

(** X17.  A configuration whose pipelines hold no reference to the vault is
    loaded to the same [Config] whether the vault is in use or not: when the
    client of the vault can be made, [NewConfigFromFile] returns what
    [parseConfig] makes of the tree that the environment leaves. *)
Theorem NewConfigFromFile_reference_free `{secreter V} (newVault : str → str → option V)
    environ json json1 config :
  applyEnvs environ json = Ok json1 →
  parseConfig json1 = Ok config →
  (ShouldUse (Vault config) = true →
   is_Some (newVault (Address (Vault config)) (Token (Vault config)))) →
  (∀ name p, Pipelines config !! name = Some p → reference_free (Raw p) = true) →
  NewConfigFromFile newVault environ json = Ok config.
Proof.
  intros Henv Hparse Hvault Hfree. unfold NewConfigFromFile.
  rewrite Henv, Hparse. simpl.
  destruct (ShouldUse (Vault config)); [|done]. simpl.
  destruct (Hvault eq_refl) as [vault ->].
  rewrite (collect_map_fmap_Ok _ id).
  - simpl. rewrite map_fmap_id. by destruct config.
  - intros name [raw] Hp. rewrite applyVault_reference_free_size with (n := S (jsize raw)).
    + done.
    + simpl. lia.
    + apply (Hfree name _ Hp).
Qed.

Lemma NewConfigFromFile_reference_free_witness :
  NewConfigFromFile (λ _ _, Some ()) vault_environ (JMap ∅) = Ok vault_config.
Proof.
  apply (NewConfigFromFile_reference_free (λ _ _, Some ()) vault_environ (JMap ∅)
           (JMap {[ lit "vault" := JMap {[ lit "address" := JStr "http://vault";
                                            lit "token" := JStr "t" ]};
                    lit "pipelines" :=
                      JMap {[ lit "main" :=
                        JMap {[ lit "output" := JMap {[ lit "type" := JStr "stdout" ]} ]} ]} ]})
           vault_config).
  - vm_compute. reflexivity.
  - vm_compute. reflexivity.
  - intros _. by eexists.
  - intros name p. unfold vault_config. cbn [Pipelines].
    rewrite lookup_singleton_Some. intros [_ <-]. vm_compute. reflexivity.
Defined.

(** *** [UnescapeMap] and [ListToMap] *)

Lemma UnescapeMap_step_Ok key val acc result' :
  UnescapeMap_step key val acc = Ok result' →
  ∃ result, acc = Ok result
    ∧ (key = [] ∧ result' = result
       ∨ ∃ s, key ≠ [] ∧ val = JStr s ∧ result' = <[unescape_key key := s]> result).
Proof.
  unfold UnescapeMap_step. destruct acc as [result| | |]; simpl; [|done..].
  intros Hstep. exists result. split; [done|]. case_decide as Hkey.
  - left. injection Hstep as <-. by destruct key.
  - right. destruct val; try done. simpl in Hstep. injection Hstep as <-.
    eexists. split_and!; [|done..]. by intros ->.
Qed.

(** X18.  [UnescapeMap] panics exactly when the value of some non-empty key
    is no string, and returns a map otherwise; the value of the empty key
    is never looked at. *)
Theorem UnescapeMap_panics fields :
  (UnescapeMap fields = Panic
   ↔ ∃ key val, fields !! key = Some val ∧ key ≠ [] ∧ String val = None)
  ∧ ((∃ result, UnescapeMap fields = Ok result)
     ↔ ∀ key val, fields !! key = Some val → key ≠ [] → is_Some (String val))
  ∧ (UnescapeMap fields = Panic ∨ ∃ result, UnescapeMap fields = Ok result).
Proof.
  unfold UnescapeMap.
  apply (map_fold_weak_ind (λ r (m : gmap str Json),
    (r = Panic ↔ ∃ key val, m !! key = Some val ∧ key ≠ [] ∧ String val = None)
    ∧ ((∃ result, r = Ok result)
       ↔ ∀ key val, m !! key = Some val → key ≠ [] → is_Some (String val))
    ∧ (r = Panic ∨ ∃ result, r = Ok result))).
  - split_and!.
    + split; [done|]. intros (key & val & Hk & _). by rewrite lookup_empty in Hk.
    + split; [|by eexists]. intros _ key val. by rewrite lookup_empty.
    + right. by eexists.
  - intros i x m r Hi (IH1 & IH2 & IH3).
    assert (UnescapeMap_step i x r = Panic
            ↔ r = Panic ∨ (i ≠ [] ∧ String x = None)) as Hp.
    { unfold UnescapeMap_step. destruct IH3 as [->|[result ->]]; simpl.
      - split; [by left | done].
      - case_decide as Hkey.
        + split; [done|]. intros [?|[Hne _]]; [done|]. by destruct i.
        + destruct (String x); split; try done.
          * intros [?|[_ ?]]; done.
          * intros _. right. split; [by intros ->|done]. }
    assert ((∃ result, UnescapeMap_step i x r = Ok result)
            ↔ (∃ result, r = Ok result) ∧ (i ≠ [] → is_Some (String x))) as Hok.
    { unfold UnescapeMap_step. destruct IH3 as [->|[result ->]]; simpl.
      - split; [by intros [? ?]|by intros [[? ?] _]].
      - case_decide as Hkey.
        + split; [|by eexists]. intros _. split; [by eexists|]. by destruct i.
        + destruct (String x); split.
          * intros _. split; by eexists.
          * by eexists.
          * by intros [? ?].
          * intros [_ Hs]. destruct Hs as [? ?]; [by intros ->|done]. }
    split_and!.
    + rewrite Hp, IH1. split.
      * intros [(key & val & Hk & Hne & Hs)|(Hne & Hs)].
        -- exists key, val. split_and!; [|done..].
           rewrite lookup_insert_ne; [done|]. congruence.
        -- exists i, x. by rewrite lookup_insert_eq.
      * intros (key & val & Hk & Hne & Hs).
        destruct (decide (key = i)) as [->|Hki].
        -- rewrite lookup_insert_eq in Hk. injection Hk as ->. by right.
        -- rewrite lookup_insert_ne in Hk by done. left. by exists key, val.
    + rewrite Hok, IH2. split.
      * intros [Hm Hx] key val. destruct (decide (key = i)) as [->|Hki].
        -- rewrite lookup_insert_eq. intros [= <-]. apply Hx.
        -- rewrite lookup_insert_ne by done. apply Hm.
      * intros Hm. split.
        -- intros key val Hk. apply Hm. rewrite lookup_insert_ne; [done|]. congruence.
        -- apply (Hm i). by rewrite lookup_insert_eq.
    + unfold UnescapeMap_step. destruct IH3 as [->|[result ->]]; simpl; [by left|].
      case_decide; [right; by eexists|].
      destruct (String x); [right; by eexists | by left].
Qed.

(** X19.  In the map that [UnescapeMap] returns every entry comes from a
    non-empty key of the fields, without its leading underscore if it has
    one (a second underscore stays), with the string of that key; and a
    non-empty key that no other key of the fields unescapes to is found
    under its unescaped name. *)
Theorem UnescapeMap_lookup fields result :
  UnescapeMap fields = Ok result →
  (∀ k s, result !! k = Some s →
     ∃ key, key ≠ [] ∧ unescape_key key = k ∧ fields !! key = Some (JStr s))
  ∧ (∀ key s,
       key ≠ [] →
       fields !! key = Some (JStr s) →
       (∀ key', key' ≠ [] → is_Some (fields !! key') →
                unescape_key key' = unescape_key key → key' = key) →
       result !! unescape_key key = Some s).
Proof.
  unfold UnescapeMap. revert result.
  apply (map_fold_weak_ind (λ r (m : gmap str Json), ∀ result,
    r = Ok result →
    (∀ k s, result !! k = Some s →
       ∃ key, key ≠ [] ∧ unescape_key key = k ∧ m !! key = Some (JStr s))
    ∧ (∀ key s,
         key ≠ [] →
         m !! key = Some (JStr s) →
         (∀ key', key' ≠ [] → is_Some (m !! key') →
                  unescape_key key' = unescape_key key → key' = key) →
         result !! unescape_key key = Some s))).
  - intros result [= <-]. split.
    + intros k s. by rewrite lookup_empty.
    + intros key s _. by rewrite lookup_empty.
  - intros i x m r Hi IH result' Hstep.
    apply UnescapeMap_step_Ok in Hstep as (result & -> & Hcase).
    destruct (IH result eq_refl) as [IHs IHc]. split.
    + intros k s Hk.
      assert (result !! k = Some s →
              ∃ key, key ≠ [] ∧ unescape_key key = k
                     ∧ <[i:=x]> m !! key = Some (JStr s)) as Hold.
      { intros (key & Hne & Hu & Hm)%IHs. exists key. split_and!; [done..|].
        rewrite lookup_insert_ne; [done|]. congruence. }
      destruct Hcase as [[-> ->]|(s0 & Hne & -> & ->)]; [by apply Hold|].
      destruct (decide (k = unescape_key i)) as [->|Hki].
      * rewrite lookup_insert_eq in Hk. injection Hk as ->.
        exists i. by rewrite lookup_insert_eq.
      * rewrite lookup_insert_ne in Hk by done. by apply Hold.
    + intros key s Hne Hkey Huniq.
      destruct (decide (key = i)) as [->|Hki].
      * rewrite lookup_insert_eq in Hkey. injection Hkey as ->.
        destruct Hcase as [[-> _]|(s0 & _ & [= <-] & ->)]; [done|].
        by rewrite lookup_insert_eq.
      * rewrite lookup_insert_ne in Hkey by done.
        assert (result !! unescape_key key = Some s) as Hres.
        { apply IHc; [done..|]. intros key' Hne' [v Hv] Hu.
          apply Huniq; [done| |done]. exists v.
          rewrite lookup_insert_ne; [done|]. congruence. }
        destruct Hcase as [[_ ->]|(s0 & Hine & _ & ->)]; [done|].
        rewrite lookup_insert_ne; [done|]. intros Hu.
        apply Hki. symmetry. apply Huniq; [done| |done].
        rewrite lookup_insert_eq. by eexists.
Qed.

Lemma UnescapeMap_lookup_witness :
  UnescapeMap escaped_fields = Ok unescaped_fields
  ∧ unescaped_fields !! lit "_path" = Some (lit "/var/log").
Proof.
  assert (UnescapeMap escaped_fields = Ok unescaped_fields) as H
    by (vm_compute; reflexivity).
  split; [done|].
  apply (proj2 (UnescapeMap_lookup escaped_fields unescaped_fields H) "__path").
  - done.
  - vm_compute. reflexivity.
  - intros key' Hne [v Hv] Hu. unfold escaped_fields in Hv.
    apply lookup_insert_Some in Hv as [[<- _]|[_ Hv]]; [done|].
    apply lookup_insert_Some in Hv as [[<- _]|[_ Hv]]; [done|].
    apply lookup_singleton_Some in Hv as [<- _]. done.
Defined.

Lemma ListToMap_foldl (a : list str) (m : gmap str bool) k :
  foldl (λ result key, <[key := true]> result) m a !! k
  = if decide (k ∈ a) then Some true else m !! k.
Proof.
  revert m. induction a as [|x a IH]; intros m; [done|].
  cbn [foldl]. rewrite IH. destruct (decide (k ∈ a)) as [Hk|Hk].
  - rewrite decide_True; [done|]. by right.
  - destruct (decide (k = x)) as [->|Hx].
    + rewrite decide_True by left. by rewrite lookup_insert_eq.
    + rewrite decide_False by (by intros [?|?]%elem_of_cons).
      by rewrite lookup_insert_ne.
Qed.

(** X20.  The map of [ListToMap] holds [true] under every element of the
    list and nothing else: looking a string up tells whether it is in the
    list, and no key is bound to [false]; an element that comes twice is
    one key. *)
Theorem ListToMap_lookup (a : list str) :
  (∀ k, ListToMap a !! k = if decide (k ∈ a) then Some true else None)
  ∧ dom (ListToMap a) = list_to_set a
  ∧ (size (ListToMap a) ≤ length a)%nat.
Proof.
  assert (∀ k, ListToMap a !! k = if decide (k ∈ a) then Some true else None) as Hk.
  { intros k. unfold ListToMap. by rewrite ListToMap_foldl, lookup_empty. }
  assert (dom (ListToMap a) = list_to_set a) as Hdom.
  { apply set_eq. intros k. rewrite elem_of_dom, Hk, elem_of_list_to_set.
    case_decide; split; intros Hx; first [done | by eexists | by destruct Hx]. }
  split_and!; [done..|].
  rewrite <- size_dom, Hdom. clear.
  induction a as [|x a IH]; [done|].
  cbn [list_to_set length].
  destruct (decide (x ∈ (list_to_set a : gset str))) as [Hx|Hx].
  - assert ({[x]} ∪ list_to_set a = (list_to_set a : gset str)) as ->
      by (apply subseteq_union_1_L; by apply singleton_subseteq_l).
    lia.
  - rewrite size_union by (by apply disjoint_singleton_l).
    rewrite size_singleton. lia.
Qed.

(** *** The environment in the loaded configuration *)

Lemma GetPath_JNull path : GetPath JNull path = JNull.
Proof. induction path as [|b path IH]; [done|]. exact IH. Qed.

Lemma GetPath_SetPath_other json q val path :
  ¬ overlaps q path → GetPath (SetPath json q val) path = GetPath json path.
Proof.
  revert json path. induction q as [|b q IH]; intros json path Hq.
  { destruct Hq. left. apply prefix_nil. }
  destruct path as [|p path].
  { destruct Hq. right. apply prefix_nil. }
  cbn [GetPath]. destruct (decide (p = b)) as [->|Hp].
  - cbn [SetPath]. rewrite Get_insert. rewrite IH.
    + f_equal. unfold Get, MustMap. by destruct (Map json).
    + intros [Hpre|Hpre]; apply Hq; [left|right]; by apply prefix_cons.
  - by rewrite Get_SetPath_ne.
Qed.

Lemma env_path_cons env :
  env_path env
  = match IndexByte env "=" with
    | None => None
    | Some i =>
        if HasPrefix (take i env) "FILED_"
        then Some (drop 1 (Split (ToLower (take i env)) "_"))
        else None
    end.
Proof. unfold env_path, SplitN2. by destruct (IndexByte env "="). Qed.

Lemma applyEnvs_keeps_path environ json json' path :
  applyEnvs environ json = Ok json' →
  (∀ env q, env ∈ environ → env_path env = Some q → ¬ overlaps q path) →
  GetPath json' path = GetPath json path.
Proof.
  revert json. induction environ as [|env environ IH]; intros json H Hq.
  { by injection H as <-. }
  rewrite applyEnvs_cons in H.
  assert (∀ env0 q, env0 ∈ environ → env_path env0 = Some q → ¬ overlaps q path)
    as Hq' by (intros ? ? ?; apply Hq; by right).
  pose proof (Hq env) as Henv. rewrite env_path_cons in Henv.
  destruct (IndexByte env "=") as [i|]; [|done].
  destruct (HasPrefix (take i env) "FILED_"); [|by apply IH].
  rewrite (IH _ H Hq'). apply GetPath_SetPath_other.
  apply Henv; [left | done].
Qed.

Lemma collect_map_lookup {E A} (m : gmap str (result E A)) (m' : gmap str A) :
  collect_map m = Ok m' →
  ∀ k r, m !! k = Some r → ∃ a, r = Ok a ∧ m' !! k = Some a.
Proof.
  unfold collect_map. revert m'.
  apply (map_fold_weak_ind (λ acc (m : gmap str (result E A)), ∀ m',
    acc = Ok m' → ∀ k r, m !! k = Some r → ∃ a, r = Ok a ∧ m' !! k = Some a)).
  - intros m' _ k r. by rewrite lookup_empty.
  - intros i x m0 acc Hi IH m' Hacc k r.
    destruct acc as [m1| | |]; simpl in Hacc; [|done..].
    destruct x as [a| | |]; simpl in Hacc; [|done..].
    injection Hacc as <-.
    destruct (decide (k = i)) as [->|Hk].
    + rewrite lookup_insert_eq. intros [= <-]. exists a. by rewrite lookup_insert_eq.
    + rewrite !lookup_insert_ne by done. by apply IH.
Qed.

Lemma applyVault_GetPath `{secreter V} (vault : V) path : ∀ json json' v,
  applyVault vault json = Ok json' →
  GetPath json path = JStr v →
  (path ≠ [] → is_reference (JStr v) = false) →
  GetPath json' path = JStr v.
Proof.
  induction path as [|b path IH]; intros json json' v Hvault Hget Href.
  { simpl in Hget. subst json. by injection Hvault as <-. }
  cbn [GetPath] in Hget |- *.
  destruct json as [| | | |l|m];
    try (unfold Get in Hget; simpl in Hget; by rewrite GetPath_JNull in Hget).
  unfold Get in Hget. cbn [Map] in Hget.
  destruct (m !! b) as [x|] eqn:Hb; simpl in Hget;
    [|by rewrite GetPath_JNull in Hget].
  cbn [applyVault] in Hvault.
  destruct (collect_map _) as [m'| | |] eqn:Hcollect; simpl in Hvault; [|done..].
  injection Hvault as <-.
  pose proof (collect_map_lookup _ _ Hcollect b) as Hlookup.
  rewrite lookup_fmap, Hb in Hlookup. simpl in Hlookup.
  destruct (Hlookup _ eq_refl) as (a & Ha & Hm').
  unfold Get. cbn [Map]. rewrite Hm'. simpl.
  assert (is_reference x = false) as Hx.
  { destruct x as [| | |s| |]; try done. destruct path as [|b' path].
    - simpl in Hget. injection Hget as ->. by apply Href.
    - cbn [GetPath] in Hget. unfold Get in Hget. simpl in Hget.
      by rewrite GetPath_JNull in Hget. }
  rewrite (tryGetSecret_not_reference vault x Hx) in Ha. simpl in Ha.
  apply (IH x a v Ha Hget). intros _. by apply Href.
Qed.

(** What a successful load is made of. *)
Lemma NewConfigFromFile_Ok `{secreter V} (newVault : str → str → option V)
    environ json config :
  NewConfigFromFile newVault environ json = Ok config →
  ∃ json1 config0,
    applyEnvs environ json = Ok json1
    ∧ parseConfig json1 = Ok config0
    ∧ Vault config = Vault config0
    ∧ (ShouldUse (Vault config0) = false → config = config0)
    ∧ (ShouldUse (Vault config0) = true →
       ∃ vault,
         collect_map ((λ p, (λ raw, {| Raw := raw |}) <$> applyVault vault (Raw p))
                        <$> Pipelines config0)
         = Ok (Pipelines config)).
Proof.
  unfold NewConfigFromFile.
  destruct (applyEnvs environ json) as [json1| | |] eqn:Henv; [|done..].
  destruct (parseConfig json1) as [config0| | |] eqn:Hparse; simpl; [|done..].
  destruct (ShouldUse (Vault config0)) eqn:Huse; simpl.
  - destruct (newVault _ _) as [vault|]; [|done].
    destruct (collect_map _) as [pipelines| | |] eqn:Hc; simpl; [|done..].
    intros [= <-]. exists json1, config0.
    split; [done|]. split; [done|]. split; [done|]. split; [intros ?; congruence|].
    intros _. by exists vault.
  - intros [= <-]. exists json1, config0.
    split; [done|]. split; [done|]. split; [done|]. split; [done|].
    intros ?. congruence.
Qed.

Lemma parseConfig_value json config :
  parseConfig json = Ok config →
  Address (Vault config) = default [] (String (GetPath json (lits ["vault"; "address"])))
  ∧ Token (Vault config) = default [] (String (GetPath json (lits ["vault"; "token"])))
  ∧ ∀ name rest v,
      GetPath json (lit "pipelines" :: name :: rest) = JStr v →
      ∃ pipeline, Pipelines config !! name = Some pipeline
                  ∧ GetPath (Raw pipeline) rest = JStr v.
Proof.
  unfold parseConfig. case_bool_decide; [done|]. intros [= <-]. cbn.
  split; [done|]. split; [done|].
  intros name rest v Hget. rewrite parseConfig_loop. cbn [GetPath] in Hget.
  set (pipelinesJson := Get json _) in *.
  assert (Get pipelinesJson name = default JNull (MustMap pipelinesJson !! name)) as Hname.
  { unfold Get, MustMap. by destruct (Map pipelinesJson). }
  rewrite Hname in Hget.
  destruct (MustMap pipelinesJson !! name) as [x|] eqn:Hx; simpl in Hget;
    [|by rewrite GetPath_JNull in Hget].
  eexists. split; [done|]. simpl. by rewrite Hname.
Qed.

Lemma applyEnvs_value before k v after json json1 :
  "="%char ∉ k →
  HasPrefix k "FILED_" = true →
  applyEnvs (before ++ (k ++ "="%char :: v) :: after) json = Ok json1 →
  (∀ env q, env ∈ after → env_path env = Some q →
            ¬ overlaps q (drop 1 (Split (ToLower k) "_"))) →
  GetPath json1 (drop 1 (Split (ToLower k) "_")) = JStr v.
Proof.
  intros Hk Hp Henv Hafter.
  rewrite (HasPrefix_FILED k Hp) in Hafter |- *.
  change (drop 1 (lit "filed" :: ?p)) with p in Hafter |- *.
  rewrite applyEnvs_app in Henv.
  destruct (applyEnvs before json) as [jsonB| | |]; [|discriminate Henv..].
  change (applyEnvs ((k ++ "="%char :: v) :: after) jsonB = Ok json1) in Henv.
  rewrite applyEnvs_prefixed in Henv by done.
  rewrite (applyEnvs_keeps_path _ _ _ _ Henv Hafter). apply GetPath_SetPath.
Qed.

Lemma parseConfig_vault_off json name rest v :
  GetPath json (lit "pipelines" :: name :: rest) = JStr v →
  default [] (String (GetPath json (lits ["vault"; "address"]))) = []
  ∨ default [] (String (GetPath json (lits ["vault"; "token"]))) = [] →
  ∃ config, parseConfig json = Ok config ∧ ShouldUse (Vault config) = false.
Proof.
  intros Hget Hoff. unfold parseConfig. cbn [GetPath] in Hget.
  set (pipelinesJson := Get json _) in *.
  assert (Get pipelinesJson name = default JNull (MustMap pipelinesJson !! name)) as Hname.
  { unfold Get, MustMap. by destruct (Map pipelinesJson). }
  rewrite Hname in Hget.
  destruct (MustMap pipelinesJson !! name) as [x|] eqn:Hx; simpl in Hget;
    [|by rewrite GetPath_JNull in Hget].
  rewrite bool_decide_eq_false_2.
  - eexists. split; [done|]. cbn. apply andb_false_iff.
    destruct Hoff as [Hoff|Hoff]; [left|right];
      apply bool_decide_eq_false; intros Hne; apply Hne; exact Hoff.
  - intros Hsize%map_size_empty_inv. by rewrite Hsize, lookup_empty in Hx.
Qed.

(** C5.  A variable whose name starts with [FILED_] sets, in the
    configuration that loading returns, the value at the path made of its
    lowercased name, cut at the underscores, without the leading [filed],
    to its value, a string: this holds when the path is one at which the
    configuration holds a value, no later variable of the environment
    writes to a path that begins this path or that this path begins, and,
    where the vault is in use and the path goes below a pipeline, the value
    is no reference to the vault.  Loading does return a configuration when
    the environment is read without error, the path goes below
    [pipelines] and the vault is not in use.  A variable without the
    prefix leaves the loaded configuration as it is without the
    variable. *)
Theorem NewConfigFromFile_env `{secreter V} (newVault : str → str → option V)
    (before : list str) (k v : str) (after : list str) (json : Json) :
  "="%char ∉ k →
  (HasPrefix k "FILED_" = true →
   (∀ env q, env ∈ after → env_path env = Some q →
             ¬ overlaps q (drop 1 (Split (ToLower k) "_"))) →
   (∀ config,
      NewConfigFromFile newVault (before ++ (k ++ "="%char :: v) :: after) json
      = Ok config →
      held (drop 1 (Split (ToLower k) "_")) →
      (ShouldUse (Vault config) = true →
       (2 < length (drop 1 (Split (ToLower k) "_")))%nat →
       is_reference (JStr v) = false) →
      config_value config (drop 1 (Split (ToLower k) "_")) = JStr v)
   ∧ (∀ json1 name rest,
        applyEnvs (before ++ (k ++ "="%char :: v) :: after) json = Ok json1 →
        drop 1 (Split (ToLower k) "_") = lit "pipelines" :: name :: rest →
        default [] (String (GetPath json1 (lits ["vault"; "address"]))) = []
        ∨ default [] (String (GetPath json1 (lits ["vault"; "token"]))) = [] →
        ∃ config,
          NewConfigFromFile newVault (before ++ (k ++ "="%char :: v) :: after) json
          = Ok config))
  ∧ (HasPrefix k "FILED_" = false →
     NewConfigFromFile newVault (before ++ (k ++ "="%char :: v) :: after) json
     = NewConfigFromFile newVault (before ++ after) json).
Proof.
  intros Hk. split.
  - intros Hp Hafter. split.
    + intros config Hload Hheld Hvault.
      apply NewConfigFromFile_Ok in Hload
        as (json1 & config0 & Henv & Hparse & HV & Hoff & Hon).
      pose proof (applyEnvs_value _ _ _ _ _ _ Hk Hp Henv Hafter) as Hget.
      destruct (parseConfig_value _ _ Hparse) as (HA & HT & HP).
      destruct Hheld as [(name & rest & Hpath)|[Hpath|Hpath]];
        rewrite Hpath in Hget, Hvault |- *.
      * destruct (HP name rest v Hget) as (p0 & Hp0 & Hraw).
        unfold config_value. rewrite decide_True by done.
        destruct (ShouldUse (Vault config0)) eqn:Huse.
        -- destruct (Hon eq_refl) as [vault Hc].
           pose proof (collect_map_lookup _ _ Hc name) as Hl.
           rewrite lookup_fmap, Hp0 in Hl.
           destruct (Hl _ eq_refl) as (p' & Hp' & ->).
           destruct (applyVault vault (Raw p0)) as [raw| | |] eqn:Hraw';
             simpl in Hp'; [|done..].
           injection Hp' as <-. cbn [Raw].
           apply (applyVault_GetPath vault rest (Raw p0) raw v Hraw' Hraw).
           intros Hrest. apply Hvault; [by rewrite HV|].
           destruct rest; [done|]. simpl. lia.
        -- rewrite (Hoff eq_refl), Hp0. done.
      * unfold config_value. simpl. by rewrite HV, HA, Hget.
      * unfold config_value. simpl. by rewrite HV, HT, Hget.
    + intros json1 name rest Henv Hpath Hoff.
      pose proof (applyEnvs_value _ _ _ _ _ _ Hk Hp Henv Hafter) as Hget.
      rewrite Hpath in Hget.
      destruct (parseConfig_vault_off _ _ _ _ Hget Hoff) as (config & Hparse & Huse).
      exists config. unfold NewConfigFromFile. rewrite Henv, Hparse. simpl.
      by rewrite Huse.
  - intros Hp. unfold NewConfigFromFile.
    rewrite !applyEnvs_app.
    destruct (applyEnvs before json) as [jsonB| | |]; [|done..].
    change (Ok jsonB ≫= applyEnvs ((k ++ "="%char :: v) :: after))
      with (applyEnvs ((k ++ "="%char :: v) :: after) jsonB).
    by rewrite applyEnvs_other.
Qed.

Lemma NewConfigFromFile_env_witness :
  ("="%char ∉ lit "FILED_PIPELINES_MAIN_OUTPUT_TYPE")
  ∧ HasPrefix "FILED_PIPELINES_MAIN_OUTPUT_TYPE" "FILED_" = true
  ∧ NewConfigFromFile (λ _ _, @None ()) output_environ one_pipeline = Ok output_config
  ∧ config_value output_config (lits ["pipelines"; "main"; "output"; "type"])
    = JStr "stdout"
  ∧ ∃ config,
      NewConfigFromFile (λ _ _, @None ())
        ([lit "HOME=/root"]
           ++ ("FILED_PIPELINES_MAIN_OUTPUT_TYPE" ++ "="%char :: "stdout")
           :: [lit "FILED_VAULT_TOKEN=t"]) one_pipeline
      = Ok config.
Proof.
  assert ("="%char ∉ lit "FILED_PIPELINES_MAIN_OUTPUT_TYPE") as Hk by by_compute.
  assert (∀ env q, env ∈ [lit "FILED_VAULT_TOKEN=t"] → env_path env = Some q →
            ¬ overlaps q (drop 1 (Split (ToLower "FILED_PIPELINES_MAIN_OUTPUT_TYPE") "_")))
    as Hafter.
  { intros env q Henv. apply elem_of_cons in Henv as [->|Henv];
      [|by apply elem_of_nil in Henv].
    intros [= <-] [Hpre|Hpre]; apply prefix_cons_inv_1 in Hpre; discriminate Hpre. }
  destruct (proj1 (NewConfigFromFile_env (λ _ _, @None ()) [lit "HOME=/root"]
                     "FILED_PIPELINES_MAIN_OUTPUT_TYPE" "stdout"
                     [lit "FILED_VAULT_TOKEN=t"] one_pipeline Hk) eq_refl Hafter)
    as [Hvalue Hloads].
  split; [done|]. split; [reflexivity|]. split; [vm_compute; reflexivity|]. split.
  - apply (Hvalue output_config).
    + vm_compute. reflexivity.
    + left. by exists (lit "main"), (lits ["output"; "type"]).
    + intros Huse. discriminate Huse.
  - apply (Hloads (SetPath (SetPath one_pipeline
                     (lits ["pipelines"; "main"; "output"; "type"]) (JStr "stdout"))
                     (lits ["vault"; "token"]) (JStr "t"))
             (lit "main") (lits ["output"; "type"])).
    + vm_compute. reflexivity.
    + reflexivity.
    + left. reflexivity.
Defined.

(** The override as it is worded fails for two variables of which one
    writes below the path of the other, in either order: the later one
    wins, and the value of the earlier one is no longer at its path. *)
Lemma env_overrides_overlap :
  ¬ env_overrides (λ _ _, @None ())
      (lits ["FILED_PIPELINES_MAIN_A_B=1"; "FILED_PIPELINES_MAIN_A=2"]) (JMap ∅)
  ∧ ¬ env_overrides (λ _ _, @None ())
        (lits ["FILED_PIPELINES_MAIN_A=2"; "FILED_PIPELINES_MAIN_A_B=1"]) (JMap ∅).
Proof.
  split; intros Hclaim.
  - specialize (Hclaim _ eq_refl (lit "FILED_PIPELINES_MAIN_A_B=1")
                  (lits ["pipelines"; "main"; "a"; "b"])).
    assert (JNull = JStr "1") as Habs; [|discriminate Habs].
    apply Hclaim; [left | reflexivity].
  - specialize (Hclaim _ eq_refl (lit "FILED_PIPELINES_MAIN_A=2")
                  (lits ["pipelines"; "main"; "a"])).
    assert (JMap {[ lit "b" := JStr "1" ]} = JStr "2") as Habs; [|discriminate Habs].
    apply Hclaim; [left | reflexivity].
Qed.

End LoadingProperties.

(** ** The clickhouse output, further *)

Module OutputProperties.
Import GoStrings GoInt Clickhouse Described Shapes Examples.

Section out.
Variable time_Format_RFC3339 : Z → str.
Variable runeCount : str → nat.
Variable exec_fails : nat → bool.

Abbreviation out := (Clickhouse.out time_Format_RFC3339 runeCount exec_fails).
Abbreviation out_events := (Clickhouse.out_events time_Format_RFC3339 runeCount).
Abbreviation out_retry := (Clickhouse.out_retry exec_fails).
Abbreviation processEvent := (Clickhouse.processEvent time_Format_RFC3339 runeCount).
Abbreviation processEvent_loop :=
  (Clickhouse.processEvent_loop time_Format_RFC3339 runeCount).
Abbreviation addFieldToValues :=
  (Clickhouse.addFieldToValues time_Format_RFC3339 runeCount).
Abbreviation column_value := (Shapes.column_value time_Format_RFC3339 runeCount).
Abbreviation row_of := (Shapes.row_of time_Format_RFC3339 runeCount).
Abbreviation rows_of := (Shapes.rows_of time_Format_RFC3339 runeCount).
Abbreviation discards := (Shapes.discards time_Format_RFC3339 runeCount).

(** *** The values of an event *)

Lemma processEvent_loop_cons event field chFields fieldValues :
  processEvent_loop event (field :: chFields) fieldValues
  = match column_value event field with
    | inl err => inl err
    | inr lVal => processEvent_loop event chFields (fieldValues ++ [lVal])
    end.
Proof.
  cbn [Clickhouse.processEvent_loop]. unfold Shapes.column_value.
  by destruct (DigStrict event (Name field)).
Qed.

Lemma processEvent_loop_inr event chFields fieldValues values :
  processEvent_loop event chFields fieldValues = inr values
  ↔ ∃ values', values = fieldValues ++ values'
      ∧ Forall2 (λ field lVal, column_value event field = inr lVal) chFields values'.
Proof.
  revert fieldValues. induction chFields as [|field chFields IH]; intros fieldValues.
  - simpl. split.
    + intros [= <-]. exists []. by rewrite app_nil_r.
    + intros (values' & -> & ->%Forall2_nil_inv_l). by rewrite app_nil_r.
  - rewrite processEvent_loop_cons. split.
    + destruct (column_value event field) as [err|lVal] eqn:Hfield; [done|].
      intros (values' & -> & Hrest)%IH. exists (lVal :: values').
      split; [by rewrite <- app_assoc|]. by constructor.
    + intros (values' & -> & Hall).
      apply Forall2_cons_inv_l in Hall as (lVal & rest & Hfield & Hrest & ->).
      rewrite Hfield. apply IH. exists rest. split; [by rewrite <- app_assoc|done].
Qed.

(** X21.  [processEvent] accepts an event exactly when every column finds its
    field in the event and gets a value from it, and the row is then these
    values, one per column, in the order of the columns. *)
Theorem processEvent_row event chFields values :
  processEvent event chFields = inr values
  ↔ Forall2 (λ field lVal, column_value event field = inr lVal) chFields values.
Proof.
  unfold Clickhouse.processEvent. rewrite processEvent_loop_inr. split.
  - by intros (values' & -> & Hall).
  - intros Hall. by exists values.
Qed.

Lemma processEvent_loop_first_error event good field rest fieldValues err :
  Forall (λ field, ∃ lVal, column_value event field = inr lVal) good →
  column_value event field = inl err →
  processEvent_loop event (good ++ field :: rest) fieldValues = inl err.
Proof.
  intros Hgood Hfield. revert fieldValues.
  induction Hgood as [|g good [lVal Hg] _ IH]; intros fieldValues.
  - simpl app. by rewrite processEvent_loop_cons, Hfield.
  - rewrite <- app_comm_cons, processEvent_loop_cons, Hg. apply IH.
Qed.

(** X22.  [processEvent] rejects an event with the error of the first column,
    in the order of the columns, that has no value for it: the missing-field
    error when the event lacks the field of that column, the error of
    [addFieldToValues] otherwise; no later column is looked at. *)
Theorem processEvent_first_error event good field rest err :
  Forall (λ field, ∃ lVal, column_value event field = inr lVal) good →
  column_value event field = inl err →
  processEvent event (good ++ field :: rest) = inl err
  ∧ (DigStrict event (Name field) = None → err = ErrEventDoesntHaveField)
  ∧ (∀ fieldNode, DigStrict event (Name field) = Some fieldNode →
                  addFieldToValues field fieldNode = inl err).
Proof.
  intros Hgood Hfield. split; [by apply processEvent_loop_first_error|].
  unfold Shapes.column_value in Hfield. split.
  - intros Hdig. rewrite Hdig in Hfield. by injection Hfield as <-.
  - intros fieldNode Hdig. by rewrite Hdig in Hfield.
Qed.

(** *** The batch *)

Lemma out_events_cons config event events rows :
  out_events config (event :: events) rows
  = match row_of config event with
    | Some fieldValues => out_events config events (rows ++ [fieldValues])
    | None =>
        if Strict config then ([DiscardedInc; LogFatal], None)
        else (DiscardedInc :: LogError :: (out_events config events rows).1,
              (out_events config events rows).2)
    end.
Proof.
  cbn [Clickhouse.out_events]. unfold Shapes.row_of.
  destruct (processEvent event (Columns config)) as [err|fieldValues]; [|done].
  destruct (out_events config events rows) as [t r].
  by destruct err.
Qed.

Lemma out_events_not_strict config events rows :
  Strict config = false →
  out_events config events rows = (discards config events, Some (rows ++ rows_of config events)).
Proof.
  intros Hstrict. revert rows. induction events as [|event events IH]; intros rows.
  { simpl. by rewrite app_nil_r. }
  rewrite out_events_cons, Hstrict. unfold Shapes.discards, Shapes.rows_of.
  rewrite fmap_cons. cbn [omap list_omap].
  change (mjoin (?a :: ?b)) with (a ++ mjoin b).
  destruct (row_of config event) as [fieldValues|] eqn:Hrow.
  - rewrite IH. unfold Shapes.discards, Shapes.rows_of. by rewrite <- app_assoc.
  - by rewrite IH.
Qed.

Lemma out_events_strict config events rows :
  Strict config = true →
  out_events config events rows
  = if decide (Forall (λ event, is_Some (row_of config event)) events)
    then ([], Some (rows ++ rows_of config events))
    else ([DiscardedInc; LogFatal], None).
Proof.
  intros Hstrict. revert rows. induction events as [|event events IH]; intros rows.
  { cbn [Clickhouse.out_events]. rewrite decide_True by done.
    unfold Shapes.rows_of. simpl. by rewrite app_nil_r. }
  rewrite out_events_cons, Hstrict. unfold Shapes.rows_of. cbn [omap list_omap].
  destruct (row_of config event) as [fieldValues|] eqn:Hrow.
  - rewrite IH. destruct (decide (Forall _ events)) as [Hall|Hall].
    + rewrite decide_True by (constructor; [by rewrite Hrow|done]).
      unfold Shapes.rows_of. by rewrite <- app_assoc.
    + rewrite decide_False; [done|]. by intros [_ ?]%Forall_cons.
  - rewrite decide_False; [done|]. intros [[? Hsome] _]%Forall_cons.
    by rewrite Hrow in Hsome.
Qed.

Lemma length_discards config events :
  (length (discards config events) + 2 * length (rows_of config events)
   = 2 * length events)%nat.
Proof.
  unfold Shapes.discards, Shapes.rows_of.
  induction events as [|event events IH]; [done|].
  rewrite fmap_cons. cbn [omap list_omap].
  change (mjoin (?a :: ?b)) with (a ++ mjoin b).
  rewrite length_app. destruct (row_of config event); cbn [length]; lia.
Qed.

(** X23.  When the plugin is not strict and no event of the batch is
    accepted, an empty batch included, [out] counts and logs each event as
    discarded and returns: nothing is sent to the database and nothing is
    counted as written. *)
Theorem out_no_valid_event config events :
  Strict config = false →
  rows_of config events = [] →
  out config events
  = (mjoin (replicate (length events) [DiscardedInc; LogError]), true).
Proof.
  intros Hstrict Hrows. unfold Clickhouse.out.
  rewrite out_events_not_strict, Hrows by done. simpl. f_equal.
  unfold Shapes.rows_of in Hrows. unfold Shapes.discards.
  induction events as [|event events IH]; [done|].
  cbn [omap list_omap] in Hrows. rewrite fmap_cons. simpl.
  destruct (row_of config event); [done|]. simpl. by rewrite IH.
Qed.

(** X24.  When the plugin is not strict and the first attempt succeeds, the
    insert holds the rows of the accepted events only, in their order,
    while the counter of written events is increased by the number of all
    events of the batch, the discarded ones included. *)
Theorem out_written_counts_batch config events :
  Strict config = false →
  rows_of config events ≠ [] →
  0 < Retry config →
  exec_fails 0%nat = false →
  out config events
  = (discards config events
       ++ [ExecContext (rows_of config events) (DBRequestTimeout_ config);
           WrittenAdd (length events)], true)
  ∧ (length (discards config events) + 2 * length (rows_of config events)
     = 2 * length events)%nat.
Proof.
  intros Hstrict Hrows Hretry Hexec. split; [|apply length_discards].
  unfold Clickhouse.out. rewrite out_events_not_strict by done. simpl.
  rewrite decide_False by (by intros ?%nil_length_inv).
  destruct (Z.to_nat (Retry config)) as [|n] eqn:Hn; [lia|].
  cbn [Clickhouse.out_retry]. by rewrite Hexec.
Qed.

(** X25.  When the plugin is strict, one event of the batch that is not
    accepted ends the process: the event is counted as discarded, the error
    is logged as fatal, and nothing is sent to the database, not even the
    rows of the events accepted before it. *)
Theorem out_strict config events event :
  Strict config = true →
  event ∈ events →
  row_of config event = None →
  out config events = ([DiscardedInc; LogFatal], false).
Proof.
  intros Hstrict Hin Hrow. unfold Clickhouse.out.
  rewrite out_events_strict by done.
  rewrite decide_False; [done|]. rewrite Forall_forall. intros Hall.
  destruct (Hall event Hin) as [? Hsome]. by rewrite Hrow in Hsome.
Qed.

(** X26.  The check of [Start] on [Retry] is what makes [out] try the insert:
    with a configuration that [Start] accepts, a batch with an accepted
    event is sent to the database at least once, with the rows of the
    accepted events and a positive time limit; with [Retry] below 1, which
    [Start] refuses, [out] returns without sending it. *)
Theorem out_after_Start config events t rows :
  out_events config events [] = (t, Some rows) →
  rows ≠ [] →
  (Start_checks config = Ok () →
   0 < DBRequestTimeout_ config
   ∧ ∃ t', (out config events).1 = t ++ ExecContext rows (DBRequestTimeout_ config) :: t')
  ∧ (Retry config < 1 → Start_checks config = Fatal ∧ out config events = (t, true)).
Proof.
  intros Hevents Hrows. unfold Clickhouse.out. rewrite Hevents.
  rewrite decide_False by (by intros ?%nil_length_inv). split.
  - unfold Start_checks. repeat case_decide; try done. intros _. split; [lia|].
    destruct (Z.to_nat (Retry config)) as [|n] eqn:Hn; [lia|].
    cbn [Clickhouse.out_retry]. destruct (exec_fails 0).
    + destruct (out_retry config rows (length events) n 1 true) as [t' err].
      destruct err; simpl; eexists; by rewrite <- ?app_assoc.
    + simpl. by eexists.
  - intros Hretry. split.
    + unfold Start_checks. by repeat case_decide.
    + replace (Z.to_nat (Retry config)) with 0%nat by lia. simpl.
      by rewrite app_nil_r.
Qed.

(** *** Timestamps out of range *)

Lemma out_retry_rows config rows batch_len i : ∀ n err rows' timeout,
  ExecContext rows' timeout ∈ (out_retry config rows batch_len i n err).1 → rows' = rows.
Proof.
  induction i as [|i IH]; intros n err rows' timeout; cbn [Clickhouse.out_retry].
  - by intros ?%elem_of_nil.
  - destruct (exec_fails n).
    + specialize (IH (S n) true rows' timeout).
      destruct (out_retry config rows batch_len i (S n) true) as [t e]. cbn [fst] in *.
      rewrite !elem_of_cons. intros [Heq|[?|[?|Hin]]]; [by injection Heq|done..|by apply IH].
    + cbn [fst]. rewrite !elem_of_cons.
      intros [Heq|[?|Hin]]; [by injection Heq|done|by apply elem_of_nil in Hin].
Qed.

Lemma rows_of_app config events1 events2 :
  rows_of config (events1 ++ events2) = rows_of config events1 ++ rows_of config events2.
Proof. unfold Shapes.rows_of. apply omap_app. Qed.

Lemma discards_app config events1 events2 :
  discards config (events1 ++ events2) = discards config events1 ++ discards config events2.
Proof. unfold Shapes.discards. by rewrite fmap_app, join_app. Qed.

(** C10.  On a timestamp column [addFieldToValues] returns the error of the
    distant past or future exactly when the field holds an integer below 0
    or above 221842627200; an integer in between is formatted as RFC 3339
    from Unix seconds.  An event with an integer out of the range, wherever
    it stands in the batch, is not inserted by [out]: in strict mode [out]
    ends the process without sending anything; otherwise it counts and
    logs the event as discarded, and every insert that it attempts carries
    the rows of the other events only. *)
Theorem out_timestamp field node :
  ColType field = chTimestamp →
  (addFieldToValues field node = inl ErrTimestampFromDistantPastOrFuture
     ↔ ∃ tint, AsInt node = Some tint ∧ (tint < 0 ∨ tint > 221842627200))
  ∧ (∀ tint, AsInt node = Some tint → 0 ≤ tint ≤ 221842627200 →
       addFieldToValues field node = inr (AString (time_Format_RFC3339 tint)))
  ∧ (∀ tint, AsInt node = Some tint → tint < 0 ∨ tint > 221842627200 →
     ∀ config pre event post,
       field ∈ Columns config →
       DigStrict event (Name field) = Some node →
       (Strict config = true →
        out config (pre ++ event :: post) = ([DiscardedInc; LogFatal], false))
       ∧ (Strict config = false →
          rows_of config (pre ++ event :: post)
          = rows_of config pre ++ rows_of config post
          ∧ ∃ t',
              (out config (pre ++ event :: post)).1
              = discards config pre ++ [DiscardedInc; LogError]
                  ++ discards config post ++ t'
              ∧ ∀ rows timeout,
                  ExecContext rows timeout ∈ t' →
                  rows = rows_of config pre ++ rows_of config post)).
Proof.
  intros Htype.
  destruct (ClickhouseFacts.addFieldToValues_timestamp time_Format_RFC3339 runeCount
              field node Htype) as (H1 & H2 & _).
  split; [done|]. split; [done|].
  intros tint Hint Hrange config pre event post Hfield Hdig.
  assert (row_of config event = None) as Hrow.
  { unfold Shapes.row_of, Clickhouse.processEvent.
    destruct (ClickhouseFacts.processEvent_loop_error time_Format_RFC3339 runeCount
                event (Columns config) [] field node
                ErrTimestampFromDistantPastOrFuture Hfield Hdig) as [err' ->]; [|done].
    apply H1. by exists tint. }
  assert (rows_of config (pre ++ event :: post)
          = rows_of config pre ++ rows_of config post) as Hrows.
  { rewrite rows_of_app. f_equal. unfold Shapes.rows_of. cbn [omap list_omap].
    by rewrite Hrow. }
  assert (discards config (pre ++ event :: post)
          = discards config pre ++ [DiscardedInc; LogError] ++ discards config post)
    as Hdiscards.
  { rewrite discards_app. f_equal. unfold Shapes.discards. rewrite fmap_cons.
    change (mjoin (?a :: ?b)) with (a ++ mjoin b). by rewrite Hrow. }
  split.
  - intros Hstrict. unfold Clickhouse.out. rewrite out_events_strict by done.
    rewrite decide_False; [done|]. intros Hall.
    apply Forall_app in Hall as [_ [[? Hsome] _]%Forall_cons].
    by rewrite Hrow in Hsome.
  - intros Hstrict. split; [done|].
    unfold Clickhouse.out. rewrite out_events_not_strict by done.
    rewrite Hrows, Hdiscards. cbn [app].
    set (rows := rows_of config pre ++ rows_of config post).
    set (d := discards config pre ++ DiscardedInc :: LogError :: discards config post).
    assert (d = discards config pre ++ [DiscardedInc; LogError] ++ discards config post)
      as Hd by done.
    case_decide as Hlen.
    { exists []. cbn [fst]. split; [by rewrite app_nil_r|]. by intros ? ? ?%elem_of_nil. }
    pose proof (out_retry_rows config rows (length (pre ++ event :: post))
                  (Z.to_nat (Retry config)) 0 false) as Hexec.
    destruct (out_retry config rows (length (pre ++ event :: post))
                (Z.to_nat (Retry config)) 0 false) as [t' err].
    cbn [fst] in Hexec. destruct err; cbn [fst].
    + exists (t' ++ [PoolClose; LogFatal]). split.
      * rewrite Hd. by rewrite <- !app_assoc.
      * intros rows' timeout [Hin|Hin]%elem_of_app; [by eapply Hexec|].
        apply elem_of_cons in Hin as [?|Hin]; [done|].
        apply elem_of_cons in Hin as [?|Hin]; [done|]. by apply elem_of_nil in Hin.
    + exists t'. split; [|done]. rewrite Hd. by rewrite <- !app_assoc.
Qed.

(** *** Time strings *)

Lemma digits_bound t : ∀ acc un,
  0 ≤ acc → digits 10 acc t = Some un →
  acc * 10 ^ Z.of_nat (length t) ≤ un < (acc + 1) * 10 ^ Z.of_nat (length t).
Proof.
  induction t as [|c t IH]; intros acc un Hacc.
  - simpl. intros [= <-]. lia.
  - cbn [digits]. unfold digit. case_bool_decide as Hc; [|done]. simpl.
    case_bool_decide as Hd; [|done]. intros Hun%IH; [|lia].
    cbn [length]. rewrite Nat2Z.inj_succ, Z.pow_succ_r by lia.
    pose proof (Z.pow_pos_nonneg 10 (Z.of_nat (length t))). nia.
Qed.

Lemma ParseInt_three_bytes t n :
  ParseInt t 10 16 = Some n → (length t ≤ 3)%nat → -99 ≤ n ≤ 999.
Proof.
  intros Hparse Hlen.
  assert (∀ body un, (length body ≤ 3)%nat → digits 10 0 body = Some un →
                     0 ≤ un < 10 ^ Z.of_nat (length body)) as Hbody.
  { intros body un _ Hun%digits_bound; [|done]. lia. }
  assert (∀ k, (k ≤ 2)%nat → 10 ^ Z.of_nat k ≤ 100) as H2.
  { intros k Hk. change 100 with (10 ^ 2). apply Z.pow_le_mono_r; lia. }
  assert (∀ k, (k ≤ 3)%nat → 10 ^ Z.of_nat k ≤ 1000) as H3.
  { intros k Hk. change 1000 with (10 ^ 3). apply Z.pow_le_mono_r; lia. }
  unfold ParseInt in Hparse. destruct t as [|c t]; [done|].
  simpl in Hlen.
  destruct (decide (c = "+"%char)) as [->|Hplus].
  - destruct t as [|d t]; [done|].
    destruct (digits 10 0 (d :: t)) as [un|] eqn:Hun; [|done]. simpl in Hparse.
    apply Hbody in Hun; [|simpl in *; lia].
    pose proof (H2 (length (d :: t))) as Hle. simpl in Hle, Hlen.
    case_bool_decide; [|done]. injection Hparse as <-. simpl in Hun. lia.
  - destruct (decide (c = "-"%char)) as [->|Hminus].
    + destruct t as [|d t]; [done|].
      destruct (digits 10 0 (d :: t)) as [un|] eqn:Hun; [|done]. simpl in Hparse.
      apply Hbody in Hun; [|simpl in *; lia].
      pose proof (H2 (length (d :: t))) as Hle. simpl in Hle, Hlen.
      case_bool_decide; [|done]. injection Hparse as <-. simpl in Hun. lia.
    + destruct (digits 10 0 (c :: t)) as [un|] eqn:Hun; [|done]. simpl in Hparse.
      apply Hbody in Hun; [|simpl in *; lia].
      pose proof (H3 (length (c :: t))) as Hle. simpl in Hle.
      case_bool_decide; [|done]. injection Hparse as <-. simpl in Hun. lia.
Qed.

(** X27.  For a column of type milliseconds the value is read from the bytes
    20 to 22 of the string as a decimal number with an optional sign: it
    lies between -99 and 999, so the conversion to a 16-bit integer never
    changes it. *)
Theorem addFieldToValues_milliseconds field node v :
  ColType field = chMilliseconds →
  addFieldToValues field node = inr v →
  ∃ s n, AsString node = Some s
    ∧ (23 ≤ runeCount s)%nat
    ∧ ParseInt (slice s 20 23) 10 16 = Some n
    ∧ v = AInt16 n
    ∧ -99 ≤ n ≤ 999.
Proof.
  intros Htype. unfold Clickhouse.addFieldToValues. rewrite Htype.
  destruct (AsString node) as [s|]; [|done].
  case_bool_decide as Hlen; [done|].
  destruct (ParseInt (slice s 20 23) 10 16) as [n|] eqn:Hn; [|done].
  assert (-99 ≤ n ≤ 999) as Hrange.
  { apply (ParseInt_three_bytes _ _ Hn). unfold slice. rewrite length_take. lia. }
  intros [= <-]. exists s, n. split; [done|]. split; [lia|]. done.
Qed.

End out.


Lemma out_timestamp_witness :
  ColType ts_column = chTimestamp
  ∧ Clickhouse.addFieldToValues (λ _, epoch) length ts_column (NNumber 221842627201)
    = inl ErrTimestampFromDistantPastOrFuture
  ∧ Clickhouse.out (λ _, epoch) length (λ _, false) (ts_config true)
      ([ts_event 0] ++ ts_event 221842627201 :: [ts_event 1])
    = ([DiscardedInc; LogFatal], false)
  ∧ Clickhouse.out (λ _, epoch) length (λ _, false) (ts_config false)
      ([ts_event 0] ++ ts_event 221842627201 :: [ts_event 1])
    = ([DiscardedInc; LogError;
        ExecContext [[AString epoch]; [AString epoch]] (3000 * millisecond);
        WrittenAdd 3], true).
Proof.
  destruct (out_timestamp (λ _, epoch) length (λ _, false) ts_column
              (NNumber 221842627201) eq_refl) as (H1 & _ & H3).
  split; [reflexivity|]. split.
  { apply H1. exists 221842627201. split; [reflexivity | right; reflexivity]. }
  split; [|reflexivity].
  apply (H3 221842627201 eq_refl (or_intror eq_refl) (ts_config true)
           [ts_event 0] (ts_event 221842627201) [ts_event 1]).
  - left.
  - reflexivity.
  - reflexivity.
Defined.

Lemma processEvent_first_error_witness :
  Clickhouse.processEvent (λ _, epoch) length (ts_event 0)
    ([ts_column] ++ {| Name := "level"; ColType := chString |} :: [ts_column])
  = inl ErrEventDoesntHaveField.
Proof.
  apply (processEvent_first_error (λ _, epoch) length (ts_event 0) [ts_column]
           {| Name := "level"; ColType := chString |} [ts_column]
           ErrEventDoesntHaveField).
  - constructor; [|constructor]. by eexists.
  - reflexivity.
Defined.

Lemma out_no_valid_event_witness :
  Clickhouse.out (λ _, epoch) length (λ _, true) (ts_config false)
    [ts_event (-1); ts_event 221842627201]
  = ([DiscardedInc; LogError; DiscardedInc; LogError], true).
Proof.
  exact (out_no_valid_event (λ _, epoch) length (λ _, true) (ts_config false)
           [ts_event (-1); ts_event 221842627201] eq_refl eq_refl).
Defined.

Lemma out_written_counts_batch_witness :
  Clickhouse.out (λ _, epoch) length (λ _, false) (ts_config false)
    [ts_event (-1); ts_event 0]
  = ([DiscardedInc; LogError; ExecContext ts_rows (3000 * millisecond); WrittenAdd 2],
     true).
Proof.
  assert (Shapes.rows_of (λ _, epoch) length (ts_config false)
            [ts_event (-1); ts_event 0] ≠ []) as H by done.
  assert (0 < Retry (ts_config false)) as Hretry by done.
  exact (proj1 (out_written_counts_batch (λ _, epoch) length (λ _, false)
                  (ts_config false) [ts_event (-1); ts_event 0]
                  eq_refl H Hretry eq_refl)).
Defined.

Lemma out_strict_witness :
  Clickhouse.out (λ _, epoch) length (λ _, false) (ts_config true)
    [ts_event 0; ts_event (-1); ts_event 1]
  = ([DiscardedInc; LogFatal], false).
Proof.
  assert (ts_event (-1) ∈ [ts_event 0; ts_event (-1); ts_event 1]) as H
    by (right; left).
  exact (out_strict (λ _, epoch) length (λ _, false) (ts_config true)
           [ts_event 0; ts_event (-1); ts_event 1] (ts_event (-1))
           eq_refl H eq_refl).
Defined.

Lemma out_after_Start_witness :
  Start_checks (ts_config false) = Ok ()
  ∧ 0 < DBRequestTimeout_ (ts_config false)
  ∧ ∃ t', (Clickhouse.out (λ _, epoch) length (λ _, true) (ts_config false)
             [ts_event 0]).1
          = [] ++ ExecContext ts_rows (DBRequestTimeout_ (ts_config false)) :: t'.
Proof.
  assert (ts_rows ≠ []) as H by done.
  split; [reflexivity|].
  exact (proj1 (out_after_Start (λ _, epoch) length (λ _, true) (ts_config false)
                  [ts_event 0] [] ts_rows eq_refl H) eq_refl).
Defined.

Lemma addFieldToValues_milliseconds_witness :
  Clickhouse.addFieldToValues (λ _, epoch) length
    {| Name := "ms"; ColType := chMilliseconds |}
    (NString "2023-01-02 03:04:05.678")
  = inr (AInt16 678)
  ∧ ∃ s n, AsString (NString "2023-01-02 03:04:05.678") = Some s
      ∧ (23 ≤ length s)%nat
      ∧ ParseInt (slice s 20 23) 10 16 = Some n
      ∧ AInt16 678 = AInt16 n
      ∧ -99 ≤ n ≤ 999.
Proof.
  split; [reflexivity|].
  exact (addFieldToValues_milliseconds (λ _, epoch) length
           {| Name := "ms"; ColType := chMilliseconds |}
           (NString "2023-01-02 03:04:05.678") (AInt16 678) eq_refl eq_refl).
Defined.

End OutputProperties.

(** ** Signals, further *)

Module SignalProperties.
Import Main Shapes Examples.

Lemma handle_restarts a :
  restarts a = true →
  handle a = ([LogInfo "SIGHUP received"; Stop (second * 3); Cancel; Start], Running).
Proof.
  unfold restarts, handle. destruct (sig a); [|done..].
  by intros [->%negb_true_iff ->%negb_true_iff]%andb_true_iff.
Qed.

Lemma handle_exits a :
  restarts a = false → ∃ code, (handle a).2 = Exited code.
Proof.
  unfold restarts, handle.
  destruct (sig a), (stop_fails a), (start_fails a); try done; by eexists.
Qed.

Lemma handle_stops a : (handle a).2 = Exited 0 ↔ stops a = true.
Proof.
  unfold stops, handle.
  destruct (sig a), (stop_fails a), (start_fails a); by split.
Qed.

Lemma listenSignals_cons a arrivals :
  listenSignals (a :: arrivals)
  = if restarts a
    then ((handle a).1 ++ (listenSignals arrivals).1, (listenSignals arrivals).2)
    else handle a.
Proof.
  cbn [listenSignals]. destruct (restarts a) eqn:Ha.
  - rewrite (handle_restarts a Ha). by destruct (listenSignals arrivals).
  - destruct (handle_exits a Ha) as [code Hcode].
    destruct (handle a) as [t st]. simpl in Hcode. by subst.
Qed.

Lemma listenSignals_restarted pre arrivals :
  Forall (λ a, restarts a = true) pre →
  listenSignals (pre ++ arrivals)
  = (restarted (length pre) ++ (listenSignals arrivals).1, (listenSignals arrivals).2).
Proof.
  intros Hpre. induction Hpre as [|a0 pre Ha0 _ IH].
  - simpl. by destruct (listenSignals arrivals).
  - rewrite <- app_comm_cons, listenSignals_cons, Ha0, IH, (handle_restarts a0 Ha0).
    cbn [fst snd length].
    assert (restarted (S (length pre))
            = [LogInfo "SIGHUP received"; Stop (second * 3); Cancel; Start]
                ++ restarted (length pre)) as -> by reflexivity.
    by rewrite <- app_assoc.
Qed.

(** C6.  Whenever a signal arrives while the daemon runs (after any number
    of restarts): on SIGINT or SIGTERM [listenSignals] stops the pipelines
    with a deadline of three seconds and, the stop succeeding, the process
    exits with code 0, no later signal being handled; on SIGHUP it stops
    them with the same deadline and then starts a fresh instance instead
    of exiting, and goes on with the next signal when the start returns; a
    stop that fails ends the process with a non-zero code, nothing being
    started. *)
Theorem listenSignals_signal (pre : list arrival) (a : arrival) (post : list arrival) :
  Forall (λ a, restarts a = true) pre →
  (sig a = SIGINT ∨ sig a = SIGTERM →
   stop_fails a = false →
   listenSignals (pre ++ a :: post)
   = (restarted (length pre)
        ++ [LogInfo "SIGTERM or SIGINT received"; Stop 3000000000; Cancel;
            ExitSend; LogInfo "see you soon..."], Exited 0))
  ∧ (sig a = SIGHUP →
     stop_fails a = false →
     ∃ t st,
       listenSignals (pre ++ a :: post)
       = (restarted (length pre)
            ++ [LogInfo "SIGHUP received"; Stop 3000000000; Cancel; Start] ++ t, st)
       ∧ (start_fails a = false → (t, st) = listenSignals post)
       ∧ (start_fails a = true → t = [] ∧ ∃ code, st = Exited code ∧ code ≠ 0))
  ∧ (stop_fails a = true →
     ∃ t code,
       listenSignals (pre ++ a :: post) = (restarted (length pre) ++ t, Exited code)
       ∧ code ≠ 0
       ∧ (Stop 3000000000 ∈ t)
       ∧ (Start ∉ t)
       ∧ (ExitSend ∉ t)).
Proof.
  intros Hpre. rewrite (listenSignals_restarted pre (a :: post) Hpre).
  rewrite listenSignals_cons. unfold restarts, handle. split_and!.
  - intros Hsig ->. by destruct Hsig as [-> | ->].
  - intros -> ->. destruct (start_fails a); simpl.
    + exists [], (Exited fatal_exit_code).
      split_and!; [done..|]. intros _. split; [done|]. by eexists.
    + exists (listenSignals post).1, (listenSignals post).2.
      split_and!; [done|by destruct (listenSignals post)|done].
  - intros ->. destruct (sig a); simpl.
    + exists [LogInfo "SIGHUP received"; Stop (second * 3);
              LogFatal "can't stop file.d with SIGHUP"], fatal_exit_code.
      split_and!; [done..| | |]; by_compute.
    + exists [LogInfo "SIGTERM or SIGINT received"; Stop (second * 3);
              LogFatal "can't stop file.d with SIGTERM or SIGINT"], fatal_exit_code.
      split_and!; [done..| | |]; by_compute.
    + exists [LogInfo "SIGTERM or SIGINT received"; Stop (second * 3);
              LogFatal "can't stop file.d with SIGTERM or SIGINT"], fatal_exit_code.
      split_and!; [done..| | |]; by_compute.
Qed.

Lemma listenSignals_signal_witness :
  Forall (λ a, restarts a = true) [arrives SIGHUP]
  ∧ (sig (arrives SIGTERM) = SIGINT ∨ sig (arrives SIGTERM) = SIGTERM)
  ∧ stop_fails (arrives SIGTERM) = false
  ∧ listenSignals ([arrives SIGHUP] ++ arrives SIGTERM :: [arrives SIGHUP])
    = ([LogInfo "SIGHUP received"; Stop 3000000000; Cancel; Start;
        LogInfo "SIGTERM or SIGINT received"; Stop 3000000000; Cancel;
        ExitSend; LogInfo "see you soon..."], Exited 0).
Proof.
  assert (Forall (λ a, restarts a = true) [arrives SIGHUP]) as H
    by (by repeat constructor).
  split; [done|]. split; [by right|]. split; [done|].
  exact (proj1 (listenSignals_signal [arrives SIGHUP] (arrives SIGTERM) [arrives SIGHUP] H)
           (or_intror eq_refl) eq_refl).
Defined.

(** X28.  The process ends with exit code 0 exactly when a SIGINT or a
    SIGTERM whose stop succeeds arrives after nothing but SIGHUPs whose stop
    and restart succeed: no later signal and no other sequence of signals
    gives the code 0. *)
Theorem listenSignals_exit_zero arrivals :
  (listenSignals arrivals).2 = Exited 0
  ↔ ∃ pre a post,
      arrivals = pre ++ a :: post
      ∧ Forall (λ a, restarts a = true) pre
      ∧ stops a = true.
Proof.
  induction arrivals as [|a arrivals IH].
  - split; [done|]. by intros ([|? ?] & ? & ? & ? & _).
  - rewrite listenSignals_cons. destruct (restarts a) eqn:Ha.
    + cbn [snd]. rewrite IH. split.
      * intros (pre & a' & post & -> & Hpre & Ha').
        exists (a :: pre), a', post. split_and!; [done| |done]. by constructor.
      * intros ([|a0 pre] & a' & post & Heq & Hpre & Ha'); simplify_eq/=.
        -- unfold restarts, stops in *. by destruct (sig a').
        -- apply Forall_cons in Hpre as [_ Hpre]. by exists pre, a', post.
    + rewrite handle_stops. split.
      * intros Hstops. by exists [], a, arrivals.
      * intros ([|a0 pre] & a' & post & Heq & Hpre & Ha'); simplify_eq/=; [done|].
        apply Forall_cons in Hpre as [Ha0 _]. congruence.
Qed.

(** X29.  The signals are handled up to the first one that does not leave
    the daemon running: each SIGHUP before it stops the daemon with the
    3 s deadline and starts it again, then comes the trace of that signal,
    and no signal after it is handled; if there is no such signal the
    daemon keeps running. *)
Theorem listenSignals_first_exit pre :
  Forall (λ a, restarts a = true) pre →
  listenSignals pre
  = (mjoin (replicate (length pre)
              [LogInfo "SIGHUP received"; Stop 3000000000; Cancel; Start]), Running)
  ∧ ∀ a post,
      restarts a = false →
      listenSignals (pre ++ a :: post)
      = (mjoin (replicate (length pre)
                  [LogInfo "SIGHUP received"; Stop 3000000000; Cancel; Start])
           ++ (handle a).1, (handle a).2)
      ∧ ∃ code, (handle a).2 = Exited code.
Proof.
  intros Hpre. induction Hpre as [|a0 pre Ha0 _ [IH1 IH2]].
  - split; [done|]. intros a post Ha. split; [|by apply handle_exits].
    simpl app. rewrite listenSignals_cons, Ha. by destruct (handle a).
  - split.
    + rewrite listenSignals_cons, Ha0, IH1, (handle_restarts a0 Ha0). done.
    + intros a post Ha. split; [|by apply handle_exits].
      rewrite <- app_comm_cons, listenSignals_cons, Ha0.
      destruct (IH2 a post Ha) as [-> _]. by rewrite (handle_restarts a0 Ha0).
Qed.

Lemma listenSignals_first_exit_witness :
  listenSignals [arrives SIGHUP; arrives SIGHUP]
  = ([LogInfo "SIGHUP received"; Stop 3000000000; Cancel; Start;
      LogInfo "SIGHUP received"; Stop 3000000000; Cancel; Start], Running).
Proof.
  assert (Forall (λ a, restarts a = true) [arrives SIGHUP; arrives SIGHUP]) as H
    by (by repeat constructor).
  exact (proj1 (listenSignals_first_exit [arrives SIGHUP; arrives SIGHUP] H)).
Defined.

End SignalProperties.
